(** * MyTableJs: a shallow embedding of the row store, the filter engine
      and the paginator of [src/MyTableJs.js].

    The class [MyTableJs] keeps a [Map] from numeric ids to row objects, two
    arrays of ids ([order], [filteredOrder]), an auto-id counter and some
    rendering state.  Every method is embedded as a function on an explicit
    record of these fields.  A method that can raise a [TypeError] returns a
    [completion] that says so and carries the state at the moment of the
    throw.

    Modelling conventions:
    - a JavaScript number is an integer ([Int z]) or [NaN].  Up to [2^53]
      in magnitude the integers are doubles, their arithmetic is exact
      and [String(z)] is the decimal numeral; the counter is incremented
      as a double ([to_double]).  [Number] reads every form of numeral
      ([Str.toNumber]); a string that denotes a fraction, an infinity or
      an integer beyond [2^53] denotes no [number]: [Str.exact] tells
      these strings apart, and the theorems that depend on the number read
      from a string assume it.  The page total may be [+Infinity] and has
      a type of its own ([pages]);
    - a string is a [string] of 8-bit characters; lower-casing acts on the
      letters [A-Z] and white space is the ASCII white space, which is
      what JavaScript does on ASCII text: the theorems that depend on
      letter case or trimming assume ASCII text ([Str.ascii_text]);
    - a row object is a finite map from the names of its own properties to
      primitive values; the members it inherits from [Object.prototype]
      are no such values, and the theorems that read a column by its name
      assume a name that is none of theirs ([own_name]);
    - the DOM is reduced to what the methods read back from it: the header
      bound by [renderHeader] with its search inputs, its kind and whether
      it has a parent, and the [data-id] of the rows drawn in the body,
      set by the template or by the widget;
    - the caller's callbacks ([template], [addEventListeners],
      [onFilterEnd]) only observe: they neither throw nor call back into
      the widget. *)

From Stdlib Require Import ZArith Ascii String DecimalString DecimalPos Bool Lia.
From stdpp Require Import gmap strings list fin_maps sorting.

Open Scope Z_scope.

(** ** JavaScript values *)

Inductive number := Int (z : Z) | NaN.

Inductive jsval :=
  | VUndefined
  | VNull
  | VBool (b : bool)
  | VNumber (n : number)
  | VString (s : string).

(** A row object: the names of its own properties and their values. *)
Abbreviation row := (gmap string jsval).

(** The names every object inherits from [Object.prototype]. *)
Definition Object_prototype : list string :=
  [ "constructor"; "hasOwnProperty"; "isPrototypeOf"; "propertyIsEnumerable";
    "toLocaleString"; "toString"; "valueOf"; "__proto__";
    "__defineGetter__"; "__defineSetter__"; "__lookupGetter__";
    "__lookupSetter__" ].

(** [row[k]]: the row's own property, [undefined] when it has none.  For a
    name of [Object_prototype] that the row does not hold itself the code
    reads the inherited member, a function or an object, which is no
    [jsval]: [own_name] keeps those names apart. *)
Definition prop (r : row) (k : string) : jsval :=
  match r !! k with Some v => v | None => VUndefined end.

Definition own_name (k : string) : Prop := k ∉ Object_prototype.

(** [{...a, ...b}]: the properties of [b] win. *)
Definition spread2 (a b : row) : row := b ∪ a.

(** ** Strings *)

Module Str.

Definition is_upper (c : ascii) : bool :=
  let n := nat_of_ascii c in ((65 <=? n) && (n <=? 90))%nat.

Definition lower_char (c : ascii) : ascii :=
  if is_upper c then ascii_of_nat (nat_of_ascii c + 32) else c.

(** [s.toLowerCase()] *)
Fixpoint toLowerCase (s : string) : string :=
  match s with
  | EmptyString => EmptyString
  | String c s' => String (lower_char c) (toLowerCase s')
  end.

(** White space of [String.prototype.trim] in the ASCII range:
    TAB, LF, VT, FF, CR and SPACE. *)
Definition is_space (c : ascii) : bool :=
  let n := nat_of_ascii c in (((9 <=? n) && (n <=? 13)) || (n =? 32))%nat.

Definition is_empty (s : string) : bool :=
  match s with EmptyString => true | String _ _ => false end.

Fixpoint trimStart (s : string) : string :=
  match s with
  | EmptyString => EmptyString
  | String c s' => if is_space c then trimStart s' else s
  end.

Fixpoint trimEnd (s : string) : string :=
  match s with
  | EmptyString => EmptyString
  | String c s' =>
      let t := trimEnd s' in
      if is_space c && is_empty t then EmptyString else String c t
  end.

(** [s.trim()] *)
Definition trim (s : string) : string := trimEnd (trimStart s).

Definition comma : ascii := ","%char.

(** [s.split(',')]: never empty, [''.split(',')] is [['']]. *)
Fixpoint split (s : string) : list string :=
  match s with
  | EmptyString => [EmptyString]
  | String c s' =>
      if Ascii.eqb c comma then EmptyString :: split s'
      else match split s' with
           | h :: t => String c h :: t
           | [] => [String c EmptyString]
           end
  end.

(** [s.includes(w)] *)
Fixpoint includes (s w : string) : bool :=
  String.prefix w s ||
  match s with
  | EmptyString => false
  | String _ s' => includes s' w
  end.

(** Decimal digits, for [Number(s)]. *)
Definition digit (c : ascii) : option Z :=
  let n := nat_of_ascii c in
  if ((48 <=? n) && (n <=? 57))%nat then Some (Z.of_nat (n - 48)) else None.

Fixpoint digits (acc : Z) (s : string) : option Z :=
  match s with
  | EmptyString => Some acc
  | String c s' =>
      match digit c with
      | Some d => digits (10 * acc + d) s'
      | None => None
      end
  end.

Definition unsigned (s : string) : number :=
  match s with
  | EmptyString => NaN
  | _ => match digits 0 s with Some n => Int n | None => NaN end
  end.

(** The common case of [Number(s)]: white space is trimmed, the empty
    string is 0, an optionally signed run of decimal digits is its
    value. *)
Definition integer (s : string) : number :=
  match trim s with
  | EmptyString => Int 0
  | String "-"%char t =>
      match unsigned t with Int n => Int (- n) | NaN => NaN end
  | String "+"%char t => unsigned t
  | t => unsigned t
  end.

(** The other forms of [StrNumericLiteral] (ECMA-262, StringToNumber). *)

(** The longest run of decimal digits at the start of [s]: its value on
    top of [acc], its length on top of [n], and what follows it. *)
Fixpoint DecimalDigits (acc n : Z) (s : string) : Z * Z * string :=
  match s with
  | EmptyString => (acc, n, s)
  | String c s' =>
      match digit c with
      | Some d => DecimalDigits (10 * acc + d) (n + 1) s'
      | None => (acc, n, s)
      end
  end.

(** A run of decimal digits, not empty, and nothing else. *)
Definition all_digits (s : string) : option Z :=
  match s with EmptyString => None | _ => digits 0 s end.

(** [ExponentPart] or nothing: [e] or [E], an optional sign, digits. *)
Definition ExponentPart (s : string) : option Z :=
  match s with
  | EmptyString => Some 0
  | String c t =>
      if Ascii.eqb c "e" || Ascii.eqb c "E" then
        match t with
        | String "-"%char u => Z.opp <$> all_digits u
        | String "+"%char u => all_digits u
        | _ => all_digits t
        end
      else None
  end.

(** [StrUnsignedDecimalLiteral] other than [Infinity]:
    [digits . digits? exponent?], [. digits exponent?] or
    [digits exponent?], as the pair [(m, e)] of the value [m * 10^e]. *)
Definition StrUnsignedDecimalLiteral (s : string) : option (Z * Z) :=
  let '(i, ni, rest) := DecimalDigits 0 0 s in
  match rest with
  | String "."%char rest' =>
      let '(m, nf, rest'') := DecimalDigits i 0 rest' in
      if (ni =? 0) && (nf =? 0) then None
      else (λ e, (m, e - nf)) <$> ExponentPart rest''
  | _ =>
      if ni =? 0 then None else (λ e, (i, e)) <$> ExponentPart rest
  end.

(** The value of a digit in a base up to 16, if it is one. *)
Definition digit_of (base : Z) (c : ascii) : option Z :=
  let n := Z.of_nat (nat_of_ascii c) in
  let d := if (48 <=? n) && (n <=? 57) then n - 48
           else if (97 <=? n) && (n <=? 102) then n - 87
           else if (65 <=? n) && (n <=? 70) then n - 55
           else base in
  if d <? base then Some d else None.

Fixpoint digits_of (base acc : Z) (s : string) : option Z :=
  match s with
  | EmptyString => Some acc
  | String c s' =>
      match digit_of base c with
      | Some d => digits_of base (base * acc + d) s'
      | None => None
      end
  end.

(** [NonDecimalIntegerLiteral]: [0x], [0o] or [0b] (in either case) and
    digits of that base; it takes no sign. *)
Definition NonDecimalIntegerLiteral (s : string) : option Z :=
  match s with
  | String "0"%char (String c t) =>
      let base :=
        if Ascii.eqb c "x" || Ascii.eqb c "X" then 16
        else if Ascii.eqb c "o" || Ascii.eqb c "O" then 8
        else if Ascii.eqb c "b" || Ascii.eqb c "B" then 2
        else 0 in
      if base =? 0 then None
      else match t with EmptyString => None | _ => digits_of base 0 t end
  | _ => None
  end.

(** What a trimmed string denotes: an integer, a number with a fractional
    part, an infinity, or no number. *)
Inductive literal :=
  | Whole (z : Z)
  | Fractional
  | Infinite
  | NotNumeric.

(** [m * 10^e] for [0 <= m]. *)
Definition decimal_value (m e : Z) : literal :=
  if m =? 0 then Whole 0
  else if 0 <=? e then Whole (m * 10 ^ e)
  else if m mod 10 ^ (- e) =? 0 then Whole (m / 10 ^ (- e))
  else Fractional.

Definition StrUnsignedLiteral (s : string) : literal :=
  if String.eqb s "Infinity" then Infinite
  else match StrUnsignedDecimalLiteral s with
       | Some (m, e) => decimal_value m e
       | None => NotNumeric
       end.

Definition negate (l : literal) : literal :=
  match l with Whole z => Whole (- z) | _ => l end.

Definition StrNumericLiteral (t : string) : literal :=
  match NonDecimalIntegerLiteral t with
  | Some z => Whole z
  | None =>
      match t with
      | String "-"%char u => negate (StrUnsignedLiteral u)
      | String "+"%char u => StrUnsignedLiteral u
      | _ => StrUnsignedLiteral t
      end
  end.

(** [Number(s)] on a string.  White space is trimmed; the empty string is
    0; a numeral whose value is an integer is that integer, whether it is
    written with digits only, with a fraction and an exponent ([1.0],
    [1e3]) or in base 16, 8 or 2; what is no numeral is [NaN].  A numeral
    with a fractional value and [Infinity] denote numbers that are not
    integers: they lie outside [number], the result here is [NaN] for them
    as well, and [exact] below tells them apart. *)
Definition toNumber (s : string) : number :=
  match integer s with
  | Int z => Int z
  | NaN =>
      match StrNumericLiteral (trim s) with
      | Whole z => Int z
      | _ => NaN
      end
  end.

(** Text in the ASCII range, where [toLowerCase] and [trim] above are those
    of JavaScript. *)
Definition is_ascii (c : ascii) : bool := (nat_of_ascii c <? 128)%nat.

Fixpoint ascii_text (s : string) : bool :=
  match s with
  | EmptyString => true
  | String c s' => is_ascii c && ascii_text s'
  end.

(** Integers up to [2^53] in magnitude are doubles, and a numeral with
    such a value is read without rounding. *)
Definition safe (z : Z) : bool := Z.abs z <=? 2 ^ 53.

(** [toNumber s] is the number JavaScript reads from [s]: the text is
    ASCII and is empty, no numeral, or a numeral whose value is a safe
    integer. *)
Definition exact (s : string) : bool :=
  ascii_text s &&
  match integer s with
  | Int z => safe z
  | NaN =>
      match StrNumericLiteral (trim s) with
      | Whole z => safe z
      | NotNumeric => true
      | Fractional | Infinite => false
      end
  end.

(** [String(z)] for an integer. *)
Definition ofZ (z : Z) : string := NilZero.string_of_int (Z.to_int z).

End Str.

(** ** Coercions *)

(** [ToBoolean]: what [!v], [a || b] and [if (v)] test. *)
Definition truthy (v : jsval) : bool :=
  match v with
  | VUndefined | VNull => false
  | VBool b => b
  | VNumber (Int z) => negb (z =? 0)
  | VNumber NaN => false
  | VString s => negb (Str.is_empty s)
  end.

(** [a || b] *)
Definition js_or (a b : jsval) : jsval := if truthy a then a else b.

(** [a ?? b] *)
Definition js_coalesce (a b : jsval) : jsval :=
  match a with VUndefined | VNull => b | _ => a end.

(** [Number(v)] *)
Definition Number (v : jsval) : number :=
  match v with
  | VUndefined => NaN
  | VNull => Int 0
  | VBool b => Int (if b then 1 else 0)
  | VNumber n => n
  | VString s => Str.toNumber s
  end.

(** [Number(v)] is read exactly: only a string can hold a numeral that
    [number] does not cover. *)
Definition exactly_read (v : jsval) : bool :=
  match v with VString s => Str.exact s | _ => true end.

(** [!n] on a number: 0 and [NaN] are falsy. *)
Definition number_falsy (n : number) : bool :=
  match n with Int z => z =? 0 | NaN => true end.

(** [String(v)] *)
Definition String_ (v : jsval) : string :=
  match v with
  | VUndefined => "undefined"
  | VNull => "null"
  | VBool b => if b then "true" else "false"
  | VNumber (Int z) => Str.ofZ z
  | VNumber NaN => "NaN"
  | VString s => s
  end.

(** ** Arrays *)

(** [Array.prototype.slice(start, end)] with integer arguments: a negative
    index counts from the end, both are clamped to the array. *)
Definition slice_index (len i : Z) : Z :=
  if i <? 0 then Z.max (len + i) 0 else Z.min i len.

Definition slice {A} (l : list A) (start finish : Z) : list A :=
  let len := Z.of_nat (length l) in
  let k := slice_index len start in
  let final := slice_index len finish in
  take (Z.to_nat (final - k)) (drop (Z.to_nat k) l).

(** [a.includes(x)] on an array of ids. *)
Definition arr_includes (l : list Z) (x : Z) : bool := existsb (Z.eqb x) l.

(** [a.push(x)] *)
Definition push {A} (l : list A) (x : A) : list A := l ++ [x].

(** [Math.max(...l)] for a non-empty [l]. *)
Definition Math_max (l : list Z) : Z :=
  match l with
  | [] => 0
  | x :: l' => foldr Z.max x l'
  end.

(** The double nearest to an integer, ties to the even significand: what
    an exact integer result becomes in the arithmetic of [Number].  Up to
    [2^53] in magnitude every integer is its own double. *)
Definition to_double (z : Z) : Z :=
  let a := Z.abs z in
  let k := Z.log2 a - 52 in
  if k <=? 0 then z
  else
    let q := a / 2 ^ k in
    let r := a mod 2 ^ k in
    let half := 2 ^ (k - 1) in
    let q' := if (half <? r) || ((r =? half) && Z.odd q) then q + 1 else q in
    Z.sgn z * (q' * 2 ^ k).

(** ** The widget *)

(** [options.pagination]: [{ page?, perPage }]. *)
Record Pagination := { page : option Z; perPage : Z }.

(** A header input carrying [data-search-column]. *)
Record SearchInput := { searchColumn : string; inputValue : string }.

(** The header element: its search inputs, the value of the optional
    [data-filter-mode-switch] control, whether it is a [thead] element or
    holds one (what [table.querySelector('thead')] finds once the element
    is in the table), and whether it has a parent node. *)
Record Header := {
  inputs : list SearchInput;
  modeSwitch : option string;
  isThead : bool;
  parentNode : bool
}.

Record MyTableJs := {
  template : row → option string;   (* options.template, by the data-id of
                                       the element it returns, if any *)
  idField : option string;          (* options.idField *)
  pagination : option Pagination;   (* this.pagination *)
  rowMap : gmap Z row;              (* this.rowMap *)
  order : list Z;                   (* this.order *)
  filteredOrder : list Z;           (* this.filteredOrder *)
  rowIdCounter : Z;                 (* this.rowIdCounter *)
  eventListenersAdded : bool;       (* this.eventListenersAdded *)
  thead : option Header;            (* this.thead *)
  tableHasThead : bool;             (* table.querySelector('thead') *)
  tbody : list string               (* data-id of the rows in this.tbody *)
}.

Definition set_pagination (v : option Pagination) (s : MyTableJs) :=
  {| template := template s; idField := idField s; pagination := v; rowMap := rowMap s;
     order := order s; filteredOrder := filteredOrder s;
     rowIdCounter := rowIdCounter s;
     eventListenersAdded := eventListenersAdded s; thead := thead s;
     tableHasThead := tableHasThead s; tbody := tbody s |}.

Definition set_rowMap (v : gmap Z row) (s : MyTableJs) :=
  {| template := template s; idField := idField s; pagination := pagination s; rowMap := v;
     order := order s; filteredOrder := filteredOrder s;
     rowIdCounter := rowIdCounter s;
     eventListenersAdded := eventListenersAdded s; thead := thead s;
     tableHasThead := tableHasThead s; tbody := tbody s |}.

Definition set_order (v : list Z) (s : MyTableJs) :=
  {| template := template s; idField := idField s; pagination := pagination s; rowMap := rowMap s;
     order := v; filteredOrder := filteredOrder s;
     rowIdCounter := rowIdCounter s;
     eventListenersAdded := eventListenersAdded s; thead := thead s;
     tableHasThead := tableHasThead s; tbody := tbody s |}.

Definition set_filteredOrder (v : list Z) (s : MyTableJs) :=
  {| template := template s; idField := idField s; pagination := pagination s; rowMap := rowMap s;
     order := order s; filteredOrder := v;
     rowIdCounter := rowIdCounter s;
     eventListenersAdded := eventListenersAdded s; thead := thead s;
     tableHasThead := tableHasThead s; tbody := tbody s |}.

Definition set_rowIdCounter (v : Z) (s : MyTableJs) :=
  {| template := template s; idField := idField s; pagination := pagination s; rowMap := rowMap s;
     order := order s; filteredOrder := filteredOrder s;
     rowIdCounter := v;
     eventListenersAdded := eventListenersAdded s; thead := thead s;
     tableHasThead := tableHasThead s; tbody := tbody s |}.

Definition set_eventListenersAdded (v : bool) (s : MyTableJs) :=
  {| template := template s; idField := idField s; pagination := pagination s; rowMap := rowMap s;
     order := order s; filteredOrder := filteredOrder s;
     rowIdCounter := rowIdCounter s;
     eventListenersAdded := v; thead := thead s;
     tableHasThead := tableHasThead s; tbody := tbody s |}.

Definition set_thead (v : option Header) (s : MyTableJs) :=
  {| template := template s; idField := idField s; pagination := pagination s; rowMap := rowMap s;
     order := order s; filteredOrder := filteredOrder s;
     rowIdCounter := rowIdCounter s;
     eventListenersAdded := eventListenersAdded s; thead := v;
     tableHasThead := tableHasThead s; tbody := tbody s |}.

Definition set_tableHasThead (v : bool) (s : MyTableJs) :=
  {| template := template s; idField := idField s; pagination := pagination s; rowMap := rowMap s;
     order := order s; filteredOrder := filteredOrder s;
     rowIdCounter := rowIdCounter s;
     eventListenersAdded := eventListenersAdded s; thead := thead s;
     tableHasThead := v; tbody := tbody s |}.

Definition set_tbody (v : list string) (s : MyTableJs) :=
  {| template := template s; idField := idField s; pagination := pagination s; rowMap := rowMap s;
     order := order s; filteredOrder := filteredOrder s;
     rowIdCounter := rowIdCounter s;
     eventListenersAdded := eventListenersAdded s; thead := thead s;
     tableHasThead := tableHasThead s; tbody := v |}.

(** [new MyTableJs(options)] on a table without rows: [tpl] is
    [options.template], and [hasThead] says whether the table's markup
    already holds a [thead]. *)
Definition constructor (tpl : row → option string) (idf : option string)
    (pg : option Pagination) (hasThead : bool) : MyTableJs :=
  {| template := tpl; idField := idf; pagination := pg; rowMap := ∅;
     order := [];
     filteredOrder := []; rowIdCounter := 0; eventListenersAdded := false;
     thead := None; tableHasThead := hasThead; tbody := [] |}.

(** ** Methods as state transformers that may throw *)

Inductive completion (A : Type) :=
  | Return (a : A) (s : MyTableJs)
  | Throw (s : MyTableJs).
Arguments Return {A} a s.
Arguments Throw {A} s.

Definition M (A : Type) : Type := MyTableJs → completion A.

Definition ret {A} (a : A) : M A := λ s, Return a s.

Definition bind {A B} (m : M A) (k : A → M B) : M B :=
  λ s, match m s with
       | Return a s' => k a s'
       | Throw s' => Throw s'
       end.

Notation "'let!' x ':=' m 'in' k" := (bind m (λ x, k))
  (at level 10, x name, m at level 100, k at level 200, only parsing).
Notation "m ';;' k" := (bind m (λ _, k))
  (at level 100, k at level 200, right associativity, only parsing).

Definition this : M MyTableJs := λ s, Return s s.
Definition modify (f : MyTableJs → MyTableJs) : M unit :=
  λ s, Return tt (f s).
Definition TypeError {A} : M A := λ s, Throw s.

(** Reading a property of [this.pagination]: a [TypeError] when the
    option was not given. *)
Definition this_pagination : M Pagination :=
  let! s := this in
  match pagination s with
  | Some pg => ret pg
  | None => TypeError
  end.

(** Reading a property of [this.thead]: a [TypeError] while no header was
    bound. *)
Definition this_thead : M Header :=
  let! s := this in
  match thead s with
  | Some h => ret h
  | None => TypeError
  end.

Fixpoint forEach {A} (l : list A) (body : A → M unit) : M unit :=
  match l with
  | [] => ret tt
  | x :: l' => body x ;; forEach l' body
  end.

(** ** Rendering *)

(** [#renderRow(rowData)]: the caller's template draws the row; the widget
    stamps the row's [id] on the element as its [data-id] unless the
    template has set one.  What is kept of the element is its [data-id]. *)
Definition renderRow (s : MyTableJs) (rowData : row) : string :=
  match template s rowData with
  | Some d => if Str.is_empty d then String_ (prop rowData "id") else d
  | None => String_ (prop rowData "id")
  end.

(** A template that leaves the [data-id] to the widget. *)
Definition unmarked : row → option string := λ _, None.

(** [#addEventListeners()]: the delegated listeners are attached once (the
    caller drops the result). *)
Definition addEventListeners : M unit :=
  let! s := this in
  if eventListenersAdded s then ret tt
  else modify (set_eventListenersAdded true).

(** ** Paginator *)

(** The value of [Math.ceil(len / perPage)] for an array length and an
    integer [perPage]: the quotient is infinite or undefined when [perPage]
    is 0. *)
Inductive quotient := Finite (z : Z) | PosInfinity | NotANumber.

Definition Math_ceil_div (len : nat) (b : Z) : quotient :=
  if b =? 0 then (if Z.of_nat len =? 0 then NotANumber else PosInfinity)
  else Finite (- ((- Z.of_nat len) / b)).

(** A page total: an integer or [Infinity]. *)
Inductive pages := Pages (n : Z) | InfinitePages.

(** [q || 1] *)
Definition or_one (q : quotient) : pages :=
  match q with
  | Finite z => if z =? 0 then Pages 1 else Pages z
  | PosInfinity => InfinitePages
  | NotANumber => Pages 1
  end.

Definition getTotalPages : M pages :=
  let! s := this in
  let! pg := this_pagination in
  ret (or_one (Math_ceil_div (length (filteredOrder s)) (perPage pg))).

Definition getPaginatedOrder : M (list Z) :=
  let! pg := this_pagination in
  let p := match page pg with Some p => p | None => 1 end in
  let start := (p - 1) * perPage pg in
  let! s := this in
  ret (slice (filteredOrder s) start (start + perPage pg)).

(** [#renderTable()] *)
Definition renderTable : M (list string) :=
  modify (set_tbody []) ;;
  let! s := this in
  let! order :=
    match pagination s with
    | Some _ => getPaginatedOrder
    | None => ret (filteredOrder s)
    end in
  let fragment := omap (λ id, renderRow s <$> rowMap s !! id) order in
  modify (set_tbody fragment) ;;
  addEventListeners ;;
  ret fragment.

(** [Math.max(1, Math.min(page, total))] *)
Definition clamp_page (n : Z) (total : pages) : Z :=
  Z.max 1 (match total with Pages t => Z.min n t | InfinitePages => n end).

Definition setPage (n : Z) : M unit :=
  let! total := getTotalPages in
  let! pg := this_pagination in
  modify (set_pagination
            (Some {| page := Some (clamp_page n total);
                     perPage := perPage pg |})) ;;
  renderTable ;;
  ret tt.

(** ** Filter engine *)

Record FilterEntry := { column : string; value : string; mode : string }.

(** The three arrays the callback of [order.filter] fills per row. *)
Record Conditions := {
  andConditions : list bool;
  orConditions : list bool;
  notConditions : list bool
}.

(** [String(value).toLowerCase().split(',').map(w => w.trim()).filter(Boolean)] *)
Definition words (v : string) : list string :=
  List.filter (λ w, negb (Str.is_empty w))
    (map Str.trim (Str.split (Str.toLowerCase v))).

(** [words.some(word => String(row[column] ?? '').toLowerCase().includes(word))] *)
Definition matches (r : row) (col v : string) : bool :=
  existsb
    (λ word,
       Str.includes
         (Str.toLowerCase (String_ (js_coalesce (prop r col) (VString ""))))
         word)
    (words v).

(** The match of one entry of the filter array. *)
Definition matchb (r : row) (f : FilterEntry) : bool :=
  matches r (column f) (value f).

(** One turn of the loop over [filters]. *)
Definition classify (r : row) (c : Conditions) (f : FilterEntry) : Conditions :=
  if Str.is_empty (value f) then c
  else
    let m := matches r (column f) (value f) in
    if String.eqb (mode f) "AND" then
      {| andConditions := push (andConditions c) m;
         orConditions := orConditions c;
         notConditions := notConditions c |}
    else if String.eqb (mode f) "OR" then
      {| andConditions := andConditions c;
         orConditions := push (orConditions c) m;
         notConditions := notConditions c |}
    else if String.eqb (mode f) "NOT" then
      {| andConditions := andConditions c;
         orConditions := orConditions c;
         notConditions := push (notConditions c) (negb m) |}
    else c.

(** [a.length ? a.every(Boolean) : true] and [a.length ? a.some(Boolean) : true] *)
Definition every_or_true (a : list bool) : bool :=
  match a with [] => true | _ => forallb id a end.

Definition some_or_true (a : list bool) : bool :=
  match a with [] => true | _ => existsb id a end.

(** The callback of [this.order.filter]. *)
Definition keep_id (rows : gmap Z row) (filters : list FilterEntry) (id : Z)
    : bool :=
  match rows !! id with
  | None => false
  | Some r =>
      let c := fold_left (classify r) filters
                 {| andConditions := []; orConditions := [];
                    notConditions := [] |} in
      let andOk := every_or_true (andConditions c) in
      let orOk := some_or_true (orConditions c) in
      let notOk := every_or_true (notConditions c) in
      andOk && orOk && notOk
  end.

Definition filterTable (filters : list FilterEntry) : M (list Z) :=
  modify (λ s, set_filteredOrder
                 (List.filter (keep_id (rowMap s) filters) (order s)) s) ;;
  let! s := this in
  match pagination s with Some _ => setPage 1 | None => ret tt end ;;
  renderTable ;;
  let! s := this in
  ret (filteredOrder s).

Definition clear_input (e : SearchInput) : SearchInput :=
  {| searchColumn := searchColumn e; inputValue := "" |}.

Definition resetFilter : M unit :=
  modify (λ s, set_filteredOrder (order s) s) ;;
  let! h := this_thead in
  modify (set_thead (Some {| inputs := map clear_input (inputs h);
                             modeSwitch := modeSwitch h;
                             isThead := isThead h;
                             parentNode := parentNode h |})) ;;
  renderTable ;;
  ret tt.

(** The filter array the header's input listener builds: one entry per
    search input, all with the mode of the switch, ["AND"] by default. *)
Definition headerFilters (h : Header) : list FilterEntry :=
  let m := match modeSwitch h with
           | Some v => if Str.is_empty v then "AND" else v
           | None => "AND"
           end in
  map (λ el, {| column := searchColumn el; value := inputValue el;
                mode := m |}) (inputs h).

(** [renderHeader(headerElement)]; [None] stands for an argument that is
    not an element.  An element without a parent is prepended to the
    table, which holds a [thead] from then on if the element is or holds
    one. *)
Definition renderHeader (headerElement : option Header) : M (option Header) :=
  let! s := this in
  match headerElement with
  | None => ret None
  | Some h =>
      if tableHasThead s then ret None
      else
        (if parentNode h then ret tt
         else modify (set_tableHasThead (isThead h))) ;;
        modify (set_thead (Some h)) ;;
        ret (Some h)
  end.

(** ** Row store *)

(** The property [row[this.options.idField]] reads: an omitted option is
    the property key ["undefined"]. *)
Definition idFieldKey (s : MyTableJs) : string :=
  match idField s with Some f => f | None => "undefined" end.

(** [this.rowIdCounter++; id = this.rowIdCounter]: the sum is a double. *)
Definition nextId (s : MyTableJs) : Z * MyTableJs :=
  let c := to_double (rowIdCounter s + 1) in
  (c, set_rowIdCounter c s).

(** [let id = Number(row.id || row[this.options.idField]); if (!id) {...}] *)
Definition resolveId (r : row) (s : MyTableJs) : Z * MyTableJs :=
  match Number (js_or (prop r "id") (prop r (idFieldKey s))) with
  | Int z => if z =? 0 then nextId s else (z, s)
  | NaN => nextId s
  end.

(** The body of the loop of [setData]. *)
Definition ingest (r : row) (s : MyTableJs) : MyTableJs :=
  let '(id, s) := resolveId r s in
  let row := <["id" := VNumber (Int id)]> r in
  match rowMap s !! id with
  | Some old => set_rowMap (<[id := spread2 old row]> (rowMap s)) s
  | None =>
      let s := set_rowMap (<[id := row]> (rowMap s)) s in
      let s := if arr_includes (order s) id then s
               else set_order (push (order s) id) s in
      if arr_includes (filteredOrder s) id then s
      else set_filteredOrder (push (filteredOrder s) id) s
  end.

(** [this.rowMap.keys()] *)
Definition keys (m : gmap Z row) : list Z := (map_to_list m).*1.

(** [if (this.rowMap.size) {...} else {...}] at the end of [setData]. *)
Definition recount (s : MyTableJs) : MyTableJs :=
  if decide (size (rowMap s) = 0%nat)
  then set_rowIdCounter 0 s
  else set_rowIdCounter (Math_max (keys (rowMap s))) s.

Definition setData (rows : list row) (keepFilters : bool) : M (list string) :=
  forEach rows (λ r, modify (ingest r)) ;;
  (if keepFilters then ret tt
   else modify (λ s, set_filteredOrder (order s) s)) ;;
  renderTable ;;
  modify recount ;;
  let! s := this in
  ret (tbody s).

(** [a.filter(x => x !== id)] *)
Definition without (id : Z) (l : list Z) : list Z :=
  List.filter (λ x, negb (x =? id)) l.

(** [const tr = tbody.querySelector(`[data-id="${id}"]`); if (tr) tr.remove()] *)
Fixpoint remove_first (d : string) (l : list string) : list string :=
  match l with
  | [] => []
  | x :: l' => if String.eqb x d then l' else x :: remove_first d l'
  end.

(** [tr.replaceWith(newTr)] on the first element with that [data-id]. *)
Fixpoint replace_first (d e : string) (l : list string) : list string :=
  match l with
  | [] => []
  | x :: l' => if String.eqb x d then e :: l' else x :: replace_first d e l'
  end.

Definition removeRow (id : jsval) : M bool :=
  let! s := this in
  match Number id with
  | NaN => ret false
  | Int id =>
      match rowMap s !! id with
      | None => ret false
      | Some _ =>
          modify (λ s, set_rowMap (delete id (rowMap s)) s) ;;
          modify (λ s, set_order (without id (order s)) s) ;;
          modify (λ s, set_filteredOrder (without id (filteredOrder s)) s) ;;
          modify (λ s, set_tbody (remove_first (Str.ofZ id) (tbody s)) s) ;;
          ret true
      end
  end.

Definition updateRow (id : jsval) (newData : row) (updateElement : bool)
    : M bool :=
  let! s := this in
  match Number id with
  | NaN => ret false
  | Int id =>
      match rowMap s !! id with
      | None => ret false
      | Some oldData =>
          let updatedRow :=
            <["id" := VNumber (Int id)]> (spread2 oldData newData) in
          modify (λ s, set_rowMap (<[id := updatedRow]> (rowMap s)) s) ;;
          (if updateElement then
             modify (λ s, set_tbody
                            (replace_first (Str.ofZ id)
                               (renderRow s updatedRow) (tbody s)) s)
           else ret tt) ;;
          ret true
      end
  end.

(** [getRow(id)]: the row or [null]. *)
Definition getRow (id : jsval) : M (option row) :=
  let! s := this in
  match Number id with
  | NaN => ret None
  | Int id => ret (rowMap s !! id)
  end.

(** ** Outcomes and frames *)

(** The state a call leaves behind, whether it returned or threw. *)
Definition state_of {A} (c : completion A) : MyTableJs :=
  match c with Return _ s => s | Throw s => s end.

Definition returns {A} (c : completion A) : Prop :=
  match c with Return _ _ => True | Throw _ => False end.

(** [s'] differs from [s] at most in what is drawn on screen. *)
Definition same_store (s s' : MyTableJs) : Prop :=
  idField s' = idField s ∧ pagination s' = pagination s
  ∧ rowMap s' = rowMap s ∧ order s' = order s
  ∧ filteredOrder s' = filteredOrder s ∧ rowIdCounter s' = rowIdCounter s
  ∧ thead s' = thead s ∧ tableHasThead s' = tableHasThead s
  ∧ template s' = template s.

(** [s'] differs from [s] at most in what is drawn and in the current
    page. *)
Definition same_rows (s s' : MyTableJs) : Prop :=
  idField s' = idField s ∧ rowMap s' = rowMap s ∧ order s' = order s
  ∧ filteredOrder s' = filteredOrder s ∧ rowIdCounter s' = rowIdCounter s
  ∧ thead s' = thead s ∧ tableHasThead s' = tableHasThead s
  ∧ template s' = template s.

(** The loop of [setData] as a fold, and the state before the redraw. *)
Definition ingestAll (rows : list row) (s : MyTableJs) : MyTableJs :=
  fold_left (λ s r, ingest r s) rows s.

Definition loaded (rows : list row) (keepFilters : bool) (s : MyTableJs)
    : MyTableJs :=
  let s := ingestAll rows s in
  if keepFilters then s else set_filteredOrder (order s) s.

(** ** Invariants of the row store *)

(** The invariant of the data model: [order] has no duplicates, every id
    of [order] and of [filteredOrder] is a key of [rowMap], and
    [filteredOrder] is a subsequence of [order] without duplicates. *)
Record invariant (s : MyTableJs) : Prop := {
  inv_order_nodup : NoDup (order s);
  inv_order_keys : Forall (λ id, is_Some (rowMap s !! id)) (order s);
  inv_filtered_keys : Forall (λ id, is_Some (rowMap s !! id)) (filteredOrder s);
  inv_sublist : filteredOrder s `sublist_of` order s;
  inv_filtered_nodup : NoDup (filteredOrder s)
}.

(** Every stored row carries its key in its [id] property. *)
Definition ids_stamped (s : MyTableJs) : Prop :=
  ∀ k r, rowMap s !! k = Some r → r !! "id" = Some (VNumber (Int k)).

(** All keys are positive and the counter is not negative. *)
Definition positive_ids (s : MyTableJs) : Prop :=
  0 ≤ rowIdCounter s ∧ ∀ k, is_Some (rowMap s !! k) → 0 < k.

(** The id value a record carries: [row.id || row[this.options.idField]]. *)
Definition id_value (r : row) (s : MyTableJs) : jsval :=
  js_or (prop r "id") (prop r (idFieldKey s)).

(** The id value of the record is read exactly by [Number]: it is no
    string, or a string within [Str.exact]. *)
Definition exact_id (s : MyTableJs) (r : row) : Prop :=
  exactly_read (id_value r s) = true.

(** The counter is below [2^53] in magnitude: the next value is exact. *)
Definition safe_counter (s : MyTableJs) : Prop :=
  Z.abs (rowIdCounter s) < 2 ^ 53.

(** The record does not carry a negative id. *)
Definition no_negative_id (s : MyTableJs) (r : row) : Prop :=
  match Number (id_value r s) with Int z => 0 ≤ z | NaN => True end.

(** The record carries no id: neither [id] nor the property named by
    [options.idField] is present. *)
Definition anonymous (s : MyTableJs) (r : row) : Prop :=
  r !! "id" = None ∧ r !! idFieldKey s = None.

(** The counter is the greatest key, or 0 when there is no row. *)
Definition counter_is_max (s : MyTableJs) : Prop :=
  (rowMap s = ∅ ∧ rowIdCounter s = 0)
  ∨ (is_Some (rowMap s !! rowIdCounter s)
     ∧ ∀ k, is_Some (rowMap s !! k) → k ≤ rowIdCounter s).

(** The row object [setData] stores for a record: [row.id = id]. *)
Definition stamp (id : Z) (r : row) : row := <["id" := VNumber (Int id)]> r.

(** No key exceeds the counter, and the ids of both arrays are keys: the
    next counter value is then unused. *)
Definition counter_bounds (s : MyTableJs) : Prop :=
  (∀ k, is_Some (rowMap s !! k) → k ≤ rowIdCounter s)
  ∧ Forall (λ id, is_Some (rowMap s !! id)) (order s)
  ∧ Forall (λ id, is_Some (rowMap s !! id)) (filteredOrder s).

(** ** The filter rule in the words of the specification *)

Module FilterSpec.

(** *** Letter case *)

(** The letters, in upper and in lower case. *)
Definition letters : list (ascii * ascii) :=
  zip (list_ascii_of_string "ABCDEFGHIJKLMNOPQRSTUVWXYZ")
      (list_ascii_of_string "abcdefghijklmnopqrstuvwxyz").

(** Two characters are the same, up to the case of a letter. *)
Definition same_letter (a b : ascii) : Prop :=
  a = b ∨ (a, b) ∈ letters ∨ (b, a) ∈ letters.

(** Two strings are the same, up to the case of their letters. *)
Fixpoint ci_equal (s t : string) : Prop :=
  match s, t with
  | EmptyString, EmptyString => True
  | String a s', String b t' => same_letter a b ∧ ci_equal s' t'
  | _, _ => False
  end.

(** [w] occurs in [s] up to letter case. *)
Definition ci_substring (w s : string) : Prop :=
  ∃ pre mid post, s = pre +:+ mid +:+ post ∧ ci_equal mid w.

(** *** Tokens *)

(** White space: SPACE, TAB, LF, VT, FF and CR. *)
Definition white : list ascii :=
  [" "; "009"; "010"; "011"; "012"; "013"]%char.

Fixpoint blank (s : string) : Prop :=
  match s with
  | EmptyString => True
  | String c s' => c ∈ white ∧ blank s'
  end.

Fixpoint comma_free (s : string) : Prop :=
  match s with
  | EmptyString => True
  | String c s' => c ≠ ","%char ∧ comma_free s'
  end.

Definition first_char (s : string) : option ascii :=
  match s with EmptyString => None | String c _ => Some c end.

Fixpoint last_char (s : string) : option ascii :=
  match s with
  | EmptyString => None
  | String c EmptyString => Some c
  | String _ s' => last_char s'
  end.

(** [p] is one of the pieces the commas cut [v] into: it holds no comma,
    and what stands before it ends with a comma, what stands after it
    starts with one, unless there is nothing. *)
Definition piece (p v : string) : Prop :=
  comma_free p
  ∧ ∃ pre post,
      v = pre +:+ p +:+ post
      ∧ (pre = EmptyString ∨ last_char pre = Some ","%char)
      ∧ (post = EmptyString ∨ first_char post = Some ","%char).

(** [t] is [p] without the white space at its two ends. *)
Definition trimmed (t p : string) : Prop :=
  ∃ l r,
    p = l +:+ t +:+ r ∧ blank l ∧ blank r
    ∧ (∀ c, first_char t = Some c → c ∉ white)
    ∧ (∀ c, last_char t = Some c → c ∉ white).

(** [t] is a token of the value [v]: a piece of it, trimmed, and not
    empty. *)
Definition token (t v : string) : Prop :=
  t ≠ EmptyString ∧ ∃ p, piece p v ∧ trimmed t p.

(** The tokens as a list: the value split on commas, the pieces trimmed,
    the empty ones discarded. *)
Definition tokens (v : string) : list string :=
  List.filter (λ w, negb (Str.is_empty w)) (map Str.trim (Str.split v)).

(** *** Columns *)

(** The stringified column value; a column the row does not hold, or holds
    as [null] or [undefined], is the empty string. *)
Definition column_text (r : row) (col : string) : string :=
  match r !! col with
  | None | Some VUndefined | Some VNull => EmptyString
  | Some v => String_ v
  end.

(** *** The rule *)

(** An entry matches a row when some token of its value is found in the
    column, up to letter case. *)
Definition entry_matches (r : row) (f : FilterEntry) : Prop :=
  ∃ t, token t (value f) ∧ ci_substring t (column_text r (column f)).

(** The entries of one mode, those with an empty value left out. *)
Definition group (m : string) (filters : list FilterEntry)
    : list FilterEntry :=
  List.filter (λ f, negb (Str.is_empty (value f)) && String.eqb (mode f) m)
    filters.

Definition included (r : row) (filters : list FilterEntry) : Prop :=
  (group "AND" filters = [] ∨ Forall (entry_matches r) (group "AND" filters))
  ∧ (group "OR" filters = [] ∨ Exists (entry_matches r) (group "OR" filters))
  ∧ (group "NOT" filters = []
     ∨ Forall (λ f, ¬ entry_matches r f) (group "NOT" filters)).

(** The ids the filter pass has to keep. *)
Definition kept (rows : gmap Z row) (filters : list FilterEntry) (id : Z)
    : Prop :=
  ∃ r, rows !! id = Some r ∧ included r filters.

End FilterSpec.

(** *** The text the rule is read on *)

(** A value whose text is read here as the code reads it: a string of
    ASCII text, an integer up to [2^53], whose [String] is its decimal
    numeral, or another primitive value. *)
Definition plain_value (v : jsval) : bool :=
  match v with
  | VString t => Str.ascii_text t
  | VNumber (Int z) => Str.safe z
  | _ => true
  end.



(** ** The rest of the class *)

(** *** Page navigation *)

(** [nextPage()] and [prevPage()] call [setPage(this.pagination.page ± 1)].
    While no page is stored the sum is [NaN], and [setPage(NaN)] stores
    [NaN]: that outcome lies outside the numbers of a [Pagination] and is
    marked as such. *)
Inductive navigation :=
  | Navigated (c : completion unit)
  | PageIsNaN.

Definition navigate (step : Z) (s : MyTableJs) : navigation :=
  match pagination s with
  | None => Navigated (Throw s)
  | Some pg =>
      match page pg with
      | Some p => Navigated (setPage (p + step) s)
      | None => PageIsNaN
      end
  end.

Definition nextPage : MyTableJs → navigation := navigate 1.
Definition prevPage : MyTableJs → navigation := navigate (-1).

(** *** The pagination controls of the footer *)

(** What [#renderPagination()] appends to the list, in order. *)
Inductive control :=
  | PrevButton (disabled : bool)
  | PageButton (label : pages) (disabled : bool)
  | EllipsisSpan
  | NextButton (disabled : bool).

(** [this.pagination.page || 1] *)
Definition currentPage (pg : Pagination) : Z :=
  match page pg with
  | Some p => if p =? 0 then 1 else p
  | None => 1
  end.

(** [page === currentPage] for a button label. *)
Definition is_page (label : pages) (c : Z) : bool :=
  match label with Pages p => p =? c | InfinitePages => false end.

(** [addPageButton(page)] *)
Definition addPageButton (c : Z) (label : pages) : control :=
  PageButton label (is_page label c).

(** [Math.min(totalPages - 1, currentPage + 2)] *)
Definition window_end (total : pages) (c : Z) : Z :=
  match total with
  | Pages t => Z.min (t - 1) (c + 2)
  | InfinitePages => c + 2
  end.

(** [end < totalPages - 1] and [totalPages > 1] *)
Definition before_last (e : Z) (total : pages) : bool :=
  match total with Pages t => e <? t - 1 | InfinitePages => true end.

Definition more_than_one (total : pages) : bool :=
  match total with Pages t => 1 <? t | InfinitePages => true end.

Definition renderPagination : M (list control) :=
  let! totalPages := getTotalPages in
  let! pg := this_pagination in
  let c := currentPage pg in
  let start := Z.max 2 (c - 2) in
  let e := window_end totalPages c in
  ret ([PrevButton (c =? 1)]
       ++ [addPageButton c (Pages 1)]
       ++ (if 2 <? start then [EllipsisSpan] else [])
       ++ map (λ p, addPageButton c (Pages p)) (seqZ start (e - start + 1))
       ++ (if before_last e totalPages then [EllipsisSpan] else [])
       ++ (if more_than_one totalPages then [addPageButton c totalPages]
           else [])
       ++ [NextButton (is_page totalPages c)]).

(** The page numbers on the buttons of a control list, and the disabled
    ones among them. *)
Definition button_pages (l : list control) : list pages :=
  omap (λ x, match x with PageButton p _ => Some p | _ => None end) l.

Definition disabled_pages (l : list control) : list pages :=
  omap (λ x, match x with PageButton p true => Some p | _ => None end) l.

(** *** The delegated listeners of the body *)

(** Where a click landed: outside any [data-remove-row] control, or on one,
    with the [data-id] of the enclosing row element if there is one. *)
Inductive click_target :=
  | NoRemoveControl
  | RemoveControl (rowId : option string).

(** The click listener of [#addEventListeners]. *)
Definition onBodyClick (t : click_target) : M unit :=
  match t with
  | NoRemoveControl => ret tt
  | RemoveControl None => ret tt
  | RemoveControl (Some d) => removeRow (VString d) ;; ret tt
  end.

(** An [input], [select] or [textarea] of a row element: its
    [data-column], if it has one, and its value. *)
Record RowInput := { dataColumn : option string; elementValue : string }.

(** [o[k] = v] on an object literal: the key [__proto__] is an accessor
    of [Object.prototype], whose setter ignores what is neither an object
    nor [null], so that no property is created for it. *)
Definition assign (k : string) (v : jsval) (o : row) : row :=
  if String.eqb k "__proto__" then o else <[k := v]> o.

(** [newData[element.dataset.column] = element.value] over the elements,
    then [newData.rowType = 'updatedRow']. *)
Definition column_key (el : RowInput) : string :=
  match dataColumn el with Some c => c | None => "undefined" end.

Definition collect (els : list RowInput) : row :=
  <["rowType" := VString "updatedRow"]>
    (fold_left (λ newData el,
                  assign (column_key el) (VString (elementValue el)) newData)
       els ∅).

(** The input listener of [#addEventListeners]: [targetRow] is the row
    element around the edited control, with its [data-id] and its controls,
    if there is one. *)
Definition onBodyInput (targetRow : option (string * list RowInput)) : M unit :=
  match targetRow with
  | None => TypeError
  | Some (d, els) => updateRow (VString d) (collect els) false ;; ret tt
  end.

(** *** The input listener of the header *)

(** The listener [renderHeader] attaches: an input event on an element
    with a non-empty [data-search-column] filters by what the header's
    inputs hold. *)
Definition onHeaderInput (target : SearchInput) : M unit :=
  let! s := this in
  match thead s with
  | None => ret tt
  | Some h =>
      if Str.is_empty (searchColumn target) then ret tt
      else filterTable (headerFilters h) ;; ret tt
  end.

(** *** Finding a row by a property *)

(** [a === b] on primitive values. *)
Definition strict_eq (a b : jsval) : bool :=
  match a, b with
  | VUndefined, VUndefined => true
  | VNull, VNull => true
  | VBool x, VBool y => Bool.eqb x y
  | VNumber (Int x), VNumber (Int y) => x =? y
  | VString x, VString y => String.eqb x y
  | _, _ => false
  end.

(** [findRowByKey(key, value)]: the first row in the iteration order of
    the [Map] whose property is strictly equal to the value, or [null].
    The order in which [rowMap.values()] yields the rows is a parameter. *)
Definition findRowByKey (iteration : list Z) (key : string) (v : jsval)
    : M (option row) :=
  let! s := this in
  ret (List.find (λ r, strict_eq (prop r key) v)
         (omap (λ id, rowMap s !! id) iteration)).

(** An iteration order of the map: each key once. *)
Definition iterates (iteration : list Z) (s : MyTableJs) : Prop :=
  NoDup iteration ∧ ∀ k, k ∈ iteration ↔ is_Some (rowMap s !! k).

(** *** What a redraw shows *)

(** The ids [#renderTable] draws: the current page when pagination is
    configured, all of [filteredOrder] otherwise. *)
Definition visible (s : MyTableJs) : list Z :=
  match pagination s with
  | Some pg =>
      let p := default 1 (page pg) in
      slice (filteredOrder s) ((p - 1) * perPage pg)
        ((p - 1) * perPage pg + perPage pg)
  | None => filteredOrder s
  end.

(** The ids on page [p] for a page size [n]. *)
Definition page_slice (l : list Z) (n p : Z) : list Z :=
  slice l ((p - 1) * n) ((p - 1) * n + n).

(** The rows a redraw puts in the body, by their [data-id]. *)
Definition drawn (s : MyTableJs) : list string :=
  omap (λ id, renderRow s <$> rowMap s !! id) (visible s).

(** *** Decimal numerals *)

(** The value of a decimal numeral read from the left with an
    accumulator, as [digits] reads it. *)
Fixpoint uint_value (acc : Z) (d : Decimal.uint) : Z :=
  match d with
  | Decimal.Nil => acc
  | Decimal.D0 d => uint_value (10 * acc) d
  | Decimal.D1 d => uint_value (10 * acc + 1) d
  | Decimal.D2 d => uint_value (10 * acc + 2) d
  | Decimal.D3 d => uint_value (10 * acc + 3) d
  | Decimal.D4 d => uint_value (10 * acc + 4) d
  | Decimal.D5 d => uint_value (10 * acc + 5) d
  | Decimal.D6 d => uint_value (10 * acc + 6) d
  | Decimal.D7 d => uint_value (10 * acc + 7) d
  | Decimal.D8 d => uint_value (10 * acc + 8) d
  | Decimal.D9 d => uint_value (10 * acc + 9) d
  end.

(** A string without white space is its own trim. *)
Fixpoint no_space (s : string) : bool :=
  match s with
  | EmptyString => true
  | String c s' => negb (Str.is_space c) && no_space s'
  end.


(** *** Filter entries that take no part *)

(** Entries without a value or with an unknown mode are in no group. *)
Definition idle (f : FilterEntry) : Prop :=
  Str.is_empty (value f) = true
  ∨ (mode f ≠ "AND" ∧ mode f ≠ "OR" ∧ mode f ≠ "NOT").

(** *** Rows and their place in [order] *)

(** Every stored row is listed in [order]. *)
Definition listed (s : MyTableJs) : Prop :=
  ∀ k, is_Some (rowMap s !! k) → k ∈ order s.

(** *** The screen and the store *)

(** The body shows what a redraw would show: the [data-id]s of the visible
    ids, in order. *)
Definition in_sync (s : MyTableJs) : Prop :=
  tbody s = map Str.ofZ (visible s).

(** The keys are integers up to [2^53], whose [String] is the decimal
    numeral. *)
Definition safe_keys (s : MyTableJs) : Prop :=
  ∀ k, is_Some (rowMap s !! k) → Str.safe k = true.

(** The template leaves the [data-id] of every row to the widget. *)
Definition unmarked_rows (s : MyTableJs) : Prop :=
  ∀ r, template s r = None ∨ template s r = Some "".

(** A store that satisfies its invariant and stamps its rows. *)
Definition sound (s : MyTableJs) : Prop := invariant s ∧ ids_stamped s.

(** *** Reading a control list *)

(** The number of ellipsis marks in a control list. *)
Definition ellipses (l : list control) : nat :=
  length (List.filter (λ x, match x with EllipsisSpan => true | _ => false end) l).

Definition one_if (b : bool) : nat := if b then 1%nat else 0%nat.

(** The page numbers the footer shows for a current page [c] of [t]. *)
Definition shown_pages (c t : Z) : list Z :=
  [1] ++ seqZ (Z.max 2 (c - 2)) (Z.min (t - 1) (c + 2) - Z.max 2 (c - 2) + 1)
      ++ (if 1 <? t then [t] else []).

(** Every character. *)
Definition all_ascii : list ascii := map ascii_of_nat (seq 0 256).

(** [t] occurs in [s] as it is, with the case of its letters. *)
Definition occurs (t s : string) : Prop := ∃ pre post, s = pre +:+ t +:+ post.

(** * Properties *)

(** ** The string model on examples *)

Example toNumber_examples :
  map Str.toNumber [""; "  "; "42"; " 7 "; "-3"; "+5"; "abc"; "-"; "1x"]
  = [Int 0; Int 0; Int 42; Int 7; Int (-3); Int 5; NaN; NaN; NaN]
  ∧ map Str.toNumber ["1.0"; "1e3"; "0x10"; "0b101"; "-2.50e1"; ".5e1"; "012"]
    = [Int 1; Int 1000; Int 16; Int 5; Int (-25); Int 5; Int 12]
  ∧ map Str.toNumber ["-0x10"; "1e"; "."; "0x"; "1_000"; "12px"; "infinity"]
    = [NaN; NaN; NaN; NaN; NaN; NaN; NaN].
Proof. repeat split. Qed.

(** Numerals that denote no integer up to [2^53] are marked as read
    inexactly: [toNumber] does not give the number of the code for them. *)
Example exact_examples :
  map Str.exact ["7"; "1e3"; "n/a"; ""; "9007199254740992"]
  = [true; true; true; true; true]
  ∧ map Str.exact ["1.5"; "Infinity"; "1e-2"; "9007199254740993"; "1e400"]
    = [false; false; false; false; false].
Proof. split; vm_compute; reflexivity. Qed.

Example split_examples :
  Str.split "red, blue,,x" = ["red"; " blue"; ""; "x"]
  ∧ Str.split "" = [""] ∧ Str.split "," = [""; ""].
Proof. repeat split. Qed.

Example trim_examples :
  map Str.trim [" a b  "; "   "; "x"] = ["a b"; ""; "x"].
Proof. reflexivity. Qed.

(** ** Strings *)

Section StringFacts.

Import Str.

Lemma append_nil_l s : EmptyString +:+ s = s.
Proof. reflexivity. Qed.

Lemma append_cons c s t : String c s +:+ t = String c (s +:+ t).
Proof. reflexivity. Qed.

Lemma lower_char_comma c :
  Ascii.eqb (lower_char c) comma = Ascii.eqb c comma.
Proof. destruct c as [[] [] [] [] [] [] [] []]; reflexivity. Qed.

Lemma lower_char_space c : is_space (lower_char c) = is_space c.
Proof. destruct c as [[] [] [] [] [] [] [] []]; reflexivity. Qed.

Lemma toLowerCase_is_empty s : is_empty (toLowerCase s) = is_empty s.
Proof. destruct s; reflexivity. Qed.

Lemma toLowerCase_app s t :
  toLowerCase (s +:+ t) = toLowerCase s +:+ toLowerCase t.
Proof. induction s as [|c s IH]; simpl; [done | by rewrite IH]. Qed.

(** A split of the lower-cased string comes from a split of the string. *)
Lemma toLowerCase_app_inv a b s :
  toLowerCase s = a +:+ b →
  ∃ a0 b0, s = a0 +:+ b0 ∧ toLowerCase a0 = a ∧ toLowerCase b0 = b.
Proof.
  revert s. induction a as [|c a IH]; intros s H.
  - exists EmptyString, s. done.
  - destruct s as [|d s]; simpl in H; [discriminate|].
    injection H as Hc Hs. destruct (IH _ Hs) as (a0 & b0 & -> & Ha & Hb).
    exists (String d a0), b0. simpl. by rewrite Hc, Ha, Hb.
Qed.

Lemma toLowerCase_split s :
  split (toLowerCase s) = map toLowerCase (split s).
Proof.
  induction s as [|c s IH]; simpl; [done|].
  rewrite lower_char_comma. destruct (Ascii.eqb c comma).
  - by rewrite IH.
  - rewrite IH. by destruct (split s).
Qed.

Lemma toLowerCase_trimStart s :
  trimStart (toLowerCase s) = toLowerCase (trimStart s).
Proof.
  induction s as [|c s IH]; simpl; [done|].
  rewrite lower_char_space. by destruct (is_space c).
Qed.

Lemma toLowerCase_trimEnd s :
  trimEnd (toLowerCase s) = toLowerCase (trimEnd s).
Proof.
  induction s as [|c s IH]; simpl; [done|].
  rewrite lower_char_space, IH, toLowerCase_is_empty.
  by destruct (is_space c && is_empty (trimEnd s)).
Qed.

Lemma toLowerCase_trim s : trim (toLowerCase s) = toLowerCase (trim s).
Proof. unfold trim. by rewrite toLowerCase_trimStart, toLowerCase_trimEnd. Qed.

Lemma prefix_spec w s :
  String.prefix w s = true ↔ ∃ post, s = w +:+ post.
Proof.
  revert s. induction w as [|c w IH]; intros s; simpl.
  - split; [intros _; by exists s | intros _; by destruct s].
  - destruct s as [|d s]; simpl.
    + split; [done | intros [post H]; discriminate].
    + destruct (ascii_dec c d) as [->|Hne].
      * rewrite IH. split; intros [post H]; exists post;
          rewrite append_cons in *; congruence.
      * split; [done | intros [post H]; rewrite append_cons in H; congruence].
Qed.

Lemma includes_nil w : includes EmptyString w = String.prefix w EmptyString.
Proof. simpl. apply orb_false_r. Qed.

Lemma includes_cons c s w :
  includes (String c s) w = String.prefix w (String c s) || includes s w.
Proof. reflexivity. Qed.

Lemma includes_spec s w :
  includes s w = true ↔ ∃ pre post, s = pre +:+ w +:+ post.
Proof.
  induction s as [|c s IH].
  - rewrite includes_nil, prefix_spec. split.
    + intros [post H]. by exists EmptyString, post.
    + intros (pre & post & H).
      destruct pre; [by exists post | discriminate].
  - rewrite includes_cons, orb_true_iff, prefix_spec, IH. split.
    + intros [[post H]|(pre & post & H)].
      * by exists EmptyString, post.
      * exists (String c pre), post. rewrite append_cons. by rewrite H.
    + intros (pre & post & H). destruct pre as [|d pre].
      * left. by exists post.
      * right. exists pre, post. rewrite append_cons in H. congruence.
Qed.

(** *** Letter case, character by character *)

Lemma all_ascii_complete a : a ∈ all_ascii.
Proof.
  rewrite <- (ascii_nat_embedding a). unfold all_ascii.
  apply list_elem_of_fmap. exists (nat_of_ascii a). split; [done|].
  apply elem_of_seq. pose proof (nat_ascii_bounded a). lia.
Qed.

Lemma same_letter_table :
  forallb (λ a, forallb (λ b,
     Bool.eqb (bool_decide (FilterSpec.same_letter a b))
              (Ascii.eqb (lower_char a) (lower_char b))) all_ascii) all_ascii
  = true.
Proof. vm_compute. reflexivity. Qed.

Lemma same_letter_lower a b :
  FilterSpec.same_letter a b ↔ lower_char a = lower_char b.
Proof.
  pose proof same_letter_table as H.
  rewrite forallb_forall in H.
  specialize (H a (proj1 (list_elem_of_In _ _) (all_ascii_complete a))).
  rewrite forallb_forall in H.
  specialize (H b (proj1 (list_elem_of_In _ _) (all_ascii_complete b))).
  apply Bool.eqb_prop in H. rewrite <- Ascii.eqb_eq, <- H.
  symmetry. apply bool_decide_eq_true.
Qed.

Lemma ci_equal_lower s t :
  FilterSpec.ci_equal s t ↔ toLowerCase s = toLowerCase t.
Proof.
  revert t. induction s as [|a s IH]; intros [|b t]; simpl; try done.
  rewrite same_letter_lower, IH. split.
  - by intros [-> ->].
  - intros H. by injection H.
Qed.

(** *** Pieces and tokens *)

Lemma append_nil_r (a : string) : a +:+ EmptyString = a.
Proof. induction a as [|x a IH]; [done|]. by rewrite append_cons, IH. Qed.

Lemma append_assoc (a b c : string) : (a +:+ b) +:+ c = a +:+ b +:+ c.
Proof.
  induction a as [|x a IH]; [done|]. rewrite !append_cons. by rewrite IH.
Qed.

Lemma is_space_table :
  forallb (λ c, Bool.eqb (is_space c) (bool_decide (c ∈ FilterSpec.white)))
    all_ascii = true.
Proof. vm_compute. reflexivity. Qed.

Lemma is_space_white c : is_space c = true ↔ c ∈ FilterSpec.white.
Proof.
  pose proof is_space_table as H. rewrite forallb_forall in H.
  specialize (H c (proj1 (list_elem_of_In _ _) (all_ascii_complete c))).
  apply Bool.eqb_prop in H. rewrite H. apply bool_decide_eq_true.
Qed.

Lemma is_space_not_white c : is_space c = false ↔ c ∉ FilterSpec.white.
Proof. rewrite <- is_space_white. by destruct (is_space c). Qed.

Lemma comma_neq c : Ascii.eqb c comma = false ↔ c ≠ ","%char.
Proof. apply Ascii.eqb_neq. Qed.

Lemma split_nonempty s : split s ≠ [].
Proof.
  destruct s as [|c s]; simpl; [done|].
  destruct (Ascii.eqb c comma); [done|]. by destruct (split s).
Qed.

Lemma split_comma_free p : FilterSpec.comma_free p → split p = [p].
Proof.
  induction p as [|c p IH]; simpl; [done|]. intros [Hc Hp].
  apply comma_neq in Hc. by rewrite Hc, (IH Hp).
Qed.

Lemma split_app_free p w :
  FilterSpec.comma_free p → split (p +:+ String comma w) = p :: split w.
Proof.
  induction p as [|c p IH]; intros Hp.
  - by rewrite append_nil_l.
  - destruct Hp as [Hc Hp]. rewrite append_cons. simpl.
    apply comma_neq in Hc. by rewrite Hc, (IH Hp).
Qed.

Lemma split_app a b : split (a +:+ String comma b) = split a ++ split b.
Proof.
  induction a as [|c a IH].
  - by rewrite append_nil_l.
  - rewrite append_cons. simpl. rewrite IH.
    destruct (Ascii.eqb c comma); [done|].
    pose proof (split_nonempty a). by destruct (split a).
Qed.

Lemma last_char_cons c s :
  s ≠ EmptyString → FilterSpec.last_char (String c s) = FilterSpec.last_char s.
Proof. by destruct s. Qed.

Lemma last_char_is_Some s c :
  FilterSpec.last_char s = Some c → s ≠ EmptyString.
Proof. by destruct s. Qed.

Lemma last_char_inv s c :
  FilterSpec.last_char s = Some c → ∃ s', s = s' +:+ String c EmptyString.
Proof.
  induction s as [|d s IH]; [done|]. destruct s as [|e s].
  - intros [= ->]. by exists EmptyString.
  - intros H. rewrite last_char_cons in H by done.
    destruct (IH H) as (s' & ->). exists (String d s').
    by rewrite append_cons.
Qed.

Lemma first_char_inv s c :
  FilterSpec.first_char s = Some c → ∃ s', s = String c s'.
Proof. destruct s as [|d s]; [done|]. intros [= ->]. by exists s. Qed.

(** The first piece is a prefix, each later one follows a comma. *)
Lemma split_shape v :
  ∃ h t, split v = h :: t
    ∧ FilterSpec.comma_free h
    ∧ (∃ post, v = h +:+ post
               ∧ (post = EmptyString
                  ∨ FilterSpec.first_char post = Some ","%char))
    ∧ ∀ p, In p t →
        FilterSpec.comma_free p
        ∧ ∃ pre post,
            v = pre +:+ p +:+ post
            ∧ FilterSpec.last_char pre = Some ","%char
            ∧ (post = EmptyString
               ∨ FilterSpec.first_char post = Some ","%char).
Proof.
  induction v as [|c v (h & t & Hs & Hh & (post & Hv & Hpost) & Ht)]; simpl.
  { exists EmptyString, []. split; [done|]. split; [done|].
    split; [by exists EmptyString; split; [|left]|]. by intros p []. }
  assert (∀ p, In p t →
            FilterSpec.comma_free p
            ∧ ∃ pre post0,
                String c v = pre +:+ p +:+ post0
                ∧ FilterSpec.last_char pre = Some ","%char
                ∧ (post0 = EmptyString
                   ∨ FilterSpec.first_char post0 = Some ","%char)) as Ht'.
  { intros p Hp. destruct (Ht p Hp) as (Hcf & pre & post0 & Hv' & Hl & Hp0).
    split; [done|]. exists (String c pre), post0.
    rewrite append_cons, <- Hv'. split; [done|]. split; [|done].
    rewrite last_char_cons; [done|]. by eapply last_char_is_Some. }
  destruct (Ascii.eqb_spec c comma) as [->|Hne].
  - exists EmptyString, (h :: t). rewrite Hs. split; [done|]. split; [done|].
    split. { exists (String comma v). split; [done|]. by right. }
    intros p [<-|Hp]; [|by apply Ht'].
    split; [done|]. exists (String comma EmptyString), post.
    rewrite append_cons, append_nil_l, <- Hv. by repeat split.
  - exists (String c h), t. rewrite Hs. split; [done|].
    split; [by split|].
    split; [|done]. exists post. by rewrite append_cons, <- Hv.
Qed.

Lemma split_piece p v : In p (split v) ↔ FilterSpec.piece p v.
Proof.
  split.
  - destruct (split_shape v) as (h & t & -> & Hh & (post & Hv & Hpost) & Ht).
    intros [<-|Hp].
    + split; [done|]. exists EmptyString, post.
      rewrite append_nil_l. split; [done|]. split; [by left | done].
    + destruct (Ht p Hp) as (Hcf & pre & post0 & Hv' & Hl & Hp0).
      split; [done|]. exists pre, post0. split; [done|]. split; [by right|done].
  - intros [Hp (pre & post & -> & Hpre & Hpost)].
    assert (In p (split (p +:+ post))) as Hhead.
    { destruct Hpost as [->|(post' & ->)%first_char_inv].
      - rewrite append_nil_r, split_comma_free by done. by left.
      - rewrite split_app_free by done. by left. }
    destruct Hpre as [->|(pre' & ->)%last_char_inv].
    + by rewrite append_nil_l.
    + rewrite append_assoc, append_cons, append_nil_l, split_app.
      apply in_or_app. by right.
Qed.

Lemma trimStart_spec s :
  ∃ l, s = l +:+ trimStart s ∧ FilterSpec.blank l
       ∧ ∀ c, FilterSpec.first_char (trimStart s) = Some c →
              c ∉ FilterSpec.white.
Proof.
  induction s as [|c s (l & Hs & Hl & Hf)]; simpl.
  { exists EmptyString. by repeat split. }
  destruct (is_space c) eqn:Hc.
  - exists (String c l). rewrite append_cons, <- Hs.
    split; [done|]. split; [|done]. split; [by apply is_space_white | done].
  - exists EmptyString. split; [done|]. split; [done|].
    intros d [= <-]. by apply is_space_not_white.
Qed.

Lemma trimEnd_spec s :
  ∃ r, s = trimEnd s +:+ r ∧ FilterSpec.blank r
       ∧ (∀ c, FilterSpec.last_char (trimEnd s) = Some c →
               c ∉ FilterSpec.white)
       ∧ (trimEnd s = EmptyString
          ∨ FilterSpec.first_char (trimEnd s) = FilterSpec.first_char s).
Proof.
  induction s as [|c s (r & Hs & Hr & Hl & Hf)]; simpl.
  { exists EmptyString. by repeat split; [|left]. }
  destruct (is_space c) eqn:Hc; simpl.
  - destruct (trimEnd s) as [|d t] eqn:Ht; simpl.
    + exists (String c r). rewrite append_nil_l in Hs. subst r.
      rewrite append_nil_l.
      split; [done|]. split; [split; [by apply is_space_white | done]|].
      split; [done | by left].
    + exists r. rewrite append_cons, <- Hs. split; [done|]. split; [done|].
      split; [|by right]. intros e He. apply Hl. exact He.
  - exists r. rewrite append_cons, <- Hs. split; [done|]. split; [done|].
    split; [|by right]. intros e He.
    destruct (trimEnd s) as [|d t] eqn:Ht.
    + injection He as <-. by apply is_space_not_white.
    + apply Hl. exact He.
Qed.

Lemma trimStart_blank l s : FilterSpec.blank l → trimStart (l +:+ s) = trimStart s.
Proof.
  induction l as [|c l IH]; [done|]. intros [Hc Hl].
  rewrite append_cons. simpl. apply is_space_white in Hc. rewrite Hc.
  by apply IH.
Qed.

Lemma trimStart_fixed s :
  (∀ c, FilterSpec.first_char s = Some c → c ∉ FilterSpec.white) →
  trimStart s = s.
Proof.
  destruct s as [|c s]; [done|]. intros H. simpl.
  specialize (H c eq_refl). apply is_space_not_white in H. by rewrite H.
Qed.

Lemma trimEnd_blank r : FilterSpec.blank r → trimEnd r = EmptyString.
Proof.
  induction r as [|c r IH]; [done|]. intros [Hc Hr]. simpl.
  apply is_space_white in Hc. by rewrite Hc, (IH Hr).
Qed.

Lemma trimEnd_app_blank t r :
  FilterSpec.blank r → trimEnd (t +:+ r) = trimEnd t.
Proof.
  intros Hr. induction t as [|c t IH].
  - rewrite append_nil_l. by apply trimEnd_blank.
  - rewrite append_cons. simpl. by rewrite IH.
Qed.

Lemma trimEnd_fixed t :
  (∀ c, FilterSpec.last_char t = Some c → c ∉ FilterSpec.white) →
  trimEnd t = t.
Proof.
  induction t as [|c t IH]; [done|]. intros H. simpl.
  destruct t as [|d t].
  - simpl. specialize (H c eq_refl). apply is_space_not_white in H.
    by rewrite H.
  - rewrite IH.
    + by rewrite andb_false_r.
    + intros e He. apply H. by rewrite last_char_cons.
Qed.

Lemma trim_trimmed p t : trim p = t ↔ FilterSpec.trimmed t p.
Proof.
  unfold trim. split.
  - intros <-. destruct (trimStart_spec p) as (l & Hp & Hl & Hf).
    destruct (trimEnd_spec (trimStart p)) as (r & Hq & Hr & Hlast & Hfirst).
    exists l, r. split; [by rewrite <- Hq|]. split; [done|]. split; [done|].
    split; [|done]. destruct Hfirst as [-> | ->]; [done | done].
  - intros (l & r & -> & Hl & Hr & Hf & Hlast).
    rewrite trimStart_blank by done. destruct t as [|c t].
    + rewrite append_nil_l.
      assert (trimStart r = EmptyString) as ->; [|done].
      destruct (trimStart_spec r) as (l' & Hr' & _ & Hf').
      destruct (trimStart r) as [|d q]; [done|]. exfalso.
      apply (Hf' d eq_refl). clear -Hr Hr'. revert r Hr Hr'.
      induction l' as [|e l' IH]; intros r Hr Hr'.
      * rewrite append_nil_l in Hr'. subst r. by destruct Hr.
      * rewrite append_cons in Hr'. subst r. destruct Hr as [_ Hr].
        by eapply IH.
    + rewrite trimStart_fixed.
      * rewrite trimEnd_app_blank by done. by apply trimEnd_fixed.
      * rewrite append_cons. apply Hf.
Qed.

Lemma tokens_spec t v : In t (FilterSpec.tokens v) ↔ FilterSpec.token t v.
Proof.
  unfold FilterSpec.tokens, FilterSpec.token.
  rewrite filter_In, in_map_iff. split.
  - intros [(p & Hp & Hin) Hne]. split; [by intros ->|].
    exists p. split; [by apply split_piece | by apply trim_trimmed].
  - intros [Hne (p & Hp & Ht)]. split; [|by destruct t].
    exists p. split; [by apply trim_trimmed | by apply split_piece].
Qed.

Lemma column_text_prop r col :
  FilterSpec.column_text r col
  = String_ (js_coalesce (prop r col) (VString "")).
Proof.
  unfold FilterSpec.column_text, prop.
  by destruct (r !! col) as [[]|].
Qed.

(** Looking for the lower-cased word in the lower-cased text is the
    search up to letter case. *)
Lemma includes_lower s w :
  includes (toLowerCase s) (toLowerCase w) = true
  ↔ FilterSpec.ci_substring w s.
Proof.
  rewrite includes_spec. unfold FilterSpec.ci_substring. split.
  - intros (pre & post & H).
    apply toLowerCase_app_inv in H as (a0 & b0 & -> & Ha & Hb).
    apply toLowerCase_app_inv in Hb as (m0 & p0 & -> & Hm & Hp).
    exists a0, m0, p0. split; [done|]. by apply ci_equal_lower.
  - intros (pre & mid & post & -> & Hm%ci_equal_lower).
    exists (toLowerCase pre), (toLowerCase post).
    by rewrite !toLowerCase_app, Hm.
Qed.

Lemma words_tokens v : words v = map toLowerCase (FilterSpec.tokens v).
Proof.
  unfold words, FilterSpec.tokens. rewrite toLowerCase_split, map_map.
  induction (split v) as [|t l IH]; simpl; [done|].
  rewrite toLowerCase_trim, toLowerCase_is_empty, IH.
  by destruct (is_empty (trim t)).
Qed.

End StringFacts.

(** ** Running the methods *)

(** Unfolds the plumbing of [M] and reduces the binds it exposes. *)
Ltac run_M :=
  cbv [bind ret modify this TypeError this_pagination this_thead].

Section Running.

Lemma same_store_rows s s' : same_store s s' → same_rows s s'.
Proof. intros (?&?&?&?&?&?&?&?&?). by repeat split. Qed.

Lemma same_rows_trans s1 s2 s3 :
  same_rows s1 s2 → same_rows s2 s3 → same_rows s1 s3.
Proof.
  intros (?&?&?&?&?&?&?&?) (?&?&?&?&?&?&?&?). repeat split; congruence.
Qed.

(** Drawing the table never throws and never touches the store. *)
Lemma renderTable_returns s :
  ∃ frag s', renderTable s = Return frag s' ∧ same_store s s'.
Proof.
  unfold renderTable, bind, modify, this. simpl.
  destruct (pagination s) as [pg|] eqn:Hpg.
  - unfold getPaginatedOrder, bind, this_pagination, bind, this, ret.
    simpl. rewrite Hpg. simpl.
    unfold addEventListeners, bind, this, modify, ret. simpl.
    destruct (eventListenersAdded s); simpl;
      eexists _, _; (split; [reflexivity|]); by repeat split.
  - unfold ret at 1. simpl.
    unfold addEventListeners, bind, this, modify, ret. simpl.
    destruct (eventListenersAdded s); simpl;
      eexists _, _; (split; [reflexivity|]); by repeat split.
Qed.

Lemma getTotalPages_run s pg :
  pagination s = Some pg →
  getTotalPages s
  = Return (or_one (Math_ceil_div (length (filteredOrder s)) (perPage pg))) s.
Proof.
  intros H. unfold getTotalPages, bind, this, this_pagination, bind, this.
  by rewrite H.
Qed.

Lemma getTotalPages_throws s :
  pagination s = None → getTotalPages s = Throw s.
Proof.
  intros H. unfold getTotalPages, bind, this, this_pagination, bind, this.
  by rewrite H.
Qed.

Lemma getPaginatedOrder_run s pg :
  pagination s = Some pg →
  getPaginatedOrder s
  = Return (slice (filteredOrder s)
              ((default 1 (page pg) - 1) * perPage pg)
              ((default 1 (page pg) - 1) * perPage pg + perPage pg)) s.
Proof.
  intros H. unfold getPaginatedOrder. run_M. rewrite H.
  by destruct (page pg).
Qed.

(** With pagination configured [setPage] stores the clamped page and
    redraws. *)
Lemma setPage_run n s pg :
  pagination s = Some pg →
  ∃ s', setPage n s = Return tt s'
        ∧ pagination s'
          = Some {| page :=
                      Some (clamp_page n
                              (or_one (Math_ceil_div
                                         (length (filteredOrder s))
                                         (perPage pg))));
                    perPage := perPage pg |}
        ∧ same_rows s s'.
Proof.
  intros H. unfold setPage. run_M.
  rewrite (getTotalPages_run _ _ H), H.
  match goal with |- context [renderTable ?t] =>
    destruct (renderTable_returns t) as (frag & s' & Hr & Hs) end.
  rewrite Hr. exists s'. split; [done|].
  destruct Hs as (?&?&?&?&?&?&?&?&?). by repeat split.
Qed.

Lemma setPage_throws n s :
  pagination s = None → setPage n s = Throw s.
Proof.
  intros H. unfold setPage. run_M. by rewrite (getTotalPages_throws _ H).
Qed.

End Running.

(** ** C1: the filter pass *)

Section FilterPass.

Import FilterSpec.

Lemma list_filter_sublist {A} (p : A → bool) (l : list A) :
  List.filter p l `sublist_of` l.
Proof.
  induction l as [|x l IH]; simpl; [constructor|].
  destruct (p x); by constructor.
Qed.

Lemma list_filter_elem_of {A} (p : A → bool) (l : list A) x :
  x ∈ List.filter p l ↔ x ∈ l ∧ p x = true.
Proof. rewrite !list_elem_of_In. apply filter_In. Qed.

(** The boolean the loop computes for an entry is the match of the
    specification. *)
Lemma matches_spec r f :
  matches r (column f) (value f) = true ↔ entry_matches r f.
Proof.
  unfold matches, entry_matches. rewrite existsb_exists, words_tokens.
  rewrite <- column_text_prop. split.
  - intros (w & Hw & Hin). apply in_map_iff in Hw as (t & <- & Ht).
    exists t. split; [by apply tokens_spec|]. by apply includes_lower.
  - intros (t & Ht%tokens_spec & Hci). exists (Str.toLowerCase t). split.
    + by apply in_map.
    + by apply includes_lower.
Qed.

Lemma mode_eqb_other m m' s :
  String.eqb s m = true → m ≠ m' → String.eqb s m' = false.
Proof.
  intros H Hne. apply String.eqb_eq in H as ->.
  by apply String.eqb_neq.
Qed.

(** The loop sorts the matches of the entries with a value into the
    three arrays, by mode and in the order of the entries. *)
Lemma classify_fold r filters c :
  andConditions (fold_left (classify r) filters c)
  = andConditions c ++ map (matchb r) (group "AND" filters)
  ∧ orConditions (fold_left (classify r) filters c)
    = orConditions c ++ map (matchb r) (group "OR" filters)
  ∧ notConditions (fold_left (classify r) filters c)
    = notConditions c ++ map (λ f, negb (matchb r f)) (group "NOT" filters).
Proof.
  revert c. induction filters as [|f filters IH]; intros c; simpl.
  - by rewrite !app_nil_r.
  - destruct (IH (classify r c f)) as (Ha & Ho & Hn).
    rewrite Ha, Ho, Hn. clear IH Ha Ho Hn. unfold classify, push.
    destruct (Str.is_empty (value f)); simpl; [done|].
    destruct (String.eqb (mode f) "AND") eqn:Eand.
    { rewrite (mode_eqb_other _ "OR" _ Eand), (mode_eqb_other _ "NOT" _ Eand)
        by done.
      simpl. by rewrite <- app_assoc. }
    destruct (String.eqb (mode f) "OR") eqn:Eor.
    { rewrite (mode_eqb_other _ "NOT" _ Eor) by done.
      simpl. by rewrite <- app_assoc. }
    destruct (String.eqb (mode f) "NOT") eqn:Enot; simpl; [|done].
    by rewrite <- app_assoc.
Qed.

Lemma every_or_true_spec {A} (p : A → bool) (P : A → Prop) (g : list A) :
  (∀ x, p x = true ↔ P x) →
  every_or_true (map p g) = true ↔ g = [] ∨ Forall P g.
Proof.
  intros Hp. assert (forallb id (map p g) = true ↔ Forall P g) as Hall.
  { induction g as [|x g IH]; simpl.
    - split; [constructor | done].
    - rewrite andb_true_iff, IH, Forall_cons. by rewrite Hp. }
  destruct g as [|x g]; [simpl; split; auto|].
  change (every_or_true (map p (x :: g))) with (forallb id (map p (x :: g))).
  rewrite Hall. split; [by right | by intros [?|?]].
Qed.

Lemma some_or_true_spec {A} (p : A → bool) (P : A → Prop) (g : list A) :
  (∀ x, p x = true ↔ P x) →
  some_or_true (map p g) = true ↔ g = [] ∨ Exists P g.
Proof.
  intros Hp. assert (existsb id (map p g) = true ↔ Exists P g) as Hex.
  { induction g as [|x g IH]; simpl.
    - split; [done | by intros ?%Exists_nil].
    - rewrite orb_true_iff, IH, Exists_cons. by rewrite Hp. }
  destruct g as [|x g]; [simpl; split; auto|].
  change (some_or_true (map p (x :: g))) with (existsb id (map p (x :: g))).
  rewrite Hex. split; [by right | by intros [?|?]].
Qed.

(** The callback of [order.filter] decides the rule of the
    specification. *)
Lemma keep_id_spec rows filters id :
  keep_id rows filters id = true ↔ kept rows filters id.
Proof.
  unfold keep_id, kept. destruct (rows !! id) as [r|]; simpl.
  - match goal with |- context [fold_left ?f ?l ?c] =>
      destruct (classify_fold r filters c) as (Ha & Ho & Hn) end.
    rewrite Ha, Ho, Hn. simpl. rewrite !andb_true_iff.
    rewrite (every_or_true_spec _ (entry_matches r))
      by apply matches_spec.
    rewrite (some_or_true_spec _ (entry_matches r))
      by apply matches_spec.
    rewrite (every_or_true_spec _ (λ f, ¬ entry_matches r f)).
    2:{ intros f. rewrite negb_true_iff, <- not_true_iff_false.
        unfold matchb. by rewrite matches_spec. }
    unfold included. split.
    + intros [[? ?] ?]. by exists r.
    + intros (r' & [= <-] & ? & ? & ?). done.
  - split; [done | by intros (r & ? & _)].
Qed.

Lemma filterTable_run filters s :
  ∃ s', filterTable filters s
        = Return (List.filter (keep_id (rowMap s) filters) (order s)) s'
        ∧ same_rows
            (set_filteredOrder
               (List.filter (keep_id (rowMap s) filters) (order s)) s) s'.
Proof.
  unfold filterTable. run_M. simpl.
  set (s1 := set_filteredOrder _ s).
  destruct (pagination s) as [pg|] eqn:Hpg.
  - destruct (setPage_run 1 s1 pg Hpg) as (s2 & Hrun & _ & Hrows).
    rewrite Hrun.
    destruct (renderTable_returns s2) as (frag & s3 & Hr & Hs).
    rewrite Hr. exists s3.
    pose proof (same_rows_trans _ _ _ Hrows (same_store_rows _ _ Hs)) as H3.
    split; [|done]. destruct H3 as (_&_&_&->&_). done.
  - destruct (renderTable_returns s1) as (frag & s3 & Hr & Hs).
    rewrite Hr. exists s3.
    pose proof (same_store_rows _ _ Hs) as H3.
    split; [|done]. destruct H3 as (_&_&_&->&_). done.
Qed.

End FilterPass.


(** ** Integers as doubles *)

Section Doubles.

Lemma to_double_safe z : Z.abs z ≤ 2 ^ 53 → to_double z = z.
Proof.
  intros Hz. unfold to_double.
  destruct (decide (Z.abs z = 2 ^ 53)) as [He|Hne].
  - destruct (Z.abs_eq_or_opp z) as [H|H]; rewrite H in He.
    + subst z. reflexivity.
    + assert (z = - 2 ^ 53) as -> by lia. reflexivity.
  - assert ((Z.log2 (Z.abs z) - 52 <=? 0) = true) as ->; [|done].
    apply Z.leb_le. destruct (decide (Z.abs z = 0)) as [->|H0]; [done|].
    assert (Z.log2 (Z.abs z) < 53); [|lia].
    apply Z.log2_lt_pow2; lia.
Qed.

Lemma to_double_positive z : 0 < z → 0 < to_double z.
Proof.
  intros Hz. unfold to_double. rewrite Z.abs_eq, Z.sgn_pos by lia.
  destruct (Z.log2 z - 52 <=? 0) eqn:Hk; [done|].
  apply Z.leb_gt in Hk. set (k := Z.log2 z - 52) in *.
  assert (0 < 2 ^ k) as Hp by (apply Z.pow_pos_nonneg; lia).
  assert (2 ^ k ≤ z) as Hle.
  { transitivity (2 ^ Z.log2 z); [|apply Z.log2_spec; lia].
    apply Z.pow_le_mono_r; lia. }
  assert (1 ≤ z / 2 ^ k) as Hq.
  { apply Z.div_le_lower_bound; lia. }
  rewrite Z.mul_1_l.
  destruct ((2 ^ (k - 1) <? z mod 2 ^ k)
            || ((z mod 2 ^ k =? 2 ^ (k - 1)) && Z.odd (z / 2 ^ k))); nia.
Qed.

(** To the next counter value, as long as the counter is safe. *)
Lemma to_double_succ c : Z.abs c < 2 ^ 53 → to_double (c + 1) = c + 1.
Proof. intros Hc. apply to_double_safe. lia. Qed.

Lemma nextId_safe s :
  safe_counter s →
  nextId s = (rowIdCounter s + 1, set_rowIdCounter (rowIdCounter s + 1) s).
Proof. intros Hc. unfold nextId. by rewrite to_double_succ. Qed.

End Doubles.

(** Settles [own_name] for a given name. *)
Ltac own_name_tac :=
  let H := fresh in
  intros H;
  repeat (apply elem_of_cons in H as [H|H]; [discriminate H|]);
  by apply elem_of_nil in H.


(** ** Ingestion, one record at a time *)

Section Ingest.

Lemma arr_includes_spec l x : arr_includes l x = true ↔ x ∈ l.
Proof.
  unfold arr_includes. rewrite existsb_exists, list_elem_of_In. split.
  - intros (y & Hin & ->%Z.eqb_eq). done.
  - intros Hin. exists x. split; [done | apply Z.eqb_refl].
Qed.

Lemma arr_includes_false l x : arr_includes l x = false ↔ x ∉ l.
Proof. rewrite <- arr_includes_spec. by destruct (arr_includes l x). Qed.

(** Resolving an id touches nothing but the counter. *)
Lemma resolveId_cases r s :
  (∃ z, Number (id_value r s) = Int z ∧ z ≠ 0 ∧ resolveId r s = (z, s))
  ∨ (number_falsy (Number (id_value r s)) = true
     ∧ resolveId r s = nextId s).
Proof.
  unfold resolveId. fold (id_value r s).
  destruct (Number (id_value r s)) as [z|]; simpl.
  - destruct (Z.eqb_spec z 0) as [->|Hz]; [by right|].
    left. by exists z.
  - by right.
Qed.

Lemma resolveId_store r s :
  idField (resolveId r s).2 = idField s
  ∧ pagination (resolveId r s).2 = pagination s
  ∧ rowMap (resolveId r s).2 = rowMap s
  ∧ order (resolveId r s).2 = order s
  ∧ filteredOrder (resolveId r s).2 = filteredOrder s
  ∧ thead (resolveId r s).2 = thead s
  ∧ tableHasThead (resolveId r s).2 = tableHasThead s.
Proof.
  destruct (resolveId_cases r s) as [(z & _ & _ & ->)|[_ ->]];
    by repeat split.
Qed.

(** What one turn of the loop does to the store, by cases on the key. *)
Lemma ingest_existing r s id s1 old :
  resolveId r s = (id, s1) →
  rowMap s !! id = Some old →
  ingest r s
  = set_rowMap
      (<[id := spread2 old (<["id" := VNumber (Int id)]> r)]> (rowMap s1)) s1.
Proof.
  intros Hres Hold. unfold ingest. rewrite Hres.
  pose proof (resolveId_store r s) as (_ & _ & Hm & _).
  rewrite Hres in Hm. simpl in Hm. by rewrite Hm, Hold.
Qed.

Lemma ingest_fresh r s id s1 :
  resolveId r s = (id, s1) →
  rowMap s !! id = None →
  rowMap (ingest r s) = <[id := <["id" := VNumber (Int id)]> r]> (rowMap s)
  ∧ order (ingest r s)
    = (if arr_includes (order s) id then order s else order s ++ [id])
  ∧ filteredOrder (ingest r s)
    = (if arr_includes (filteredOrder s) id then filteredOrder s
       else filteredOrder s ++ [id])
  ∧ rowIdCounter (ingest r s) = rowIdCounter s1.
Proof.
  intros Hres Hnone. unfold ingest. rewrite Hres.
  pose proof (resolveId_store r s) as (_ & _ & Hm & Ho & Hf & _).
  rewrite Hres in Hm, Ho, Hf. simpl in Hm, Ho, Hf.
  rewrite Hm, Hnone. simpl. rewrite Ho. unfold push.
  destruct (arr_includes (order s) id); simpl; rewrite Hf;
    destruct (arr_includes (filteredOrder s) id); simpl;
    rewrite ?Ho, ?Hf; done.
Qed.

Lemma ingest_frame r s :
  idField (ingest r s) = idField s
  ∧ pagination (ingest r s) = pagination s
  ∧ thead (ingest r s) = thead s
  ∧ tableHasThead (ingest r s) = tableHasThead s
  ∧ rowIdCounter (ingest r s) = rowIdCounter (resolveId r s).2.
Proof.
  pose proof (resolveId_store r s) as (Hi & Hp & Hm & Ho & Hf & Ht & Hh).
  unfold ingest. destruct (resolveId r s) as [id s1]. simpl in *.
  destruct (rowMap s1 !! id); simpl; [done|].
  destruct (arr_includes (order s1) id); simpl;
    destruct (arr_includes (filteredOrder s1) id); simpl; done.
Qed.

End Ingest.

(** ** Running [setData] *)

Section SetData.

Lemma forEach_modify {A} (f : A → MyTableJs → MyTableJs) l s :
  forEach l (λ x, modify (f x)) s = Return tt (fold_left (λ s x, f x s) l s).
Proof.
  revert s. induction l as [|x l IH]; intros s; simpl; [done|].
  run_M. apply IH.
Qed.

Lemma Math_max_spec l :
  l ≠ [] → Math_max l ∈ l ∧ ∀ x, x ∈ l → x ≤ Math_max l.
Proof.
  destruct l as [|x l]; [done|]. intros _. simpl. clear.
  induction l as [|y l [IHin IHle]]; simpl.
  - split; [by left|]. intros z ->%list_elem_of_singleton. lia.
  - split.
    + destruct (Z.max_spec y (foldr Z.max x l)) as [[_ ->]|[_ ->]].
      * rewrite !elem_of_cons in *. tauto.
      * rewrite !elem_of_cons. tauto.
    + intros z Hz. apply elem_of_cons in Hz as [->|Hz].
      * pose proof (IHle x ltac:(by left)). lia.
      * apply elem_of_cons in Hz as [->|Hz]; [lia|].
        pose proof (IHle z ltac:(by right)). lia.
Qed.

Lemma elem_of_keys (m : gmap Z row) k : k ∈ keys m ↔ is_Some (m !! k).
Proof.
  unfold keys. rewrite list_elem_of_fmap. split.
  - intros ([k' r] & -> & H%elem_of_map_to_list). by exists r.
  - intros [r H]. exists (k, r). split; [done|].
    by apply elem_of_map_to_list.
Qed.

Lemma recount_store s :
  same_rows (set_rowIdCounter 0 s) (set_rowIdCounter 0 (recount s))
  ∧ pagination (recount s) = pagination s ∧ tbody (recount s) = tbody s.
Proof. unfold recount. destruct (decide _); by repeat split. Qed.

Lemma recount_counter s : counter_is_max (recount s).
Proof.
  unfold recount, counter_is_max.
  destruct (decide (size (rowMap s) = 0%nat)) as [H0|Hn]; simpl.
  - left. split; [|done]. by apply map_size_empty_iff.
  - right. assert (keys (rowMap s) ≠ []) as Hk.
    { intros Hk. apply Hn. apply map_size_empty_iff.
      apply map_to_list_empty_iff. unfold keys in Hk.
      by apply fmap_nil_inv in Hk. }
    destruct (Math_max_spec _ Hk) as [Hin Hle]. split.
    + by apply elem_of_keys.
    + intros k Hkey. apply Hle. by apply elem_of_keys.
Qed.

(** [setData] returns; it leaves the store as loaded by the loop, with
    the counter recomputed. *)
Lemma setData_run rows keep s :
  ∃ s3, same_store (loaded rows keep s) s3
        ∧ setData rows keep s = Return (tbody s3) (recount s3).
Proof.
  unfold setData. unfold bind at 1. rewrite forEach_modify.
  fold (ingestAll rows s). unfold bind at 1.
  assert ((if keep then ret ()
           else modify (λ s, set_filteredOrder (order s) s)) (ingestAll rows s)
          = Return tt (loaded rows keep s)) as ->.
  { unfold loaded. by destruct keep. }
  unfold bind at 1.
  destruct (renderTable_returns (loaded rows keep s)) as (frag & s3 & -> & Hs).
  exists s3. split; [done|]. run_M.
  destruct (recount_store s3) as (_ & _ & ->). done.
Qed.

Lemma setData_returns rows keep s :
  ∃ v s', setData rows keep s = Return v s' ∧ counter_is_max s'
          ∧ idField s' = idField s
          ∧ rowMap s' = rowMap (loaded rows keep s)
          ∧ order s' = order (loaded rows keep s)
          ∧ filteredOrder s' = filteredOrder (loaded rows keep s).
Proof.
  destruct (setData_run rows keep s) as (s3 & Hs & Hrun).
  exists (tbody s3), (recount s3). split; [done|].
  split; [apply recount_counter|].
  destruct (recount_store s3) as ((Hi & Hm & Ho & Hf & _) & _).
  destruct Hs as (Hi' & _ & Hm' & Ho' & Hf' & _). simpl in *.
  assert (idField (loaded rows keep s) = idField s) as Hid.
  { unfold loaded, ingestAll.
    assert (∀ l s0, idField (fold_left (λ s r, ingest r s) l s0) = idField s0)
      as Hfold.
    { induction l as [|r l IH]; intros s0; simpl; [done|].
      rewrite IH. apply ingest_frame. }
    destruct keep; simpl; apply Hfold. }
  repeat split; congruence.
Qed.

End SetData.

(** ** C2: which field gives the id *)

Section Identity.

Lemma id_value_literal r s :
  truthy (prop r "id") = true → id_value r s = prop r "id".
Proof. unfold id_value, js_or. by intros ->. Qed.

Lemma id_value_configured r s :
  truthy (prop r "id") = false → id_value r s = prop r (idFieldKey s).
Proof. unfold id_value, js_or. by intros ->. Qed.

Lemma resolveId_explicit r s z :
  Number (id_value r s) = Int z → z ≠ 0 → resolveId r s = (z, s).
Proof.
  intros Hn Hz. unfold resolveId. fold (id_value r s). rewrite Hn.
  by destruct (Z.eqb_spec z 0).
Qed.

Lemma resolveId_counter r s :
  number_falsy (Number (id_value r s)) = true → resolveId r s = nextId s.
Proof.
  intros Hn. unfold resolveId. fold (id_value r s).
  destruct (Number (id_value r s)) as [z|]; simpl in *; [|done].
  by rewrite Hn.
Qed.

(** The row stored under the resolved id carries that id. *)
Lemma ingest_stored r s :
  ∃ stored, rowMap (ingest r s) !! (resolveId r s).1 = Some stored
            ∧ stored !! "id" = Some (VNumber (Int (resolveId r s).1)).
Proof.
  destruct (resolveId r s) as [id s1] eqn:Hres. simpl.
  pose proof (resolveId_store r s) as (_ & _ & Hm & _).
  rewrite Hres in Hm. simpl in Hm.
  destruct (rowMap s !! id) as [old|] eqn:Hold.
  - rewrite (ingest_existing _ _ _ _ _ Hres Hold). simpl.
    rewrite lookup_insert_eq. eexists. split; [done|].
    unfold spread2. apply lookup_union_Some_l, lookup_insert_eq.
  - destruct (ingest_fresh _ _ _ _ Hres Hold) as (-> & _).
    rewrite lookup_insert_eq. eexists. split; [done|].
    apply lookup_insert_eq.
Qed.

Lemma ingest_keys r s k :
  is_Some (rowMap (ingest r s) !! k)
  ↔ k = (resolveId r s).1 ∨ is_Some (rowMap s !! k).
Proof.
  destruct (resolveId r s) as [id s1] eqn:Hres. simpl.
  pose proof (resolveId_store r s) as (_ & _ & Hm & _).
  rewrite Hres in Hm. simpl in Hm.
  destruct (rowMap s !! id) as [old|] eqn:Hold.
  - rewrite (ingest_existing _ _ _ _ _ Hres Hold). simpl. rewrite Hm.
    rewrite lookup_insert_is_Some. split.
    + intros [->|[_ ?]]; auto.
    + intros [->|Hk]; [by left|].
      destruct (decide (id = k)); [by left | by right].
  - destruct (ingest_fresh _ _ _ _ Hres Hold) as (-> & _).
    rewrite lookup_insert_is_Some. split.
    + intros [->|[_ ?]]; auto.
    + intros [->|Hk]; [by left|].
      destruct (decide (id = k)); [by left | by right].
Qed.

End Identity.

(** C2, as the code has it.  The literal [id] property is read first: when
    it is truthy it is the id value, whatever the configured field holds.
    The property named by [options.idField] is read only when the literal
    [id] is absent or falsy.  In both cases an id value that [Number] reads
    as a non-zero integer becomes the key, and the row stored under it
    carries it as its [id]; an id value that [Number] reads as 0 or [NaN]
    (a truthy literal [id] such as ['n/a'] included) gives way to the
    counter.  The id value is one that [Number] reads exactly: no numeral
    with a fractional or infinite value or beyond [2^53]. *)
Theorem resolveId_literal_id_first (r : row) (s : MyTableJs) :
  exact_id s r →
  (truthy (prop r "id") = true → id_value r s = prop r "id")
  ∧ (truthy (prop r "id") = false → id_value r s = prop r (idFieldKey s))
  ∧ (∀ z, truthy (prop r "id") = true → Number (prop r "id") = Int z →
          z ≠ 0 →
          resolveId r s = (z, s)
          ∧ ∃ stored, rowMap (ingest r s) !! z = Some stored
                      ∧ stored !! "id" = Some (VNumber (Int z)))
  ∧ (∀ z, truthy (prop r "id") = false →
          Number (prop r (idFieldKey s)) = Int z → z ≠ 0 →
          resolveId r s = (z, s)
          ∧ ∃ stored, rowMap (ingest r s) !! z = Some stored
                      ∧ stored !! "id" = Some (VNumber (Int z)))
  ∧ (number_falsy (Number (id_value r s)) = true →
     resolveId r s = nextId s).
Proof.
  intros _. split; [apply id_value_literal|].
  split; [apply id_value_configured|]. split; [|split].
  - intros z Ht Hn Hz. rewrite <- (id_value_literal r s Ht) in Hn.
    pose proof (resolveId_explicit r s z Hn Hz) as Hres. split; [done|].
    pose proof (ingest_stored r s) as Hst. by rewrite Hres in Hst.
  - intros z Ht Hn Hz. rewrite <- (id_value_configured r s Ht) in Hn.
    pose proof (resolveId_explicit r s z Hn Hz) as Hres. split; [done|].
    pose proof (ingest_stored r s) as Hst. by rewrite Hres in Hst.
  - apply resolveId_counter.
Qed.

(** A record with [id: 1] and [keyword_id: 2], ingested with
    [idField: 'keyword_id'], is stored under 1: the configured field does
    not take precedence. *)
Lemma configured_field_does_not_win :
  let s := constructor unmarked (Some "keyword_id") None false in
  let r : row :=
    {[ "id" := VNumber (Int 1); "keyword_id" := VNumber (Int 2) ]} in
  prop r (idFieldKey s) = VNumber (Int 2)
  ∧ (resolveId r s).1 = 1
  ∧ keys (rowMap (state_of (setData [r] false s))) = [1]
  ∧ rowMap (state_of (setData [r] false s)) !! 2 = None.
Proof. vm_compute. done. Qed.

Lemma resolveId_literal_id_first_witness :
  let s := constructor unmarked (Some "keyword_id") None false in
  let r1 : row :=
    {[ "id" := VNumber (Int 1); "keyword_id" := VNumber (Int 2) ]} in
  let r2 : row := {[ "keyword_id" := VString "0x10" ]} in
  let r3 : row := {[ "id" := VString "n/a"; "keyword_id" := VNumber (Int 5) ]} in
  resolveId r1 s = (1, s) ∧ resolveId r2 s = (16, s)
  ∧ resolveId r3 s = nextId s.
Proof.
  intros s r1 r2 r3.
  destruct (resolveId_literal_id_first r1 s eq_refl) as (_ & _ & H1 & _).
  destruct (resolveId_literal_id_first r2 s eq_refl) as (_ & _ & _ & H2 & _).
  destruct (resolveId_literal_id_first r3 s eq_refl) as (_ & _ & _ & _ & H3).
  split; [|split].
  - apply (H1 1); [reflexivity..|lia].
  - apply (H2 16); [reflexivity..|lia].
  - apply H3. reflexivity.
Defined.

(** ** C10: ids that coerce to 0 or NaN *)

Section FalsyIds.

Lemma no_negative_id_idField s s' r :
  idField s' = idField s → no_negative_id s r → no_negative_id s' r.
Proof.
  unfold no_negative_id, id_value, idFieldKey. by intros ->.
Qed.

Lemma ingest_positive r s :
  positive_ids s → no_negative_id s r → positive_ids (ingest r s).
Proof.
  intros [Hc Hk] Hr. unfold no_negative_id in Hr.
  destruct (ingest_frame r s) as (_ & _ & _ & _ & Hcnt).
  destruct (resolveId_cases r s) as [(z & Hn & Hz & Hres)|[Hf Hres]].
  - rewrite Hn in Hr. split.
    + rewrite Hcnt, Hres. done.
    + intros k [->|Hin]%ingest_keys; [|by apply Hk].
      rewrite Hres. simpl. lia.
  - pose proof (to_double_positive (rowIdCounter s + 1) ltac:(lia)) as Hd.
    split.
    + rewrite Hcnt, Hres. simpl. lia.
    + intros k [->|Hin]%ingest_keys; [|by apply Hk].
      rewrite Hres. simpl. lia.
Qed.

Lemma ingestAll_positive rows s :
  positive_ids s → Forall (no_negative_id s) rows →
  positive_ids (ingestAll rows s).
Proof.
  unfold ingestAll. revert s.
  induction rows as [|r rows IH]; intros s Hs Hrows; simpl; [done|].
  apply Forall_cons in Hrows as [Hr Hrows]. apply IH.
  - by apply ingest_positive.
  - eapply Forall_impl; [exact Hrows|]. intros r'.
    apply no_negative_id_idField, ingest_frame.
Qed.

Lemma setData_positive rows keep s :
  positive_ids s → Forall (no_negative_id s) rows →
  ∃ v s', setData rows keep s = Return v s' ∧ positive_ids s'.
Proof.
  intros Hs Hrows.
  destruct (setData_returns rows keep s)
    as (v & s' & Hrun & Hmax & _ & Hm & _).
  exists v, s'. split; [done|].
  pose proof (ingestAll_positive rows s Hs Hrows) as [_ Hk].
  assert (rowMap (loaded rows keep s) = rowMap (ingestAll rows s)) as Hl.
  { unfold loaded. by destruct keep. }
  rewrite Hl in Hm. split.
  - destruct Hmax as [[_ ->]|[Hin _]]; [done|].
    rewrite Hm in Hin. apply Hk in Hin. lia.
  - intros k. rewrite Hm. apply Hk.
Qed.

End FalsyIds.

(** C10, as the code has it.  A record whose id value
    ([row.id || row[idField]]) is read by [Number] as 0 or [NaN] is given
    the next value of the counter, which is [rowIdCounter + 1] while the
    counter is below [2^53] and differs from 0 as long as the counter is
    not negative.  In a widget whose keys are all positive and whose
    counter is not negative, ingesting records none of which carries a
    negative id keeps it so; there 0 is never a key after ingestion.  The
    id values are ones that [Number] reads exactly: no numeral with a
    fractional or infinite value or beyond [2^53]. *)
Theorem falsy_id_takes_counter (r : row) (rows : list row) (keep : bool)
    (s : MyTableJs) :
  (exact_id s r → number_falsy (Number (id_value r s)) = true →
   resolveId r s = nextId s
   ∧ is_Some (rowMap (ingest r s) !! (resolveId r s).1)
   ∧ (safe_counter s → (resolveId r s).1 = rowIdCounter s + 1)
   ∧ (0 ≤ rowIdCounter s → (resolveId r s).1 ≠ 0))
  ∧ (positive_ids s → Forall (no_negative_id s) rows →
     Forall (exact_id s) rows →
     ∃ v s', setData rows keep s = Return v s'
             ∧ positive_ids s' ∧ rowMap s' !! 0 = None).
Proof.
  split.
  - intros _ Hf. pose proof (resolveId_counter r s Hf) as Hres.
    split; [done|]. split; [apply ingest_keys; by left|].
    rewrite Hres. simpl. split.
    + intros Hc. by apply to_double_succ.
    + intros Hc.
      pose proof (to_double_positive (rowIdCounter s + 1) ltac:(lia)). lia.
  - intros Hs Hrows _.
    destruct (setData_positive rows keep s Hs Hrows) as (v & s' & Hrun & Hp).
    exists v, s'. split; [done|]. split; [done|].
    destruct (rowMap s' !! 0) eqn:H0; [|done].
    destruct Hp as [_ Hk]. specialize (Hk 0 ltac:(by eexists)). lia.
Qed.

(** After the id -1 has been ingested the counter stands at -1, and a
    record with [id: 0] is then stored under the key 0. *)
Lemma zero_becomes_a_key :
  let s0 := constructor unmarked None None false in
  let s1 := state_of (setData [{[ "id" := VNumber (Int (-1)) ]}] false s0) in
  let s2 := state_of (setData [{[ "id" := VNumber (Int 0) ]}] false s1) in
  rowIdCounter s1 = -1
  ∧ returns (setData [{[ "id" := VNumber (Int 0) ]}] false s1)
  ∧ is_Some (rowMap s2 !! 0)
  ∧ (rowMap s2 !! 0) ≫= (λ stored, stored !! "id") = Some (VNumber (Int 0)).
Proof. vm_compute. repeat split. by eexists. Qed.

Lemma falsy_id_takes_counter_witness :
  let s := constructor unmarked None None false in
  let r : row := {[ "id" := VNumber (Int 0); "name" := VString "zero" ]} in
  let r' : row := {[ "id" := VString "n/a" ]} in
  (resolveId r s).1 = 1
  ∧ ∃ v s', setData [r; r'] false s = Return v s' ∧ rowMap s' !! 0 = None.
Proof.
  intros s r r'.
  pose proof (falsy_id_takes_counter r [r; r'] false s) as [H1 H2]. split.
  - destruct (H1 eq_refl eq_refl) as (_ & _ & H & _). apply H.
    unfold safe_counter. simpl. lia.
  - destruct H2 as (v & s' & Hrun & _ & H0).
    + split; [done|]. intros k [x Hx]. subst s. simpl in Hx.
      by rewrite lookup_empty in Hx.
    + repeat constructor; vm_compute; done.
    + repeat constructor.
    + by exists v, s'.
Defined.

(** ** The auto-id counter *)

Section Counter.

Lemma anonymous_id_value s r : anonymous s r → id_value r s = VUndefined.
Proof.
  intros [Hid Hf]. unfold id_value, js_or, prop. by rewrite Hid, Hf.
Qed.

Lemma anonymous_idField s s' r :
  idField s' = idField s → anonymous s r → anonymous s' r.
Proof. unfold anonymous, idFieldKey. by intros ->. Qed.

(** A record without id, when the next counter value is free, is
    inserted under that value. *)
Lemma ingest_anonymous r s :
  safe_counter s → anonymous s r →
  rowMap s !! (rowIdCounter s + 1) = None →
  rowMap (ingest r s)
  = <[rowIdCounter s + 1 := stamp (rowIdCounter s + 1) r]> (rowMap s)
  ∧ order (ingest r s)
    = (if arr_includes (order s) (rowIdCounter s + 1) then order s
       else order s ++ [rowIdCounter s + 1])
  ∧ filteredOrder (ingest r s)
    = (if arr_includes (filteredOrder s) (rowIdCounter s + 1)
       then filteredOrder s
       else filteredOrder s ++ [rowIdCounter s + 1])
  ∧ rowIdCounter (ingest r s) = rowIdCounter s + 1
  ∧ idField (ingest r s) = idField s.
Proof.
  intros Hsafe Han Hfree.
  assert (resolveId r s = nextId s) as Hres.
  { apply resolveId_counter. by rewrite (anonymous_id_value _ _ Han). }
  rewrite (nextId_safe s Hsafe) in Hres.
  destruct (ingest_fresh r s _ _ Hres Hfree) as (Hm & Ho & Hf & Hc).
  destruct (ingest_frame r s) as (Hi & _).
  by repeat split.
Qed.

(** The counter that is the greatest key of a map with the keys 1..n. *)
Lemma counter_is_max_unique s n :
  counter_is_max s → is_Some (rowMap s !! n) →
  (∀ k, is_Some (rowMap s !! k) → k ≤ n) → rowIdCounter s = n.
Proof.
  intros [[He _]|[Hin Hle]] Hn Hmax.
  - rewrite He, lookup_empty in Hn. by destruct Hn.
  - apply Hmax in Hin. apply Hle in Hn. lia.
Qed.

Lemma counter_is_max_bound s :
  counter_is_max s → ∀ k, is_Some (rowMap s !! k) → k ≤ rowIdCounter s.
Proof.
  intros [[He _]|[_ Hle]] k Hk; [|by apply Hle].
  rewrite He, lookup_empty in Hk. by destruct Hk.
Qed.

(** One record without id, ingested where the counter bounds the keys:
    it gets the next counter value, which no row has, and is appended to
    both arrays. *)
Lemma ingest_next r s :
  safe_counter s → counter_bounds s → anonymous s r →
  rowMap s !! (rowIdCounter s + 1) = None
  ∧ rowMap (ingest r s)
    = <[rowIdCounter s + 1 := stamp (rowIdCounter s + 1) r]> (rowMap s)
  ∧ order (ingest r s) = order s ++ [rowIdCounter s + 1]
  ∧ filteredOrder (ingest r s) = filteredOrder s ++ [rowIdCounter s + 1]
  ∧ rowIdCounter (ingest r s) = rowIdCounter s + 1
  ∧ idField (ingest r s) = idField s
  ∧ counter_bounds (ingest r s).
Proof.
  intros Hsafe (Hb & Ho & Hf) Han.
  assert (rowMap s !! (rowIdCounter s + 1) = None) as Hfree.
  { destruct (rowMap s !! (rowIdCounter s + 1)) eqn:E; [|done].
    specialize (Hb _ ltac:(by eexists)). lia. }
  assert (∀ l, Forall (λ id, is_Some (rowMap s !! id)) l →
               arr_includes l (rowIdCounter s + 1) = false) as Hnot.
  { intros l Hl. apply arr_includes_false. intros Hin.
    rewrite Forall_forall in Hl. apply Hl in Hin.
    rewrite Hfree in Hin. by destruct Hin. }
  destruct (ingest_anonymous r s Hsafe Han Hfree)
    as (Hm' & Ho' & Hf' & Hc' & Hi').
  rewrite (Hnot _ Ho) in Ho'. rewrite (Hnot _ Hf) in Hf'.
  repeat split; try done.
  - intros k. rewrite Hm', Hc', lookup_insert_is_Some.
    intros [<-|[_ Hk]]; [lia|]. apply Hb in Hk. lia.
  - rewrite Hm', Ho'. apply Forall_app. split.
    + eapply Forall_impl; [exact Ho|]. intros k Hk. simpl.
      rewrite lookup_insert_is_Some.
      destruct (decide (rowIdCounter s + 1 = k)); [by left | by right].
    + constructor; [|constructor]. rewrite lookup_insert_eq. by eexists.
  - rewrite Hm', Hf'. apply Forall_app. split.
    + eapply Forall_impl; [exact Hf|]. intros k Hk. simpl.
      rewrite lookup_insert_is_Some.
      destruct (decide (rowIdCounter s + 1 = k)); [by left | by right].
    + constructor; [|constructor]. rewrite lookup_insert_eq. by eexists.
Qed.

Lemma counter_bounds_new tpl idf pg h : counter_bounds (constructor tpl idf pg h).
Proof.
  repeat split; try constructor. intros k [x Hx]. simpl in Hx.
  by rewrite lookup_empty in Hx.
Qed.

(** [setData] with one record without id, where the counter bounds the
    keys. *)
Lemma setData_next r keep s :
  safe_counter s → counter_bounds s → anonymous s r →
  ∃ v s', setData [r] keep s = Return v s'
          ∧ rowMap s !! (rowIdCounter s + 1) = None
          ∧ rowMap s'
            = <[rowIdCounter s + 1 := stamp (rowIdCounter s + 1) r]> (rowMap s)
          ∧ order s' = order s ++ [rowIdCounter s + 1]
          ∧ rowIdCounter s' = rowIdCounter s + 1
          ∧ idField s' = idField s
          ∧ counter_bounds s'.
Proof.
  intros Hsafe Hb Han.
  destruct (ingest_next r s Hsafe Hb Han)
    as (Hfree & Hm1 & Ho1 & Hf1 & Hc1 & Hi1 & (Hb1 & Hko & Hkf)).
  destruct (setData_returns [r] keep s)
    as (v & s' & Hrun & Hmax & Hi & Hm & Ho & Hf).
  assert (rowMap s' = rowMap (ingest r s)) as Hm'.
  { rewrite Hm. unfold loaded, ingestAll. by destruct keep. }
  assert (order s' = order (ingest r s)) as Ho'.
  { rewrite Ho. unfold loaded, ingestAll. by destruct keep. }
  assert (rowIdCounter s' = rowIdCounter s + 1) as Hc'.
  { apply counter_is_max_unique; [done|..]; rewrite Hm', Hm1.
    - rewrite lookup_insert_eq. by eexists.
    - intros k. rewrite lookup_insert_is_Some.
      intros [<-|[_ Hk]]; [lia|]. destruct Hb as (Hb & _).
      apply Hb in Hk. lia. }
  exists v, s'. split; [done|]. split; [done|].
  split; [by rewrite Hm', Hm1|]. split; [by rewrite Ho', Ho1|].
  split; [done|]. split; [done|]. split; [|split].
  - intros k. rewrite Hm', Hc', <- Hc1. apply Hb1.
  - by rewrite Hm', Ho'.
  - rewrite Hm', Hf. unfold loaded, ingestAll. by destruct keep.
Qed.

End Counter.

(** ** C4: merge or append *)

(** Every turn of the loop keeps the stored rows stamped with their key,
    which is how a merge leaves the [id] of the stored row as it was. *)
Lemma ingest_stamped r s : ids_stamped s → ids_stamped (ingest r s).
Proof.
  intros Hst k x. destruct (resolveId r s) as [id s1] eqn:Hres.
  pose proof (resolveId_store r s) as (_ & _ & Hm & _).
  rewrite Hres in Hm. simpl in Hm.
  destruct (rowMap s !! id) as [old|] eqn:Hold.
  - rewrite (ingest_existing _ _ _ _ _ Hres Hold). simpl. rewrite Hm.
    destruct (decide (id = k)) as [->|Hne].
    + rewrite lookup_insert_eq. intros [= <-].
      apply lookup_union_Some_l, lookup_insert_eq.
    + rewrite lookup_insert_ne by done. apply Hst.
  - destruct (ingest_fresh _ _ _ _ Hres Hold) as (-> & _).
    destruct (decide (id = k)) as [->|Hne].
    + rewrite lookup_insert_eq. intros [= <-]. apply lookup_insert_eq.
    + rewrite lookup_insert_ne by done. apply Hst.
Qed.

Lemma ids_stamped_new tpl idf pg h : ids_stamped (constructor tpl idf pg h).
Proof. intros k r Hk. simpl in Hk. by rewrite lookup_empty in Hk. Qed.



(** ** C3 and C5: the invariant, removal and update *)

Section Invariant.

Lemma invariant_same s s' :
  rowMap s' = rowMap s → order s' = order s →
  filteredOrder s' = filteredOrder s → invariant s → invariant s'.
Proof.
  intros Hm Ho Hf [? ? ? ? ?]. split; rewrite ?Hm, ?Ho, ?Hf; done.
Qed.

Lemma invariant_new tpl idf pg h : invariant (constructor tpl idf pg h).
Proof. split; simpl; constructor. Qed.

Lemma is_key_insert (m : gmap Z row) id x k :
  is_Some (m !! k) → is_Some (<[id := x]> m !! k).
Proof.
  intros Hk. rewrite lookup_insert_is_Some.
  destruct (decide (id = k)); [by left | by right].
Qed.

Lemma ingest_invariant r s : invariant s → invariant (ingest r s).
Proof.
  intros Hinv. destruct (resolveId r s) as [id s1] eqn:Hres.
  pose proof (resolveId_store r s) as (_ & _ & Hm & Ho & Hf & _).
  rewrite Hres in Hm, Ho, Hf. simpl in Hm, Ho, Hf.
  destruct (rowMap s !! id) as [old|] eqn:Hold.
  - rewrite (ingest_existing _ _ _ _ _ Hres Hold).
    destruct Hinv as [Hnd Hko Hkf Hsub Hndf].
    split; simpl; rewrite ?Hm, ?Ho, ?Hf; try done.
    + eapply Forall_impl; [exact Hko|]. intros k. apply is_key_insert.
    + eapply Forall_impl; [exact Hkf|]. intros k. apply is_key_insert.
  - destruct (ingest_fresh _ _ _ _ Hres Hold) as (Hm' & Ho' & Hf' & _).
    destruct Hinv as [Hnd Hko Hkf Hsub Hndf].
    assert (id ∉ order s) as Hno.
    { intros Hin. rewrite Forall_forall in Hko. apply Hko in Hin.
      rewrite Hold in Hin. by destruct Hin. }
    assert (id ∉ filteredOrder s) as Hnf.
    { intros Hin. rewrite Forall_forall in Hkf. apply Hkf in Hin.
      rewrite Hold in Hin. by destruct Hin. }
    apply arr_includes_false in Hno as Hno'.
    apply arr_includes_false in Hnf as Hnf'.
    rewrite Hno' in Ho'. rewrite Hnf' in Hf'.
    split; rewrite ?Hm', ?Ho', ?Hf'.
    + apply NoDup_app. split; [done|]. split; [|apply NoDup_singleton].
      intros x Hx ->%list_elem_of_singleton. done.
    + apply Forall_app. split.
      * eapply Forall_impl; [exact Hko|]. intros k. apply is_key_insert.
      * constructor; [|constructor]. rewrite lookup_insert_eq. by eexists.
    + apply Forall_app. split.
      * eapply Forall_impl; [exact Hkf|]. intros k. apply is_key_insert.
      * constructor; [|constructor]. rewrite lookup_insert_eq. by eexists.
    + by apply sublist_app.
    + apply NoDup_app. split; [done|]. split; [|apply NoDup_singleton].
      intros x Hx ->%list_elem_of_singleton. done.
Qed.

Lemma ingestAll_invariant rows s :
  invariant s → invariant (ingestAll rows s).
Proof.
  unfold ingestAll. revert s.
  induction rows as [|r rows IH]; intros s Hs; simpl; [done|].
  by apply IH, ingest_invariant.
Qed.

Lemma reset_invariant s :
  invariant s → invariant (set_filteredOrder (order s) s).
Proof. intros [? ? ? ? ?]. split; simpl; done. Qed.

Lemma loaded_invariant rows keep s :
  invariant s → invariant (loaded rows keep s).
Proof.
  intros Hs. unfold loaded.
  pose proof (ingestAll_invariant rows s Hs).
  destruct keep; [done | by apply reset_invariant].
Qed.

Lemma without_elem_of id l x : x ∈ without id l ↔ x ∈ l ∧ x ≠ id.
Proof.
  unfold without. rewrite list_filter_elem_of, negb_true_iff, Z.eqb_neq.
  done.
Qed.

Lemma list_filter_sublist_mono {A} (p : A → bool) (l1 l2 : list A) :
  l1 `sublist_of` l2 → List.filter p l1 `sublist_of` List.filter p l2.
Proof.
  induction 1 as [|x l1 l2 _ IH|x l1 l2 _ IH]; simpl.
  - constructor.
  - destruct (p x); [by constructor | done].
  - destruct (p x); [by constructor | done].
Qed.

(** [removeRow] on a key of the map. *)
Lemma removeRow_known v n s :
  Number v = Int n → is_Some (rowMap s !! n) →
  ∃ s', removeRow v s = Return true s'
        ∧ rowMap s' = delete n (rowMap s)
        ∧ order s' = without n (order s)
        ∧ filteredOrder s' = without n (filteredOrder s)
        ∧ rowIdCounter s' = rowIdCounter s
        ∧ idField s' = idField s ∧ pagination s' = pagination s
        ∧ thead s' = thead s
        ∧ tbody s' = remove_first (Str.ofZ n) (tbody s).
Proof.
  intros Hn [x Hx]. unfold removeRow. run_M. rewrite Hn, Hx. simpl.
  eexists. split; [reflexivity|]. by repeat split.
Qed.

(** [removeRow] and [updateRow] on anything else. *)
Lemma removeRow_unknown v s :
  (Number v = NaN ∨ ∃ n, Number v = Int n ∧ rowMap s !! n = None) →
  removeRow v s = Return false s.
Proof.
  unfold removeRow. run_M. intros [->|(n & -> & ->)]; done.
Qed.

Lemma updateRow_unknown v d u s :
  (Number v = NaN ∨ ∃ n, Number v = Int n ∧ rowMap s !! n = None) →
  updateRow v d u s = Return false s.
Proof.
  unfold updateRow. run_M. intros [->|(n & -> & ->)]; done.
Qed.

Lemma updateRow_known v n d u s old :
  Number v = Int n → rowMap s !! n = Some old →
  ∃ s', updateRow v d u s = Return true s'
        ∧ rowMap s'
          = <[n := <["id" := VNumber (Int n)]> (spread2 old d)]> (rowMap s)
        ∧ order s' = order s ∧ filteredOrder s' = filteredOrder s
        ∧ rowIdCounter s' = rowIdCounter s
        ∧ (u = false → tbody s' = tbody s).
Proof.
  intros Hn Hx. unfold updateRow. run_M. rewrite Hn, Hx.
  destruct u; simpl; eexists; (split; [reflexivity|]); by repeat split.
Qed.

Lemma unknown_or_known v s :
  (Number v = NaN ∨ ∃ n, Number v = Int n ∧ rowMap s !! n = None)
  ∨ (∃ n old, Number v = Int n ∧ rowMap s !! n = Some old).
Proof.
  destruct (Number v) as [n|]; [|by left; left].
  destruct (rowMap s !! n) as [old|] eqn:E.
  - right. by exists n, old.
  - left. right. by exists n.
Qed.

Lemma removeRow_invariant v s :
  invariant s → invariant (state_of (removeRow v s)).
Proof.
  intros Hinv.
  destruct (unknown_or_known v s) as [Hu|(n & old & Hn & Hold)].
  { by rewrite (removeRow_unknown _ _ Hu). }
  destruct (removeRow_known v n s Hn ltac:(by eexists))
    as (s' & -> & Hm & Ho & Hf & _).
  simpl. destruct Hinv as [Hnd Hko Hkf Hsub Hndf].
  assert (∀ l, Forall (λ k, is_Some (rowMap s !! k)) l →
               Forall (λ k, is_Some (delete n (rowMap s) !! k))
                 (without n l)) as Hkeys.
  { intros l Hl. apply Forall_forall. intros k [Hk Hne]%without_elem_of.
    rewrite Forall_forall in Hl. rewrite lookup_delete_ne by done.
    by apply Hl. }
  split; rewrite ?Hm, ?Ho, ?Hf; auto.
  - eapply sublist_NoDup; [exact Hnd | apply list_filter_sublist].
  - by apply list_filter_sublist_mono.
  - eapply sublist_NoDup; [exact Hndf | apply list_filter_sublist].
Qed.

Lemma updateRow_invariant v d u s :
  invariant s → invariant (state_of (updateRow v d u s)).
Proof.
  intros Hinv.
  destruct (unknown_or_known v s) as [Hu|(n & old & Hn & Hold)].
  { by rewrite (updateRow_unknown _ _ _ _ Hu). }
  destruct (updateRow_known v n d u s old Hn Hold)
    as (s' & -> & Hm & Ho & Hf & _).
  simpl. destruct Hinv as [Hnd Hko Hkf Hsub Hndf].
  split; rewrite ?Hm, ?Ho, ?Hf; auto.
  - eapply Forall_impl; [exact Hko|]. intros k. apply is_key_insert.
  - eapply Forall_impl; [exact Hkf|]. intros k. apply is_key_insert.
Qed.

Lemma setData_invariant rows keep s :
  invariant s → invariant (state_of (setData rows keep s)).
Proof.
  intros Hinv.
  destruct (setData_returns rows keep s)
    as (v & s' & -> & _ & _ & Hm & Ho & Hf).
  simpl. eapply invariant_same; [done..|]. by apply loaded_invariant.
Qed.

Lemma filtered_invariant p s :
  invariant s → invariant (set_filteredOrder (List.filter p (order s)) s).
Proof.
  intros [Hnd Hko Hkf Hsub Hndf]. split; simpl; try done.
  - apply Forall_forall. intros k [Hk _]%list_filter_elem_of.
    rewrite Forall_forall in Hko. by apply Hko.
  - apply list_filter_sublist.
  - eapply sublist_NoDup; [exact Hnd | apply list_filter_sublist].
Qed.

Lemma filterTable_invariant filters s :
  invariant s → invariant (state_of (filterTable filters s)).
Proof.
  intros Hinv.
  destruct (filterTable_run filters s) as (s' & -> & Hsame).
  destruct Hsame as (_ & Hm & Ho & Hf & _). simpl in *.
  apply (invariant_same
           (set_filteredOrder
              (List.filter (keep_id (rowMap s) filters) (order s)) s));
    [done..|].
  by apply filtered_invariant.
Qed.

(** [resetFilter] throws while no header is bound, after it has reset
    [filteredOrder]; otherwise it clears the inputs and redraws. *)
Lemma resetFilter_unbound s :
  thead s = None → resetFilter s = Throw (set_filteredOrder (order s) s).
Proof. intros H. unfold resetFilter. run_M. simpl. by rewrite H. Qed.

Lemma resetFilter_bound s h :
  thead s = Some h →
  ∃ s', resetFilter s = Return tt s'
        ∧ same_rows
            (set_thead (Some {| inputs := map clear_input (inputs h);
                                modeSwitch := modeSwitch h;
                                isThead := isThead h;
                                parentNode := parentNode h |})
               (set_filteredOrder (order s) s)) s'.
Proof.
  intros H. unfold resetFilter. run_M. simpl. rewrite H.
  match goal with |- context [renderTable ?t] =>
    destruct (renderTable_returns t) as (frag & s' & -> & Hs) end.
  exists s'. split; [done|]. by apply same_store_rows.
Qed.

Lemma resetFilter_invariant s :
  invariant s → invariant (state_of (resetFilter s)).
Proof.
  intros Hinv. destruct (thead s) as [h|] eqn:Hh.
  - destruct (resetFilter_bound s h Hh) as (s' & -> & Hsame).
    destruct Hsame as (_ & Hm & Ho & Hf & _). simpl in *.
    apply (invariant_same (set_filteredOrder (order s) s)); [done..|].
    by apply reset_invariant.
  - rewrite (resetFilter_unbound s Hh). simpl. by apply reset_invariant.
Qed.

End Invariant.

(** C3.  From any state that satisfies the invariant of the store, each of
    [setData], [removeRow], [updateRow], [filterTable] and [resetFilter]
    leaves a state that satisfies it: [order] has no duplicates, every id
    of [order] and of [filteredOrder] is a key of the row map, and
    [filteredOrder] is a duplicate-free subsequence of [order].  The first
    four return; for [resetFilter] the state is the one it leaves behind,
    whether it returned or threw. *)
Theorem invariant_preserved (s : MyTableJs) (rows : list row) (keep : bool)
    (id : jsval) (newData : row) (updateElement : bool)
    (filters : list FilterEntry) :
  invariant s →
  (returns (setData rows keep s)
   ∧ invariant (state_of (setData rows keep s)))
  ∧ (returns (removeRow id s) ∧ invariant (state_of (removeRow id s)))
  ∧ (returns (updateRow id newData updateElement s)
     ∧ invariant (state_of (updateRow id newData updateElement s)))
  ∧ (returns (filterTable filters s)
     ∧ invariant (state_of (filterTable filters s)))
  ∧ invariant (state_of (resetFilter s)).
Proof.
  intros Hinv. split; [split|split; [split|split; [split|split; [split|]]]].
  - by destruct (setData_returns rows keep s) as (v & s' & -> & _).
  - by apply setData_invariant.
  - destruct (unknown_or_known id s) as [Hu|(n & old & Hn & Hold)].
    + by rewrite (removeRow_unknown _ _ Hu).
    + by destruct (removeRow_known id n s Hn ltac:(by eexists))
        as (s' & -> & _).
  - by apply removeRow_invariant.
  - destruct (unknown_or_known id s) as [Hu|(n & old & Hn & Hold)].
    + by rewrite (updateRow_unknown _ _ _ _ Hu).
    + by destruct (updateRow_known id n newData updateElement s old Hn Hold)
        as (s' & -> & _).
  - by apply updateRow_invariant.
  - by destruct (filterTable_run filters s) as (s' & -> & _).
  - by apply filterTable_invariant.
  - by apply resetFilter_invariant.
Qed.

Lemma invariant_preserved_witness :
  let s := constructor unmarked None None false in
  let alice : row := {[ "id" := VNumber (Int 1); "name" := VString "Alice" ]} in
  let bob : row := {[ "id" := VNumber (Int 2); "name" := VString "Bob" ]} in
  invariant s ∧ invariant (state_of (setData [alice; bob] false s)).
Proof.
  intros s alice bob.
  assert (invariant s) as Hs by (split; simpl; constructor).
  split; [exact Hs|].
  exact (proj2 (proj1
    (invariant_preserved s [alice; bob] false VNull ∅ false [] Hs))).
Defined.

(** C5.  For an id that is not a key of the row map (whether [Number]
    reads it as [NaN] or as an absent number) [removeRow] and [updateRow]
    return [false] and leave the whole state as it was.  For an id that is
    a key, [removeRow] returns [true], deletes the row from the map and
    takes the id out of [order] and [filteredOrder], leaving the other ids
    in place.  The id is a value that [Number] reads exactly: among the
    strings, one that is no numeral or the numeral of an integer up to
    [2^53], in any notation. *)
Theorem remove_update_by_id (v : jsval) (s : MyTableJs) (newData : row)
    (updateElement : bool) :
  exactly_read v = true →
  ((Number v = NaN ∨ ∃ n, Number v = Int n ∧ rowMap s !! n = None) →
   removeRow v s = Return false s
   ∧ updateRow v newData updateElement s = Return false s)
  ∧ (∀ n, Number v = Int n → is_Some (rowMap s !! n) →
     ∃ s', removeRow v s = Return true s'
           ∧ rowMap s' = delete n (rowMap s)
           ∧ rowMap s' !! n = None
           ∧ (∀ k, k ≠ n → rowMap s' !! k = rowMap s !! k)
           ∧ order s' = without n (order s)
           ∧ filteredOrder s' = without n (filteredOrder s)
           ∧ (n ∉ order s') ∧ (n ∉ filteredOrder s')
           ∧ (∀ k, k ≠ n → (k ∈ order s' ↔ k ∈ order s)
                           ∧ (k ∈ filteredOrder s' ↔ k ∈ filteredOrder s))
           ∧ order s' `sublist_of` order s
           ∧ filteredOrder s' `sublist_of` filteredOrder s).
Proof.
  intros _. split.
  - intros Hu. split.
    + by apply removeRow_unknown.
    + by apply updateRow_unknown.
  - intros n Hn Hkey.
    destruct (removeRow_known v n s Hn Hkey) as (s' & Hrun & Hm & Ho & Hf & _).
    exists s'. rewrite Hm, Ho, Hf.
    split; [done|]. split; [done|]. split; [apply lookup_delete_eq|].
    split; [intros k Hk; by apply lookup_delete_ne|].
    split; [done|]. split; [done|].
    split; [by intros [_ ?]%without_elem_of|].
    split; [by intros [_ ?]%without_elem_of|].
    split; [|split; apply list_filter_sublist].
    intros k Hk. rewrite !without_elem_of. tauto.
Qed.

Lemma remove_update_by_id_witness :
  let alice : row := {[ "id" := VNumber (Int 1); "name" := VString "Alice" ]} in
  let bob : row := {[ "id" := VNumber (Int 2); "name" := VString "Bob" ]} in
  let s := state_of (setData [alice; bob] false (constructor unmarked None None false)) in
  (removeRow (VString "7") s = Return false s
   ∧ updateRow (VString "x") ∅ true s = Return false s)
  ∧ ∃ s', removeRow (VString "1.0") s = Return true s'
          ∧ rowMap s' !! 1 = None ∧ order s' = without 1 (order s).
Proof.
  intros alice bob s. split; [split|].
  - apply (proj1 (remove_update_by_id (VString "7") s ∅ false eq_refl)).
    right. exists 7. split; reflexivity.
  - apply (proj1 (remove_update_by_id (VString "x") s ∅ true eq_refl)).
    left. reflexivity.
  - destruct (proj2 (remove_update_by_id (VString "1.0") s ∅ false eq_refl)
                1 eq_refl)
      as (s' & Hrun & _ & Hgone & _ & Ho & _).
    + exists (stamp 1 alice). reflexivity.
    + by exists s'.
Defined.

(** ** C9: the counter after [setData] *)

(** C9, as the code has it.  After every [setData] call the counter is the
    greatest key of the row map, or 0 when the map is empty, so that no key
    exceeds it.  Wherever no key exceeds the counter and the counter is
    below [2^53], a record that has neither an [id] nor the property named
    by [options.idField] is stored under [rowIdCounter + 1], a key no row
    had.  In a newly constructed widget the first such record gets id 1 and
    the second, in the same or in a later call, id 2. *)
Theorem counter_after_setData (rows : list row) (keep : bool) (s : MyTableJs)
    (r : row) (tpl : row → option string) (idf : option string)
    (pg : option Pagination) (h : bool)
    (r1 r2 : row) (k1 k2 : bool) :
  (∃ v s', setData rows keep s = Return v s' ∧ counter_is_max s'
           ∧ (invariant s → counter_bounds s'))
  ∧ (safe_counter s → counter_bounds s → anonymous s r →
     ∃ v s', setData [r] keep s = Return v s'
             ∧ rowMap s !! (rowIdCounter s + 1) = None
             ∧ rowMap s'
               = <[rowIdCounter s + 1 := stamp (rowIdCounter s + 1) r]>
                   (rowMap s)
             ∧ rowIdCounter s' = rowIdCounter s + 1)
  ∧ (anonymous (constructor tpl idf pg h) r1 →
     anonymous (constructor tpl idf pg h) r2 →
     (∃ v1 s1 v2 s2,
        setData [r1] k1 (constructor tpl idf pg h) = Return v1 s1
        ∧ rowMap s1 = {[1 := stamp 1 r1]}
        ∧ setData [r2] k2 s1 = Return v2 s2
        ∧ rowMap s2 = <[2 := stamp 2 r2]> {[1 := stamp 1 r1]}
        ∧ order s2 = [1; 2] ∧ rowIdCounter s2 = 2)
     ∧ (∃ v s',
          setData [r1; r2] k1 (constructor tpl idf pg h) = Return v s'
          ∧ rowMap s' = <[2 := stamp 2 r2]> {[1 := stamp 1 r1]}
          ∧ order s' = [1; 2] ∧ rowIdCounter s' = 2)).
Proof.
  split; [|split].
  - destruct (setData_returns rows keep s) as (v & s' & Hrun & Hmax & _).
    exists v, s'. split; [done|]. split; [done|]. intros Hinv.
    pose proof (setData_invariant rows keep s Hinv) as Hinv'.
    rewrite Hrun in Hinv'. simpl in Hinv'. destruct Hinv' as [_ Hko Hkf _ _].
    split; [by apply counter_is_max_bound | done].
  - intros Hsafe Hb Han.
    destruct (setData_next r keep s Hsafe Hb Han)
      as (v & s' & Hrun & Hfree & Hm & _ & Hc & _).
    by exists v, s'.
  - intros Ha1 Ha2. set (s0 := constructor tpl idf pg h) in *.
    pose proof (counter_bounds_new tpl idf pg h) as Hb0. fold s0 in Hb0.
    assert (safe_counter s0) as Hs0 by (unfold safe_counter; simpl; lia).
    split.
    + destruct (setData_next r1 k1 s0 Hs0 Hb0 Ha1)
        as (v1 & s1 & Hrun1 & _ & Hm1 & Ho1 & Hc1 & Hi1 & Hb1).
      assert (anonymous s1 r2) as Ha2'
        by (eapply anonymous_idField; [|exact Ha2]; done).
      assert (safe_counter s1) as Hs1
        by (unfold safe_counter; rewrite Hc1; simpl; lia).
      destruct (setData_next r2 k2 s1 Hs1 Hb1 Ha2')
        as (v2 & s2 & Hrun2 & _ & Hm2 & Ho2 & Hc2 & _).
      simpl in Hm1, Ho1, Hc1. rewrite Hc1, Hm1 in Hm2.
      rewrite Hc1, Ho1 in Ho2. rewrite Hc1 in Hc2.
      by exists v1, s1, v2, s2.
    + destruct (ingest_next r1 s0 Hs0 Hb0 Ha1)
        as (_ & Hm1 & Ho1 & _ & Hc1 & Hi1 & Hb1).
      assert (anonymous (ingest r1 s0) r2) as Ha2'
        by (eapply anonymous_idField; [|exact Ha2]; done).
      assert (safe_counter (ingest r1 s0)) as Hs1
        by (unfold safe_counter; rewrite Hc1; simpl; lia).
      destruct (ingest_next r2 _ Hs1 Hb1 Ha2')
        as (_ & Hm2 & Ho2 & _ & Hc2 & _ & _).
      simpl in Hm1, Ho1, Hc1. rewrite Hc1, Hm1 in Hm2.
      rewrite Hc1, Ho1 in Ho2. rewrite Hc1 in Hc2.
      destruct (setData_returns [r1; r2] k1 s0)
        as (v & s' & Hrun & Hmax & _ & Hm & Ho & _).
      assert (rowMap s' = <[2 := stamp 2 r2]> {[1 := stamp 1 r1]}) as Hm'.
      { rewrite Hm. unfold loaded, ingestAll. simpl.
        destruct k1; simpl; exact Hm2. }
      exists v, s'. split; [done|]. split; [done|]. split.
      * rewrite Ho. unfold loaded, ingestAll. simpl.
        destruct k1; simpl; exact Ho2.
      * apply counter_is_max_unique; [done|..]; rewrite Hm'.
        -- rewrite lookup_insert_eq. by eexists.
        -- intros k. rewrite lookup_insert_is_Some.
           intros [<-|[_ [x Hx]]]; [lia|].
           apply lookup_singleton_Some in Hx as [<- _]. lia.
Qed.

(** An empty store does not by itself mean id 1: after one record was
    ingested and removed again the map is empty and the counter still 1,
    so the next record without id is stored under 2. *)
Lemma empty_store_does_not_restart_ids :
  let s0 := constructor unmarked None None false in
  let s1 := state_of (setData [{[ "name" := VString "A" ]}] false s0) in
  let s2 := state_of (removeRow (VNumber (Int 1)) s1) in
  let s3 := state_of (setData [{[ "name" := VString "B" ]}] false s2) in
  rowMap s2 = ∅ ∧ order s2 = [] ∧ idField s2 = None
  ∧ anonymous s2 {[ "name" := VString "B" ]}
  ∧ keys (rowMap s3) = [2] ∧ rowMap s3 !! 1 = None.
Proof. vm_compute. done. Qed.

Lemma counter_after_setData_witness :
  let s0 := constructor unmarked None None false in
  let a : row := {[ "name" := VString "A" ]} in
  let b : row := {[ "name" := VString "B" ]} in
  (∃ v s', setData [a] true s0 = Return v s'
           ∧ rowMap s0 !! (rowIdCounter s0 + 1) = None
           ∧ rowMap s' = <[rowIdCounter s0 + 1 := stamp (rowIdCounter s0 + 1) a]>
                           (rowMap s0)
           ∧ rowIdCounter s' = rowIdCounter s0 + 1)
  ∧ (∃ v s', setData [a; b] false s0 = Return v s'
             ∧ rowMap s' = <[2 := stamp 2 b]> {[1 := stamp 1 a]}
             ∧ order s' = [1; 2] ∧ rowIdCounter s' = 2).
Proof.
  intros s0 a b.
  pose proof (counter_after_setData [] true s0 a unmarked None None false a b
                false false)
    as (_ & Hnext & Hscenario).
  split.
  - apply Hnext.
    + unfold safe_counter. simpl. lia.
    + split; [|split; constructor]. intros k [x Hx]. vm_compute in Hx.
      discriminate.
    + vm_compute. done.
  - apply Hscenario; vm_compute; done.
Defined.

(** ** C6 and C7: the paginator *)

Section Paginator.

(** For a positive page size [Math.ceil(len / perPage)] is the integer
    ceiling of the quotient. *)
Lemma Math_ceil_div_spec len b :
  0 < b →
  ∃ c, Math_ceil_div len b = Finite c
       ∧ b * (c - 1) < Z.of_nat len ≤ b * c.
Proof.
  intros Hb. unfold Math_ceil_div.
  destruct (Z.eqb_spec b 0) as [->|_]; [lia|].
  exists (- (- Z.of_nat len / b)). split; [done|].
  pose proof (Z.mul_div_le (- Z.of_nat len) b Hb).
  pose proof (Z.mul_succ_div_gt (- Z.of_nat len) b Hb).
  lia.
Qed.

Lemma or_one_spec c : or_one (Finite c) = Pages (if c =? 0 then 1 else c).
Proof. simpl. by destruct (c =? 0). Qed.

Lemma getTotalPages_positive s pg :
  pagination s = Some pg → 0 < perPage pg →
  ∃ c, perPage pg * (c - 1) < Z.of_nat (length (filteredOrder s))
                              ≤ perPage pg * c
       ∧ 0 ≤ c
       ∧ getTotalPages s = Return (Pages (Z.max 1 c)) s.
Proof.
  intros Hpg Hpos.
  destruct (Math_ceil_div_spec (length (filteredOrder s)) _ Hpos)
    as (c & Hc & Hlo & Hhi).
  assert (0 ≤ c) as Hc0 by nia.
  exists c. split; [done|]. split; [done|].
  rewrite (getTotalPages_run _ _ Hpg), Hc, or_one_spec.
  do 2 f_equal. destruct (Z.eqb_spec c 0); lia.
Qed.

Lemma slice_length {A} (l : list A) start n :
  0 ≤ n → (length (slice l start (start + n)) ≤ Z.to_nat n)%nat.
Proof.
  intros Hn. unfold slice, slice_index. rewrite length_take.
  destruct (Z.ltb_spec start 0), (Z.ltb_spec (start + n) 0); lia.
Qed.

Lemma slice_sublist {A} (l : list A) a b : slice l a b `sublist_of` l.
Proof.
  unfold slice. etrans; [apply sublist_take | apply sublist_drop].
Qed.

Lemma slice_take_drop {A} (l : list A) a n :
  0 ≤ a → 0 ≤ n →
  slice l a (a + n) = take (Z.to_nat n) (drop (Z.to_nat a) l).
Proof.
  intros Ha Hn. unfold slice, slice_index.
  destruct (Z.ltb_spec a 0); [lia|].
  destruct (Z.ltb_spec (a + n) 0); [lia|].
  destruct (Z.le_gt_cases (Z.of_nat (length l)) a) as [Hge|Hlt].
  - rewrite !drop_ge by lia. by rewrite !take_nil.
  - rewrite (Z.min_l a) by lia.
    destruct (Z.le_gt_cases (a + n) (Z.of_nat (length l))) as [Hle|Hgt].
    + rewrite (Z.min_l (a + n)) by lia. do 2 f_equal. lia.
    + rewrite (Z.min_r (a + n)) by lia.
      rewrite !take_ge; [done|rewrite length_drop; lia..].
Qed.

Lemma slice_past_end {A} (l : list A) a n :
  Z.of_nat (length l) ≤ a → slice l a (a + n) = [].
Proof.
  intros Ha. unfold slice, slice_index.
  destruct (Z.ltb_spec a 0); [lia|].
  rewrite drop_ge by lia. apply take_nil.
Qed.

End Paginator.

(** C6.  With a positive [perPage], [getTotalPages] returns the ceiling of
    [filteredOrder.length / perPage], the integer [c] with
    [perPage * (c - 1) < length <= perPage * c], raised to 1 when it is 0:
    for an empty [filteredOrder] the result is exactly 1. *)
Theorem getTotalPages_ceiling (s : MyTableJs) (pg : Pagination) :
  pagination s = Some pg → 0 < perPage pg →
  ∃ c total,
    perPage pg * (c - 1) < Z.of_nat (length (filteredOrder s)) ≤ perPage pg * c
    ∧ total = Z.max 1 c
    ∧ getTotalPages s = Return (Pages total) s
    ∧ 1 ≤ total
    ∧ (filteredOrder s = [] → total = 1)
    ∧ (filteredOrder s ≠ [] → total = c).
Proof.
  intros Hpg Hpos.
  destruct (getTotalPages_positive s pg Hpg Hpos) as (c & Hc & Hc0 & Hrun).
  exists c, (Z.max 1 c). split; [done|]. split; [done|]. split; [done|].
  split; [lia|]. split.
  - intros He. rewrite He in Hc. simpl in Hc. nia.
  - intros Hne. destruct (filteredOrder s); [done|]. simpl in Hc. nia.
Qed.

Lemma getTotalPages_ceiling_witness :
  let pg := {| page := None; perPage := 2 |} in
  let s := constructor unmarked None (Some pg) false in
  let s3 := set_filteredOrder [1; 2; 3] s in
  getTotalPages s = Return (Pages 1) s
  ∧ getTotalPages s3 = Return (Pages 2) s3.
Proof.
  intros pg s s3. split.
  - destruct (getTotalPages_ceiling s pg eq_refl ltac:(simpl; lia))
      as (c & total & _ & _ & Hrun & _ & Hempty & _).
    by rewrite Hrun, (Hempty eq_refl).
  - destruct (getTotalPages_ceiling s3 pg eq_refl ltac:(simpl; lia))
      as (c & total & Hc & _ & Hrun & _ & _ & Hne).
    rewrite Hrun, (Hne ltac:(discriminate)). simpl in Hc.
    do 2 f_equal. lia.
Defined.

(** C7.  With pagination configured [setPage n] returns for every integer
    [n]; with a positive [perPage] the page it stores is [n] clamped into
    [1 .. getTotalPages()]: 1 below the range, the total above it.
    [getPaginatedOrder] returns
    [filteredOrder.slice((page-1)*perPage, (page-1)*perPage + perPage)]:
    always a run of at most [perPage] consecutive ids of [filteredOrder],
    the ids from [(page-1)*perPage] on for a page of 1 or more, and nothing
    when that start lies past the end. *)
Theorem setPage_clamps_and_slices (n : Z) (s : MyTableJs) (pg : Pagination) :
  pagination s = Some pg →
  returns (setPage n s)
  ∧ (0 < perPage pg →
     ∃ total s',
       getTotalPages s = Return (Pages total) s ∧ 1 ≤ total
       ∧ setPage n s = Return tt s'
       ∧ pagination s'
         = Some {| page := Some (if n <? 1 then 1
                                 else if total <? n then total else n);
                   perPage := perPage pg |}
       ∧ rowMap s' = rowMap s ∧ order s' = order s
       ∧ filteredOrder s' = filteredOrder s)
  ∧ (let p := default 1 (page pg) in
     let start := (p - 1) * perPage pg in
     let shown := slice (filteredOrder s) start (start + perPage pg) in
     getPaginatedOrder s = Return shown s
     ∧ shown `sublist_of` filteredOrder s
     ∧ (0 ≤ perPage pg → (length shown ≤ Z.to_nat (perPage pg))%nat)
     ∧ (1 ≤ p → 0 ≤ perPage pg →
        shown = take (Z.to_nat (perPage pg))
                  (drop (Z.to_nat start) (filteredOrder s)))
     ∧ (Z.of_nat (length (filteredOrder s)) ≤ start → shown = [])).
Proof.
  intros Hpg. split; [|split].
  - by destruct (setPage_run n s pg Hpg) as (s' & -> & _).
  - intros Hpos.
    destruct (getTotalPages_positive s pg Hpg Hpos) as (c & _ & Hc0 & Htot).
    destruct (setPage_run n s pg Hpg) as (s' & Hrun & Hpage & Hsame).
    exists (Z.max 1 c), s'. split; [done|]. split; [lia|]. split; [done|].
    destruct Hsame as (_ & Hm & Ho & Hf & _). split; [|done].
    rewrite Hpage. rewrite (getTotalPages_run _ _ Hpg) in Htot.
    injection Htot as ->. do 3 f_equal. unfold clamp_page.
    destruct (Z.ltb_spec n 1); [lia|].
    destruct (Z.ltb_spec (Z.max 1 c) n); lia.
  - intros p start shown. split; [by apply getPaginatedOrder_run|].
    split; [apply slice_sublist|]. split; [by apply slice_length|].
    split.
    + intros Hp Hn. apply slice_take_drop; [nia | done].
    + apply slice_past_end.
Qed.

Lemma setPage_clamps_and_slices_witness :
  let pg := {| page := Some 2; perPage := 2 |} in
  let s := set_filteredOrder [1; 2; 3] (constructor unmarked None (Some pg) false) in
  (∃ s', setPage 9 s = Return tt s'
         ∧ pagination s' = Some {| page := Some 2; perPage := 2 |})
  ∧ (∃ s', setPage (-4) s = Return tt s'
           ∧ pagination s' = Some {| page := Some 1; perPage := 2 |})
  ∧ getPaginatedOrder s = Return [3] s.
Proof.
  intros pg s. split; [|split].
  - destruct (proj1 (proj2 (setPage_clamps_and_slices 9 s pg eq_refl))
                ltac:(simpl; lia))
      as (total & s' & Htot & _ & Hrun & Hpage & _).
    exists s'. split; [exact Hrun|]. rewrite Hpage.
    vm_compute in Htot. injection Htot as <-. reflexivity.
  - destruct (proj1 (proj2 (setPage_clamps_and_slices (-4) s pg eq_refl))
                ltac:(simpl; lia))
      as (total & s' & Htot & _ & Hrun & Hpage & _).
    exists s'. split; [exact Hrun|]. rewrite Hpage. reflexivity.
  - exact (proj1 (proj2 (proj2 (setPage_clamps_and_slices 0 s pg eq_refl)))).
Defined.

(** ** C8: exceptions *)

(** C8 fails on the code.  [resetFilter] reads
    [this.thead.querySelectorAll] without a guard, so in a widget to which
    [renderHeader] has bound no header it throws a [TypeError], after it
    has copied [order] into [filteredOrder] and before any input is cleared
    or anything redrawn.  A table whose markup already holds a [thead]
    never gets a header bound, since [renderHeader] returns [null] there.
    [setPage] and [getTotalPages] throw as well when the [pagination]
    option was not given. *)
Theorem resetFilter_throws_without_header (tpl : row → option string)
    (idf : option string) (pg : option Pagination) (hasThead : bool)
    (h : Header) (n : Z) :
  let s := constructor tpl idf pg hasThead in
  resetFilter s = Throw s
  ∧ ¬ returns (resetFilter s)
  ∧ renderHeader (Some h) (constructor tpl idf pg true)
    = Return None (constructor tpl idf pg true)
  ∧ setPage n (constructor tpl idf None hasThead)
    = Throw (constructor tpl idf None hasThead).
Proof.
  intros s. split; [|split; [|split]].
  - by rewrite resetFilter_unbound.
  - rewrite resetFilter_unbound by done. simpl. tauto.
  - reflexivity.
  - by apply setPage_throws.
Qed.

(** The same after data was ingested and filtered: the call throws and
    leaves [filteredOrder] reset, the table not redrawn. *)
Lemma resetFilter_throws_after_filter :
  let alice : row := {[ "id" := VNumber (Int 1); "name" := VString "Alice" ]} in
  let bob : row := {[ "id" := VNumber (Int 2); "name" := VString "Bob" ]} in
  let s1 := state_of (setData [alice; bob] false (constructor unmarked None None false)) in
  let s2 := state_of (filterTable
                        [{| column := "name"; value := "bob"; mode := "AND" |}]
                        s1) in
  filteredOrder s2 = [2] ∧ tbody s2 = ["2"]
  ∧ resetFilter s2 = Throw (set_filteredOrder [1; 2] s2)
  ∧ tbody (state_of (resetFilter s2)) = ["2"].
Proof. vm_compute. done. Qed.

(** * More of the class *)

(** ** The [data-id] of a row leads back to its key *)

Section DataId.

Import Str.

Lemma digits_string_of_uint d acc :
  digits acc (NilEmpty.string_of_uint d) = Some (uint_value acc d).
Proof.
  revert acc. induction d; intros acc; simpl; [done|..];
    rewrite IHd; f_equal; f_equal; lia.
Qed.

Lemma uint_value_acc d (acc : positive) :
  uint_value (Z.pos acc) d = Z.pos (Pos.of_uint_acc d acc).
Proof.
  revert acc. induction d; intros acc; simpl; [done|..];
    match goal with
    | |- uint_value ?z _ = _ =>
        first [ change z with (Z.pos (Pos.mul 10 acc))
              | change z with (Z.pos (Pos.mul 10 acc) + 1)
              | idtac ]
    end.
  all: try (rewrite IHd; reflexivity).
  all: match goal with
       | |- uint_value ?z _ = Z.pos (Pos.of_uint_acc _ ?a) =>
           replace z with (Z.pos a) by lia; apply IHd
       end.
Qed.

Lemma uint_value_of_uint d : uint_value 0 d = Z.of_N (Pos.of_uint d).
Proof.
  induction d; simpl; try done;
    match goal with
    | |- uint_value ?z _ = _ =>
        let k := eval cbv in z in
        match k with
        | Z.pos ?p => change z with (Z.pos p); apply uint_value_acc
        end
    end.
Qed.

Lemma trim_no_space s : no_space s = true → trim s = s.
Proof.
  intros H. unfold trim.
  assert (trimStart s = s) as ->.
  { destruct s as [|c s]; simpl in *; [done|].
    apply andb_true_iff in H as [Hc _]. by destruct (is_space c). }
  induction s as [|c s IH]; simpl in *; [done|].
  apply andb_true_iff in H as [Hc Hs]. rewrite (IH Hs).
  by destruct (is_space c).
Qed.

Lemma no_space_uint d : no_space (NilEmpty.string_of_uint d) = true.
Proof. induction d; simpl; try done; exact IHd. Qed.

(** The first character of a numeral is neither a sign nor absent. *)
Lemma unsigned_numeral d :
  d ≠ Decimal.Nil →
  ∃ c t, NilEmpty.string_of_uint d = String c t
         ∧ c ≠ "-"%char ∧ c ≠ "+"%char
         ∧ unsigned (String c t) = Int (uint_value 0 d).
Proof.
  intros Hd.
  assert (unsigned (NilEmpty.string_of_uint d) = Int (uint_value 0 d)) as Hu.
  { unfold unsigned. rewrite digits_string_of_uint. by destruct d. }
  destruct d; [done|..]; simpl in *; eexists _, _;
    (split; [reflexivity|]); (split; [discriminate|]);
    (split; [discriminate|]); exact Hu.
Qed.

Lemma toNumber_numeral d :
  d ≠ Decimal.Nil →
  toNumber (NilEmpty.string_of_uint d) = Int (uint_value 0 d).
Proof.
  intros Hd.
  assert (integer (NilEmpty.string_of_uint d) = Int (uint_value 0 d)) as Hi;
    [|by unfold toNumber; rewrite Hi].
  unfold integer.
  rewrite (trim_no_space _ (no_space_uint d)).
  destruct (unsigned_numeral d Hd) as (c & t & -> & Hm & Hp & Hu).
  rewrite <- Hu.
  destruct c as [[] [] [] [] [] [] [] []]; try reflexivity; congruence.
Qed.

Lemma toNumber_minus_numeral d :
  d ≠ Decimal.Nil →
  toNumber (String "-" (NilEmpty.string_of_uint d))
  = Int (- uint_value 0 d).
Proof.
  intros Hd.
  assert (integer (String "-" (NilEmpty.string_of_uint d))
          = Int (- uint_value 0 d)) as Hi;
    [|by unfold toNumber; rewrite Hi].
  unfold integer. rewrite trim_no_space.
  - destruct (unsigned_numeral d Hd) as (c & t & Heq & _ & _ & Hu).
    rewrite Heq, Hu. done.
  - simpl. apply no_space_uint.
Qed.

Lemma string_of_uint_nonnil d :
  d ≠ Decimal.Nil → NilZero.string_of_uint d = NilEmpty.string_of_uint d.
Proof. by destruct d. Qed.

(** [Number(String(z))] is [z]. *)
Lemma toNumber_ofZ z : toNumber (ofZ z) = Int z.
Proof.
  unfold ofZ. destruct z as [|p|p]; simpl; [done|..];
    pose proof (DecimalPos.Unsigned.to_uint_nonnil p) as Hn;
    rewrite (string_of_uint_nonnil _ Hn).
  - by rewrite (toNumber_numeral _ Hn), uint_value_of_uint,
      DecimalPos.Unsigned.of_to.
  - by rewrite (toNumber_minus_numeral _ Hn), uint_value_of_uint,
      DecimalPos.Unsigned.of_to.
Qed.

Lemma ofZ_inj z z' : ofZ z = ofZ z' → z = z'.
Proof.
  intros H. pose proof (toNumber_ofZ z) as Hz. rewrite H, toNumber_ofZ in Hz.
  congruence.
Qed.

End DataId.

(** ** More on the filter pass *)

Section FilterMore.

Import FilterSpec.

(** The callback of [order.filter], with the loop replaced by what it
    leaves in the three arrays. *)
Lemma keep_id_groups rows filters id :
  keep_id rows filters id
  = match rows !! id with
    | None => false
    | Some r =>
        every_or_true (map (matchb r) (group "AND" filters))
        && some_or_true (map (matchb r) (group "OR" filters))
        && every_or_true (map (λ f, negb (matchb r f)) (group "NOT" filters))
    end.
Proof.
  unfold keep_id. destruct (rows !! id) as [r|]; [|done]. simpl.
  match goal with |- context [fold_left ?f ?l ?c] =>
    destruct (classify_fold r filters c) as (-> & -> & ->) end.
  done.
Qed.

Lemma group_app m l1 l2 : group m (l1 ++ l2) = group m l1 ++ group m l2.
Proof. unfold group. apply List.filter_app. Qed.

Lemma group_cons_other m f l :
  String.eqb (mode f) m = false → group m (f :: l) = group m l.
Proof. intros H. unfold group. simpl. rewrite H, andb_false_r. done. Qed.

Lemma group_cons_same m f l :
  Str.is_empty (value f) = false → String.eqb (mode f) m = true →
  group m (f :: l) = f :: group m l.
Proof. intros Hv H. unfold group. simpl. by rewrite Hv, H. Qed.

Lemma group_cons_empty m f l :
  Str.is_empty (value f) = true → group m (f :: l) = group m l.
Proof. intros H. unfold group. simpl. by rewrite H. Qed.

Lemma group_idle m filters :
  m = "AND" ∨ m = "OR" ∨ m = "NOT" →
  Forall idle filters → group m filters = [].
Proof.
  intros Hm. induction 1 as [|f l Hf _ IH]; [done|].
  destruct Hf as [He|(Ha & Ho & Hn)].
  - by rewrite group_cons_empty.
  - rewrite group_cons_other; [done|]. apply String.eqb_neq.
    destruct Hm as [->|[->| ->]]; done.
Qed.

Lemma every_or_true_forallb a : every_or_true a = forallb id a.
Proof. by destruct a. Qed.

Lemma list_filter_impl {A} (p q : A → bool) (l : list A) :
  (∀ x, x ∈ l → p x = true → q x = true) →
  List.filter p l `sublist_of` List.filter q l.
Proof.
  induction l as [|x l IH]; intros H; simpl; [constructor|].
  assert (List.filter p l `sublist_of` List.filter q l) as IH'.
  { apply IH. intros y Hy. apply H. by right. }
  destruct (p x) eqn:Hp.
  - rewrite (H x ltac:(by left) Hp). by constructor.
  - destruct (q x); [by constructor | done].
Qed.

Lemma list_filter_all {A} (p : A → bool) (l : list A) :
  Forall (λ x, p x = true) l → List.filter p l = l.
Proof.
  induction 1 as [|x l Hx _ IH]; simpl; [done|]. by rewrite Hx, IH.
Qed.

Lemma list_filter_none {A} (p : A → bool) (l : list A) :
  (∀ x, x ∈ l → p x = false) → List.filter p l = [].
Proof.
  induction l as [|x l IH]; intros H; simpl; [done|].
  rewrite (H x ltac:(by left)). apply IH. intros y Hy. apply H. by right.
Qed.

(** A value that is not empty but holds no token, such as [","], matches
    no row. *)
Lemma matchb_no_token r f : tokens (value f) = [] → matchb r f = false.
Proof.
  intros H. unfold matchb, matches. by rewrite words_tokens, H.
Qed.

End FilterMore.

(** X1.  A filter array in which every entry has an empty value or a mode
    other than AND, OR and NOT filters nothing out: [filterTable] keeps
    every id of [order] that has a row, which in a store that satisfies its
    invariant is all of [order]. *)
Theorem filter_without_conditions (filters : list FilterEntry)
    (s : MyTableJs) :
  Forall idle filters →
  ∃ s', filterTable filters s = Return (filteredOrder s') s'
        ∧ (∀ id, id ∈ filteredOrder s'
                 ↔ id ∈ order s ∧ is_Some (rowMap s !! id))
        ∧ (invariant s → filteredOrder s' = order s).
Proof.
  intros Hidle.
  destruct (filterTable_run filters s) as (s' & Hrun & Hsame).
  destruct Hsame as (_ & _ & _ & Hf & _). simpl in Hf.
  assert (∀ id, keep_id (rowMap s) filters id
                = bool_decide (is_Some (rowMap s !! id))) as Hkeep.
  { intros id. rewrite keep_id_groups.
    rewrite !group_idle by auto. by destruct (rowMap s !! id). }
  exists s'. rewrite Hf. split; [done|]. split.
  - intros id. rewrite list_filter_elem_of, Hkeep, bool_decide_eq_true. done.
  - intros [_ Hkeys _ _ _]. apply list_filter_all.
    eapply Forall_impl; [exact Hkeys|]. intros id Hid. simpl.
    rewrite Hkeep. by apply bool_decide_eq_true.
Qed.

Lemma filter_without_conditions_witness :
  let alice : row := {[ "id" := VNumber (Int 1); "name" := VString "Alice" ]} in
  let bob : row := {[ "id" := VNumber (Int 2); "name" := VString "Bob" ]} in
  let s := state_of (setData [alice; bob] false (constructor unmarked None None false)) in
  let filters := [ {| column := "name"; value := ""; mode := "AND" |};
                   {| column := "name"; value := "zzz"; mode := "XOR" |} ] in
  ∃ s', filterTable filters s = Return (filteredOrder s') s'
        ∧ filteredOrder s' = [1; 2].
Proof.
  intros alice bob s filters.
  destruct (filter_without_conditions filters s) as (s' & Hrun & _ & Hall).
  - constructor; [by left|]. constructor; [|constructor].
    right. repeat split; discriminate.
  - exists s'. split; [exact Hrun|]. rewrite (Hall
      (setData_invariant [alice; bob] false _ (invariant_new unmarked None None false))).
    reflexivity.
Defined.

(** X2.  A value that is not empty but holds no token (only commas and
    white space, such as [","]) matches no row: with the mode AND such an
    entry empties the result whatever the other entries are, and with the
    mode NOT it excludes nothing. *)
Theorem filter_value_without_tokens (f : FilterEntry)
    (before after : list FilterEntry) (s : MyTableJs) :
  Str.is_empty (value f) = false →
  FilterSpec.tokens (value f) = [] →
  (mode f = "AND" →
   ∃ s', filterTable (before ++ f :: after) s = Return [] s'
         ∧ filteredOrder s' = [])
  ∧ (mode f = "NOT" →
     ∃ s1 s2, filterTable (before ++ f :: after) s = Return (filteredOrder s1) s1
              ∧ filterTable (before ++ after) s = Return (filteredOrder s2) s2
              ∧ filteredOrder s1 = filteredOrder s2).
Proof.
  intros Hv Htok. split; intros Hmode.
  - destruct (filterTable_run (before ++ f :: after) s) as (s' & Hrun & Hsame).
    destruct Hsame as (_ & _ & _ & Hf & _). simpl in Hf.
    assert (List.filter (keep_id (rowMap s) (before ++ f :: after)) (order s)
            = []) as Hnil.
    { apply list_filter_none. intros k _. rewrite keep_id_groups.
      destruct (rowMap s !! k) as [r|]; [|done].
      rewrite group_app, group_cons_same by (by rewrite ?Hmode).
      rewrite map_app, every_or_true_forallb, forallb_app. simpl.
      unfold id at 2. rewrite (matchb_no_token r f Htok).
      by rewrite andb_false_r. }
    exists s'. rewrite Hrun, Hf, Hnil. done.
  - destruct (filterTable_run (before ++ f :: after) s) as (s1 & Hrun1 & Hs1).
    destruct (filterTable_run (before ++ after) s) as (s2 & Hrun2 & Hs2).
    destruct Hs1 as (_ & _ & _ & Hf1 & _). destruct Hs2 as (_ & _ & _ & Hf2 & _).
    simpl in Hf1, Hf2. exists s1, s2. rewrite Hf1, Hf2.
    split; [done|]. split; [done|]. apply filter_ext. intros k.
    rewrite !keep_id_groups. destruct (rowMap s !! k) as [r|]; [|done].
    rewrite !group_app.
    rewrite (group_cons_other "AND"), (group_cons_other "OR")
      by (by rewrite Hmode).
    rewrite (group_cons_same "NOT") by (by rewrite ?Hmode).
    rewrite !map_app, !every_or_true_forallb, !forallb_app. simpl.
    unfold id at 4. by rewrite (matchb_no_token r f Htok).
Qed.

Lemma filter_value_without_tokens_witness :
  let alice : row := {[ "id" := VNumber (Int 1); "name" := VString "Alice" ]} in
  let s := state_of (setData [alice] false (constructor unmarked None None false)) in
  ∃ s', filterTable [ {| column := "name"; value := " , "; mode := "AND" |} ] s
        = Return [] s'.
Proof.
  intros alice s.
  destruct (proj1 (filter_value_without_tokens
                     {| column := "name"; value := " , "; mode := "AND" |}
                     [] [] s eq_refl eq_refl) eq_refl)
    as (s' & Hrun & _).
  by exists s'.
Defined.

(** X3.  For one entry with a value, the modes AND and NOT split the rows
    between them: an id of [order] that has a row is kept by exactly one
    of the two passes.  A lone OR entry filters like the AND entry. *)
Theorem not_complements_and (col v : string) (s : MyTableJs) :
  Str.is_empty v = false →
  ∃ s1 s2 s3,
    filterTable [ {| column := col; value := v; mode := "AND" |} ] s
    = Return (filteredOrder s1) s1
    ∧ filterTable [ {| column := col; value := v; mode := "NOT" |} ] s
      = Return (filteredOrder s2) s2
    ∧ filterTable [ {| column := col; value := v; mode := "OR" |} ] s
      = Return (filteredOrder s3) s3
    ∧ (∀ id, id ∈ order s → is_Some (rowMap s !! id) →
             (id ∈ filteredOrder s1 ↔ id ∉ filteredOrder s2))
    ∧ (∀ id, id ∈ filteredOrder s1 → id ∉ filteredOrder s2)
    ∧ filteredOrder s3 = filteredOrder s1.
Proof.
  intros Hv.
  set (fa := {| column := col; value := v; mode := "AND" |}).
  set (fn := {| column := col; value := v; mode := "NOT" |}).
  set (fo := {| column := col; value := v; mode := "OR" |}).
  destruct (filterTable_run [fa] s) as (s1 & Hrun1 & (_ & _ & _ & Hf1 & _)).
  destruct (filterTable_run [fn] s) as (s2 & Hrun2 & (_ & _ & _ & Hf2 & _)).
  destruct (filterTable_run [fo] s) as (s3 & Hrun3 & (_ & _ & _ & Hf3 & _)).
  simpl in Hf1, Hf2, Hf3.
  assert (∀ k r, rowMap s !! k = Some r →
                 keep_id (rowMap s) [fa] k = matches r col v
                 ∧ keep_id (rowMap s) [fn] k = negb (matches r col v)
                 ∧ keep_id (rowMap s) [fo] k = matches r col v) as Hkeep.
  { intros k r Hr. rewrite !keep_id_groups, Hr. unfold FilterSpec.group.
    simpl. rewrite Hv. simpl. unfold matchb. simpl. unfold id.
    by destruct (matches r col v). }
  exists s1, s2, s3. rewrite Hf1, Hf2, Hf3.
  split; [done|]. split; [done|]. split; [done|]. split; [|split].
  - intros k Hin [r Hr]. destruct (Hkeep k r Hr) as (Ha & Hn & _).
    rewrite !list_filter_elem_of, Ha, Hn.
    destruct (matches r col v); simpl; split; try tauto.
    + intros _ [_ ?]. done.
    + intros [_ ?]. done.
  - intros k [Hin Hk]%list_filter_elem_of [_ Hk']%list_filter_elem_of.
    rewrite keep_id_groups in Hk. destruct (rowMap s !! k) as [r|] eqn:Hr;
      [|done].
    destruct (Hkeep k r Hr) as (Ha & Hn & _).
    rewrite keep_id_groups, Hr in Ha. rewrite Ha in Hk.
    rewrite Hn, Hk in Hk'. done.
  - apply filter_ext_in. intros k Hin. rewrite !keep_id_groups.
    destruct (rowMap s !! k) as [r|] eqn:Hr; [|done].
    destruct (Hkeep k r Hr) as (Ha & _ & Ho).
    rewrite keep_id_groups, Hr in Ha, Ho. by rewrite Ha, Ho.
Qed.

Lemma not_complements_and_witness :
  let alice : row := {[ "id" := VNumber (Int 1); "name" := VString "Alice" ]} in
  let bob : row := {[ "id" := VNumber (Int 2); "name" := VString "Bob" ]} in
  let s := state_of (setData [alice; bob] false (constructor unmarked None None false)) in
  ∃ s1 s2,
    filterTable [ {| column := "name"; value := "ali"; mode := "AND" |} ] s
    = Return (filteredOrder s1) s1
    ∧ filterTable [ {| column := "name"; value := "ali"; mode := "NOT" |} ] s
      = Return (filteredOrder s2) s2
    ∧ (1 ∈ filteredOrder s1 ↔ 1 ∉ filteredOrder s2).
Proof.
  intros alice bob s.
  destruct (not_complements_and "name" "ali" s eq_refl)
    as (s1 & s2 & s3 & H1 & H2 & _ & Hsplit & _).
  exists s1, s2. split; [exact H1|]. split; [exact H2|].
  apply Hsplit.
  - vm_compute. by left.
  - vm_compute. by eexists.
Defined.

(** X4.  An added AND or NOT entry never brings a row back: the result with
    the entry is a subsequence of the result without it. *)
Theorem more_conditions_fewer_rows (f : FilterEntry)
    (before after : list FilterEntry) (s : MyTableJs) :
  mode f = "AND" ∨ mode f = "NOT" →
  ∃ s1 s2,
    filterTable (before ++ f :: after) s = Return (filteredOrder s1) s1
    ∧ filterTable (before ++ after) s = Return (filteredOrder s2) s2
    ∧ filteredOrder s1 `sublist_of` filteredOrder s2.
Proof.
  intros Hmode.
  destruct (filterTable_run (before ++ f :: after) s)
    as (s1 & Hrun1 & (_ & _ & _ & Hf1 & _)).
  destruct (filterTable_run (before ++ after) s)
    as (s2 & Hrun2 & (_ & _ & _ & Hf2 & _)).
  simpl in Hf1, Hf2. exists s1, s2. rewrite Hf1, Hf2.
  split; [done|]. split; [done|].
  apply list_filter_impl. intros k _. rewrite !keep_id_groups.
  destruct (rowMap s !! k) as [r|]; [|done].
  rewrite !group_app.
  destruct (Str.is_empty (value f)) eqn:Hv.
  { by rewrite !group_cons_empty. }
  destruct Hmode as [Hm|Hm].
  - rewrite (group_cons_same "AND"), (group_cons_other "OR"),
      (group_cons_other "NOT") by (by rewrite ?Hm).
    rewrite !map_app, !every_or_true_forallb, !forallb_app. simpl.
    rewrite !andb_true_iff. tauto.
  - rewrite (group_cons_other "AND"), (group_cons_other "OR"),
      (group_cons_same "NOT") by (by rewrite ?Hm).
    rewrite !map_app, !every_or_true_forallb, !forallb_app. simpl.
    rewrite !andb_true_iff. tauto.
Qed.

Lemma more_conditions_fewer_rows_witness :
  let alice : row := {[ "id" := VNumber (Int 1); "name" := VString "Alice" ]} in
  let s := state_of (setData [alice] false (constructor unmarked None None false)) in
  ∃ s1 s2,
    filterTable [ {| column := "name"; value := "bob"; mode := "AND" |} ] s
    = Return (filteredOrder s1) s1
    ∧ filterTable [] s = Return (filteredOrder s2) s2
    ∧ filteredOrder s1 `sublist_of` filteredOrder s2.
Proof.
  intros alice s.
  exact (more_conditions_fewer_rows
           {| column := "name"; value := "bob"; mode := "AND" |} [] [] s
           (or_introl eq_refl)).
Defined.

(** ** More on the row store *)

Section StoreMore.

Lemma ingestAll_stamped rows s : ids_stamped s → ids_stamped (ingestAll rows s).
Proof.
  unfold ingestAll. revert s.
  induction rows as [|r rows IH]; intros s Hs; simpl; [done|].
  by apply IH, ingest_stamped.
Qed.

Lemma ids_stamped_same s s' :
  rowMap s' = rowMap s → ids_stamped s → ids_stamped s'.
Proof. unfold ids_stamped. by intros ->. Qed.

Lemma loaded_rowMap rows keep s :
  rowMap (loaded rows keep s) = rowMap (ingestAll rows s).
Proof. unfold loaded. by destruct keep. Qed.

Lemma setData_stamped rows keep s :
  ids_stamped s → ids_stamped (state_of (setData rows keep s)).
Proof.
  intros Hs.
  destruct (setData_returns rows keep s) as (v & s' & -> & _ & _ & Hm & _).
  simpl. apply (ids_stamped_same (ingestAll rows s)).
  - by rewrite Hm, loaded_rowMap.
  - by apply ingestAll_stamped.
Qed.

Lemma removeRow_stamped v s :
  ids_stamped s → ids_stamped (state_of (removeRow v s)).
Proof.
  intros Hs. destruct (unknown_or_known v s) as [Hu|(n & old & Hn & Hold)].
  { by rewrite (removeRow_unknown _ _ Hu). }
  destruct (removeRow_known v n s Hn ltac:(by eexists)) as (s' & -> & Hm & _).
  simpl. intros k r. rewrite Hm. intros [_ Hk]%lookup_delete_Some.
  by apply Hs.
Qed.

Lemma updateRow_stamped v d u s :
  ids_stamped s → ids_stamped (state_of (updateRow v d u s)).
Proof.
  intros Hs. destruct (unknown_or_known v s) as [Hu|(n & old & Hn & Hold)].
  { by rewrite (updateRow_unknown _ _ _ _ Hu). }
  destruct (updateRow_known v n d u s old Hn Hold) as (s' & -> & Hm & _).
  simpl. intros k r. rewrite Hm.
  destruct (decide (n = k)) as [->|Hne].
  - rewrite lookup_insert_eq. intros [= <-]. apply lookup_insert_eq.
  - rewrite lookup_insert_ne by done. apply Hs.
Qed.

Lemma filterTable_stamped filters s :
  ids_stamped s → ids_stamped (state_of (filterTable filters s)).
Proof.
  intros Hs. destruct (filterTable_run filters s) as (s' & -> & Hsame).
  destruct Hsame as (_ & Hm & _). simpl in *. by apply (ids_stamped_same s).
Qed.

Lemma resetFilter_stamped s :
  ids_stamped s → ids_stamped (state_of (resetFilter s)).
Proof.
  intros Hs. destruct (thead s) as [h|] eqn:Hh.
  - destruct (resetFilter_bound s h Hh) as (s' & -> & Hsame).
    destruct Hsame as (_ & Hm & _). simpl in *. by apply (ids_stamped_same s).
  - by rewrite (resetFilter_unbound s Hh).
Qed.

Lemma setPage_stamped n s :
  ids_stamped s → ids_stamped (state_of (setPage n s)).
Proof.
  intros Hs. destruct (pagination s) as [pg|] eqn:Hpg.
  - destruct (setPage_run n s pg Hpg) as (s' & -> & _ & Hsame).
    destruct Hsame as (_ & Hm & _). simpl. by apply (ids_stamped_same s).
  - by rewrite (setPage_throws n s Hpg).
Qed.

Lemma bind_state_of {A} (m : M A) s :
  state_of (bind m (λ _, ret tt) s) = state_of (m s).
Proof. unfold bind, ret. by destruct (m s). Qed.

Lemma replace_first_same d l : replace_first d d l = l.
Proof.
  induction l as [|x l IH]; simpl; [done|].
  destruct (String.eqb_spec x d) as [->|_]; [done | by rewrite IH].
Qed.

(** [updateRow] on a key of the map, drawn rows included: the element
    swapped in carries the [data-id] of the one it replaces. *)
Lemma renderRow_unmarked s r :
  unmarked_rows s → renderRow s r = String_ (prop r "id").
Proof. intros H. unfold renderRow. by destruct (H r) as [-> | ->]. Qed.

Lemma updateRow_tbody v n d u s old :
  u = false ∨ unmarked_rows s →
  Number v = Int n → rowMap s !! n = Some old →
  tbody (state_of (updateRow v d u s)) = tbody s.
Proof.
  intros Hu Hn Hx. unfold updateRow. run_M. rewrite Hn, Hx.
  destruct u; simpl; [|done]. destruct Hu as [|Hu]; [done|].
  rewrite renderRow_unmarked by (intros r; apply Hu).
  unfold prop. rewrite lookup_insert_eq. simpl.
  apply replace_first_same.
Qed.

End StoreMore.

(** X5.  Whatever the caller passes, the [id] property of a stored row is
    the key it is stored under: [setData], [removeRow], [updateRow] (also
    when [newData] carries an [id] of its own), [filterTable],
    [resetFilter], [setPage] and the two listeners of the body keep it
    so. *)
Theorem row_ids_are_keys (s : MyTableJs) (rows : list row) (keep : bool)
    (v : jsval) (newData : row) (u : bool) (filters : list FilterEntry)
    (n : Z) (d : string) (els : list RowInput) :
  ids_stamped s →
  ids_stamped (state_of (setData rows keep s))
  ∧ ids_stamped (state_of (removeRow v s))
  ∧ ids_stamped (state_of (updateRow v newData u s))
  ∧ ids_stamped (state_of (filterTable filters s))
  ∧ ids_stamped (state_of (resetFilter s))
  ∧ ids_stamped (state_of (setPage n s))
  ∧ ids_stamped (state_of (onBodyClick (RemoveControl (Some d)) s))
  ∧ ids_stamped (state_of (onBodyInput (Some (d, els)) s)).
Proof.
  intros Hs. split; [by apply setData_stamped|].
  split; [by apply removeRow_stamped|].
  split; [by apply updateRow_stamped|].
  split; [by apply filterTable_stamped|].
  split; [by apply resetFilter_stamped|].
  split; [by apply setPage_stamped|]. split.
  - unfold onBodyClick. rewrite bind_state_of. by apply removeRow_stamped.
  - unfold onBodyInput. rewrite bind_state_of. by apply updateRow_stamped.
Qed.

Lemma row_ids_are_keys_witness :
  let alice : row := {[ "id" := VNumber (Int 1); "name" := VString "Alice" ]} in
  let s := state_of (setData [alice] false (constructor unmarked None None false)) in
  let edit := [ {| dataColumn := Some "id"; elementValue := "99" |} ] in
  ids_stamped (state_of (onBodyInput (Some ("1", edit)) s))
  ∧ (rowMap (state_of (onBodyInput (Some ("1", edit)) s)) !! 1)
      ≫= (λ r, r !! "id") = Some (VNumber (Int 1)).
Proof.
  intros alice s edit. split; [|reflexivity].
  assert (ids_stamped s) as Hs by apply setData_stamped, ids_stamped_new.
  destruct (row_ids_are_keys s [] false VNull ∅ false [] 1 "1" edit Hs)
    as (_ & _ & _ & _ & _ & _ & _ & H).
  exact H.
Defined.

(** X6.  [updateRow] on a known id returns [true] and merges: a property
    [newData] mentions takes its value, any other keeps the stored one,
    [id] stays the key even when [newData] names another; the other rows,
    both arrays and the counter are as before.  The [data-id]s of the
    drawn rows are as before when [updateElement] is not set, and also
    when it is set and the template leaves the [data-id] to the widget.
    The id is a value that [Number] reads exactly. *)
Theorem updateRow_merges (v : jsval) (n : Z) (newData old : row) (u : bool)
    (s : MyTableJs) :
  exactly_read v = true →
  Number v = Int n → rowMap s !! n = Some old →
  ∃ s' updated,
    updateRow v newData u s = Return true s'
    ∧ rowMap s' = <[n := updated]> (rowMap s)
    ∧ (∀ k x, newData !! k = Some x → k ≠ "id" → updated !! k = Some x)
    ∧ (∀ k, newData !! k = None → k ≠ "id" → updated !! k = old !! k)
    ∧ updated !! "id" = Some (VNumber (Int n))
    ∧ (∀ k, k ≠ n → rowMap s' !! k = rowMap s !! k)
    ∧ order s' = order s ∧ filteredOrder s' = filteredOrder s
    ∧ rowIdCounter s' = rowIdCounter s
    ∧ (u = false ∨ unmarked_rows s → tbody s' = tbody s).
Proof.
  intros _ Hn Hold.
  destruct (updateRow_known v n newData u s old Hn Hold)
    as (s' & Hrun & Hm & Ho & Hf & Hc & _).
  pose proof (λ Hu, updateRow_tbody v n newData u s old Hu Hn Hold) as Ht.
  rewrite Hrun in Ht. simpl in Ht.
  exists s', (<["id" := VNumber (Int n)]> (spread2 old newData)).
  split; [done|]. split; [done|]. unfold spread2.
  split; [|split; [|split; [|split]]]; try done.
  - intros k x Hk Hne. rewrite lookup_insert_ne by done.
    by apply lookup_union_Some_l.
  - intros k Hk Hne. rewrite lookup_insert_ne by done.
    by apply lookup_union_r.
  - apply lookup_insert_eq.
  - intros k Hk. rewrite Hm. by apply lookup_insert_ne.
Qed.

Lemma updateRow_merges_witness :
  let alice : row :=
    {[ "id" := VNumber (Int 1); "name" := VString "Alice";
       "age" := VNumber (Int 30) ]} in
  let s := state_of (setData [alice] false (constructor unmarked None None false)) in
  let patch : row := {[ "id" := VNumber (Int 5); "name" := VString "Al" ]} in
  ∃ s' updated,
    updateRow (VString "1") patch true s = Return true s'
    ∧ rowMap s' = <[1 := updated]> (rowMap s)
    ∧ updated !! "name" = Some (VString "Al")
    ∧ updated !! "age" = Some (VNumber (Int 30))
    ∧ updated !! "id" = Some (VNumber (Int 1))
    ∧ tbody s' = tbody s.
Proof.
  intros alice s patch.
  destruct (updateRow_merges (VString "1") 1 patch (stamp 1 alice) true s
              eq_refl eq_refl eq_refl)
    as (s' & updated & Hrun & Hm & Hnew & Hkeep & Hid & _ & _ & _ & _ & Ht).
  exists s', updated. split; [exact Hrun|]. split; [exact Hm|].
  split; [|split; [|split]].
  - apply Hnew; [reflexivity | discriminate].
  - rewrite (Hkeep "age"); [reflexivity | reflexivity | discriminate].
  - exact Hid.
  - apply Ht. right. intros r. by left.
Defined.



(** ** What [setData] keeps and adds *)

Section SetDataMore.

Lemma ingest_other r s k :
  k ≠ (resolveId r s).1 → rowMap (ingest r s) !! k = rowMap s !! k.
Proof.
  destruct (resolveId r s) as [id s1] eqn:Hres. simpl. intros Hne.
  pose proof (resolveId_store r s) as (_ & _ & Hm & _).
  rewrite Hres in Hm. simpl in Hm.
  destruct (rowMap s !! id) as [old|] eqn:Hold.
  - rewrite (ingest_existing _ _ _ _ _ Hres Hold). simpl. rewrite Hm.
    by rewrite lookup_insert_ne.
  - destruct (ingest_fresh _ _ _ _ Hres Hold) as (-> & _).
    by rewrite lookup_insert_ne.
Qed.

Lemma ingest_arrays r s :
  (order (ingest r s) = order s
   ∨ order (ingest r s) = order s ++ [(resolveId r s).1])
  ∧ (filteredOrder (ingest r s) = filteredOrder s
     ∨ filteredOrder (ingest r s) = filteredOrder s ++ [(resolveId r s).1]).
Proof.
  destruct (resolveId r s) as [id s1] eqn:Hres. simpl.
  pose proof (resolveId_store r s) as (_ & _ & Hm & Ho & Hf & _).
  rewrite Hres in Hm, Ho, Hf. simpl in Hm, Ho, Hf.
  destruct (rowMap s !! id) as [old|] eqn:Hold.
  - rewrite (ingest_existing _ _ _ _ _ Hres Hold). simpl. auto.
  - destruct (ingest_fresh _ _ _ _ Hres Hold) as (_ & -> & -> & _).
    destruct (arr_includes (order s) id),
      (arr_includes (filteredOrder s) id); auto.
Qed.

Lemma ingest_listed r s : listed s → listed (ingest r s).
Proof.
  intros Hl k Hk. apply ingest_keys in Hk.
  destruct (ingest_arrays r s) as [[Ho|Ho] _]; rewrite Ho.
  - destruct Hk as [->|Hk]; [|by apply Hl].
    destruct (resolveId r s) as [id s1] eqn:Hres. simpl in *.
    destruct (rowMap s !! id) as [old|] eqn:Hold.
    + apply Hl. by eexists.
    + destruct (ingest_fresh _ _ _ _ Hres Hold) as (_ & Ho' & _).
      destruct (arr_includes (order s) id) eqn:Hin.
      * by apply arr_includes_spec.
      * rewrite Ho' in Ho. apply (f_equal length) in Ho.
        rewrite length_app in Ho. simpl in Ho. lia.
  - apply elem_of_app. destruct Hk as [->|Hk].
    + right. by left.
    + left. by apply Hl.
Qed.

Lemma ingestAll_app rows r s :
  ingestAll (rows ++ [r]) s = ingest r (ingestAll rows s).
Proof. unfold ingestAll. by rewrite fold_left_app. Qed.

Lemma ingestAll_idField rows s : idField (ingestAll rows s) = idField s.
Proof.
  unfold ingestAll. revert s.
  induction rows as [|r rows IH]; intros s; simpl; [done|].
  rewrite IH. apply ingest_frame.
Qed.

Lemma ingestAll_grows rows s :
  (∀ k, is_Some (rowMap s !! k) → is_Some (rowMap (ingestAll rows s) !! k))
  ∧ order s `prefix_of` order (ingestAll rows s)
  ∧ filteredOrder s `prefix_of` filteredOrder (ingestAll rows s)
  ∧ (listed s → listed (ingestAll rows s)).
Proof.
  unfold ingestAll. revert s.
  induction rows as [|r rows IH]; intros s; simpl; [done|].
  destruct (IH (ingest r s)) as (Hk & Ho & Hf & Hl).
  destruct (ingest_arrays r s) as [Ho1 Hf1].
  split; [|split; [|split]].
  - intros k Hin. apply Hk, ingest_keys. by right.
  - etrans; [|exact Ho]. destruct Ho1 as [->| ->]; [done|].
    by apply prefix_app_r.
  - etrans; [|exact Hf]. destruct Hf1 as [->| ->]; [done|].
    by apply prefix_app_r.
  - intros H. by apply Hl, ingest_listed.
Qed.

Lemma id_value_idField r s s' :
  idField s' = idField s → id_value r s' = id_value r s.
Proof. unfold id_value, idFieldKey. by intros ->. Qed.

(** The row stored under the resolved id has the properties of the
    record. *)
Lemma ingest_fields r s :
  ∃ stored, rowMap (ingest r s) !! (resolveId r s).1 = Some stored
            ∧ stored !! "id" = Some (VNumber (Int (resolveId r s).1))
            ∧ ∀ k x, r !! k = Some x → k ≠ "id" → stored !! k = Some x.
Proof.
  destruct (resolveId r s) as [id s1] eqn:Hres. simpl.
  pose proof (resolveId_store r s) as (_ & _ & Hm & _).
  rewrite Hres in Hm. simpl in Hm.
  destruct (rowMap s !! id) as [old|] eqn:Hold.
  - rewrite (ingest_existing _ _ _ _ _ Hres Hold). simpl.
    rewrite lookup_insert_eq. eexists. split; [done|]. unfold spread2. split.
    + apply lookup_union_Some_l, lookup_insert_eq.
    + intros k x Hk Hne. apply lookup_union_Some_l.
      by rewrite lookup_insert_ne.
  - destruct (ingest_fresh _ _ _ _ Hres Hold) as (-> & _).
    rewrite lookup_insert_eq. eexists. split; [done|]. split.
    + apply lookup_insert_eq.
    + intros k x Hk Hne. by rewrite lookup_insert_ne.
Qed.

Lemma getRow_run v s :
  getRow v s
  = Return (match Number v with Int n => rowMap s !! n | NaN => None end) s.
Proof. unfold getRow. run_M. by destruct (Number v). Qed.

End SetDataMore.

(** X8.  [setData] never drops anything: every key of the row map is still
    a key, [order] is extended at its end only, and so is [filteredOrder]
    when [keepFilters] is set, so that rows ingested under a kept filter
    are shown whether they match it or not; without [keepFilters] the
    filtered view is the whole of [order]. *)
Theorem setData_only_adds (rows : list row) (keep : bool) (s : MyTableJs) :
  ∃ t s', setData rows keep s = Return t s'
          ∧ (∀ k, is_Some (rowMap s !! k) → is_Some (rowMap s' !! k))
          ∧ order s `prefix_of` order s'
          ∧ (if keep then filteredOrder s `prefix_of` filteredOrder s'
             else filteredOrder s' = order s')
          ∧ (∀ id, id ∈ order s' → id ∉ order s → id ∈ filteredOrder s').
Proof.
  destruct (setData_returns rows keep s)
    as (t & s' & Hrun & _ & _ & Hm & Ho & Hf).
  destruct (ingestAll_grows rows s) as (Hk & Hpo & Hpf & _).
  exists t, s'. split; [done|]. rewrite Hm, Ho, Hf, loaded_rowMap.
  unfold loaded. split; [done|]. destruct keep; simpl.
  - split; [done|]. split; [done|].
    intros id Hin Hnot.
    (* new ids are appended to both arrays, one turn after the other *)
    clear -Hin Hnot. unfold ingestAll in *. revert s Hin Hnot.
    induction rows as [|r rows IH]; intros s Hin Hnot; simpl in *; [done|].
    destruct (decide (id ∈ order (ingest r s))) as [Hi|Hn].
    + destruct (ingestAll_grows rows (ingest r s)) as (_ & _ & Hpf & _).
      destruct Hpf as [tail Htail]. unfold ingestAll in Htail.
      rewrite Htail. apply elem_of_app. left.
      destruct (resolveId r s) as [i s1] eqn:Hres.
      pose proof (resolveId_store r s) as (_ & _ & Hm & _).
      rewrite Hres in Hm. simpl in Hm.
      destruct (rowMap s !! i) as [old|] eqn:Hold.
      * rewrite (ingest_existing _ _ _ _ _ Hres Hold) in Hi. simpl in Hi.
        pose proof (resolveId_store r s) as (_ & _ & _ & Ho' & _).
        rewrite Hres in Ho'. simpl in Ho'. rewrite Ho' in Hi. done.
      * destruct (ingest_fresh _ _ _ _ Hres Hold) as (_ & Ho' & Hf' & _).
        rewrite Ho' in Hi. rewrite Hf'.
        destruct (arr_includes (order s) i); [done|].
        apply elem_of_app in Hi as [Hi|Hi%list_elem_of_singleton]; [done|].
        subst i. destruct (arr_includes (filteredOrder s) id) eqn:Hinc.
        -- by apply arr_includes_spec.
        -- apply elem_of_app. right. by left.
    + by apply IH.
  - split; [done|]. split; [done|]. done.
Qed.

(** X9.  What [setData] ingests last can be read back: after
    [setData([..., r])] with [r] carrying the id [z], [getRow(z)], with the
    number or with its decimal string, returns a row that has [z] as [id]
    and every other property of [r] with [r]'s value.  The id value of [r]
    is one that [Number] reads exactly. *)
Theorem setData_then_getRow (rows : list row) (r : row) (keep : bool)
    (s : MyTableJs) (z : Z) :
  exact_id s r → Number (id_value r s) = Int z → z ≠ 0 →
  ∃ t s' stored,
    setData (rows ++ [r]) keep s = Return t s'
    ∧ getRow (VNumber (Int z)) s' = Return (Some stored) s'
    ∧ getRow (VString (Str.ofZ z)) s' = Return (Some stored) s'
    ∧ stored !! "id" = Some (VNumber (Int z))
    ∧ ∀ k x, r !! k = Some x → k ≠ "id" → stored !! k = Some x.
Proof.
  intros _ Hz Hne.
  destruct (setData_returns (rows ++ [r]) keep s)
    as (t & s' & Hrun & _ & _ & Hm & _).
  rewrite loaded_rowMap, ingestAll_app in Hm.
  set (s0 := ingestAll rows s) in *.
  assert (resolveId r s0 = (z, s0)) as Hres.
  { apply resolveId_explicit; [|done].
    by rewrite (id_value_idField r s s0 (ingestAll_idField rows s)). }
  destruct (ingest_fields r s0) as (stored & Hst & Hid & Hfields).
  rewrite Hres in Hst, Hid. simpl in Hst, Hid.
  exists t, s', stored. split; [done|].
  rewrite !getRow_run. simpl. rewrite toNumber_ofZ, Hm, Hst. done.
Qed.

Lemma setData_then_getRow_witness :
  let alice : row := {[ "id" := VString "7.0"; "name" := VString "Alice" ]} in
  ∃ t s' stored,
    setData [alice] false (constructor unmarked None None false) = Return t s'
    ∧ getRow (VString "7") s' = Return (Some stored) s'
    ∧ stored !! "name" = Some (VString "Alice")
    ∧ stored !! "id" = Some (VNumber (Int 7)).
Proof.
  intros alice.
  destruct (setData_then_getRow [] alice false (constructor unmarked None None false) 7
              eq_refl eq_refl ltac:(lia))
    as (t & s' & stored & Hrun & _ & Hget & Hid & Hfields).
  exists t, s', stored. split; [exact Hrun|]. split; [exact Hget|].
  split; [|exact Hid]. apply Hfields; [reflexivity | discriminate].
Defined.

(** X10.  The counter is not advanced by explicit ids within a call: when
    one call ingests a record whose id is [rowIdCounter + 1] and then a
    record without id, the second gets that same id from the counter and
    is merged into the first.  The two records end up as one row, with the
    properties of the second over those of the first, listed once.  The
    counter is below [2^53] and the id value of the first record is one
    that [Number] reads exactly. *)
Theorem auto_id_meets_explicit_id (r1 r2 : row) (keep : bool)
    (s : MyTableJs) :
  safe_counter s → exact_id s r1 →
  counter_bounds s →
  Number (id_value r1 s) = Int (rowIdCounter s + 1) →
  rowIdCounter s + 1 ≠ 0 →
  anonymous s r2 →
  ∃ t s', setData [r1; r2] keep s = Return t s'
          ∧ rowMap s'
            = <[rowIdCounter s + 1 :=
                  spread2 (stamp (rowIdCounter s + 1) r1)
                    (stamp (rowIdCounter s + 1) r2)]> (rowMap s)
          ∧ order s' = order s ++ [rowIdCounter s + 1]
          ∧ rowIdCounter s' = rowIdCounter s + 1.
Proof.
  intros Hsafe _ (Hb & Hko & Hkf) Hid Hne Han.
  assert (safe_counter (ingest r1 s)) as Hsafe1.
  { unfold safe_counter.
    pose proof (ingest_frame r1 s) as (_ & _ & _ & _ & Hcnt).
    rewrite Hcnt, (resolveId_explicit r1 s _ Hid Hne). exact Hsafe. }
  set (c := rowIdCounter s) in *.
  assert (rowMap s !! (c + 1) = None) as Hfree.
  { destruct (rowMap s !! (c + 1)) eqn:E; [|done].
    specialize (Hb _ ltac:(by eexists)). lia. }
  assert (arr_includes (order s) (c + 1) = false) as Hno.
  { apply arr_includes_false. intros Hin. rewrite Forall_forall in Hko.
    apply Hko in Hin. rewrite Hfree in Hin. by destruct Hin. }
  pose proof (resolveId_explicit r1 s (c + 1) Hid Hne) as Hres1.
  destruct (ingest_fresh r1 s _ _ Hres1 Hfree) as (Hm1 & Ho1 & _ & Hc1).
  rewrite Hno in Ho1.
  destruct (ingest_frame r1 s) as (Hi1 & _).
  set (s1 := ingest r1 s) in *.
  assert (resolveId r2 s1 = nextId s1) as Hres2.
  { apply resolveId_counter.
    rewrite (anonymous_id_value s1 r2); [done|].
    by apply (anonymous_idField s). }
  assert (rowMap s1 !! (c + 1) = Some (stamp (c + 1) r1)) as Hold
    by (rewrite Hm1; apply lookup_insert_eq).
  rewrite (nextId_safe s1 Hsafe1), Hc1 in Hres2. fold c in Hres2.
  pose proof (ingest_existing r2 s1 _ _ _ Hres2 Hold) as Hing.
  destruct (setData_returns [r1; r2] keep s)
    as (t & s' & Hrun & Hmax & _ & Hm & Ho & _).
  rewrite loaded_rowMap in Hm.
  assert (ingestAll [r1; r2] s = ingest r2 s1) as Hall by done.
  assert (rowMap s'
          = <[c + 1 := spread2 (stamp (c + 1) r1) (stamp (c + 1) r2)]>
              (rowMap s)) as Hm'.
  { rewrite Hm, Hall, Hing. simpl. rewrite Hm1.
    apply insert_insert_eq. }
  exists t, s'. split; [done|]. split; [done|]. split.
  - rewrite Ho. unfold loaded. rewrite Hall, Hing.
    destruct keep; simpl; exact Ho1.
  - apply counter_is_max_unique; [done|..]; rewrite Hm'.
    + rewrite lookup_insert_eq. by eexists.
    + intros k. rewrite lookup_insert_is_Some.
      intros [<-|[_ Hk]]; [lia|]. apply Hb in Hk. lia.
Qed.

Lemma auto_id_meets_explicit_id_witness :
  let a : row := {[ "id" := VNumber (Int 1); "name" := VString "A" ]} in
  let b : row := {[ "name" := VString "B" ]} in
  ∃ t s', setData [a; b] false (constructor unmarked None None false) = Return t s'
          ∧ (rowMap s' !! 1) ≫= (λ r, r !! "name") = Some (VString "B")
          ∧ order s' = [1].
Proof.
  intros a b.
  destruct (auto_id_meets_explicit_id a b false (constructor unmarked None None false))
    as (t & s' & Hrun & Hm & Ho & _).
  - unfold safe_counter. simpl. lia.
  - reflexivity.
  - apply counter_bounds_new.
  - reflexivity.
  - simpl. lia.
  - split; reflexivity.
  - exists t, s'. split; [exact Hrun|]. split; [|exact Ho].
    rewrite Hm. reflexivity.
Defined.

(** ** Rows, [order] and finding a row *)

Section Listed.

Lemma listed_same s s' :
  rowMap s' = rowMap s → order s' = order s → listed s → listed s'.
Proof. unfold listed. by intros -> ->. Qed.

Lemma setData_listed rows keep s :
  listed s → listed (state_of (setData rows keep s)).
Proof.
  intros Hl.
  destruct (setData_returns rows keep s)
    as (v & s' & -> & _ & _ & Hm & Ho & _).
  simpl. apply (listed_same (ingestAll rows s)).
  - by rewrite Hm, loaded_rowMap.
  - rewrite Ho. unfold loaded. by destruct keep.
  - by apply ingestAll_grows.
Qed.

Lemma removeRow_listed v s :
  listed s → listed (state_of (removeRow v s)).
Proof.
  intros Hl. destruct (unknown_or_known v s) as [Hu|(n & old & Hn & Hold)].
  { by rewrite (removeRow_unknown _ _ Hu). }
  destruct (removeRow_known v n s Hn ltac:(by eexists))
    as (s' & -> & Hm & Ho & _).
  simpl. intros k. rewrite Hm, Ho. intros [x [Hne Hk]%lookup_delete_Some].
  apply without_elem_of. split; [|done]. apply Hl. by eexists.
Qed.

Lemma updateRow_listed v d u s :
  listed s → listed (state_of (updateRow v d u s)).
Proof.
  intros Hl. destruct (unknown_or_known v s) as [Hu|(n & old & Hn & Hold)].
  { by rewrite (updateRow_unknown _ _ _ _ Hu). }
  destruct (updateRow_known v n d u s old Hn Hold)
    as (s' & -> & Hm & Ho & _).
  simpl. intros k. rewrite Hm, Ho, lookup_insert_is_Some.
  intros [<-|[_ Hk]]; apply Hl; [by eexists | done].
Qed.

Lemma filterTable_listed filters s :
  listed s → listed (state_of (filterTable filters s)).
Proof.
  intros Hl. destruct (filterTable_run filters s) as (s' & -> & Hsame).
  destruct Hsame as (_ & Hm & Ho & _). simpl in *.
  by apply (listed_same s).
Qed.

Lemma resetFilter_listed s : listed s → listed (state_of (resetFilter s)).
Proof.
  intros Hl. destruct (thead s) as [h|] eqn:Hh.
  - destruct (resetFilter_bound s h Hh) as (s' & -> & Hsame).
    destruct Hsame as (_ & Hm & Ho & _). simpl in *. by apply (listed_same s).
  - by rewrite (resetFilter_unbound s Hh).
Qed.

Lemma listed_new tpl idf pg h : listed (constructor tpl idf pg h).
Proof. intros k [x Hx]. simpl in Hx. by rewrite lookup_empty in Hx. Qed.

Lemma listed_iterates s : invariant s → listed s → iterates (order s) s.
Proof.
  intros [Hnd Hko _ _ _] Hl. split; [done|]. intros k. split; [|apply Hl].
  intros Hin. rewrite Forall_forall in Hko. by apply Hko.
Qed.

Lemma omap_lookup_cons (m : gmap Z row) k l :
  omap (λ k, m !! k) (k :: l)
  = match m !! k with
    | Some r => r :: omap (λ k, m !! k) l
    | None => omap (λ k, m !! k) l
    end.
Proof. reflexivity. Qed.

(** The first hit of a search along a list of keys. *)
Lemma find_first_some (f : row → bool) (m : gmap Z row) (l : list Z) r :
  List.find f (omap (λ k, m !! k) l) = Some r →
  ∃ before k after,
    l = before ++ k :: after ∧ m !! k = Some r ∧ f r = true
    ∧ ∀ j r', j ∈ before → m !! j = Some r' → f r' = false.
Proof.
  induction l as [|k l IH]; [done|]. rewrite omap_lookup_cons.
  destruct (m !! k) as [r1|] eqn:Hk.
  - simpl. destruct (f r1) eqn:Hf.
    + intros [= <-]. exists [], k, l. repeat split; try done.
      intros j r' Hj. by apply elem_of_nil in Hj.
    + intros H. destruct (IH H) as (before & k0 & after & -> & Hk0 & Hf0 & Hb).
      exists (k :: before), k0, after. repeat split; try done.
      intros j r' [->|Hj]%elem_of_cons Hr'; [congruence|].
      by eapply Hb.
  - intros H. destruct (IH H) as (before & k0 & after & -> & Hk0 & Hf0 & Hb).
    exists (k :: before), k0, after. repeat split; try done.
    intros j r' [->|Hj]%elem_of_cons Hr'; [congruence|].
    by eapply Hb.
Qed.

Lemma find_first_none (f : row → bool) (m : gmap Z row) (l : list Z) :
  List.find f (omap (λ k, m !! k) l) = None →
  ∀ j r', j ∈ l → m !! j = Some r' → f r' = false.
Proof.
  induction l as [|k l IH].
  - intros _ j r' Hj. by apply elem_of_nil in Hj.
  - rewrite omap_lookup_cons. destruct (m !! k) as [r1|] eqn:Hk.
    + simpl. destruct (f r1) eqn:Hf; [done|]. intros H j r'.
      intros [->|Hj]%elem_of_cons Hr'; [congruence|]. by eapply IH.
    + intros H j r'.
      intros [->|Hj]%elem_of_cons Hr'; [congruence|]. by eapply IH.
Qed.

(** Searching [id] for a number is a lookup, searching it for a string
    finds nothing, where every row carries its key. *)
Lemma find_by_id_number (m : gmap Z row) (l : list Z) n :
  (∀ k r, m !! k = Some r → r !! "id" = Some (VNumber (Int k))) →
  (∀ k, is_Some (m !! k) → k ∈ l) →
  List.find (λ r, strict_eq (prop r "id") (VNumber (Int n)))
    (omap (λ k, m !! k) l)
  = m !! n.
Proof.
  intros Hst Hl.
  destruct (List.find _ _) as [r1|] eqn:Hres.
  - apply find_first_some in Hres as (_ & k1 & _ & _ & Hk1 & Hf1 & _).
    unfold prop in Hf1. rewrite (Hst _ _ Hk1) in Hf1. simpl in Hf1.
    apply Z.eqb_eq in Hf1 as ->. done.
  - destruct (m !! n) as [r1|] eqn:Hk1; [|done].
    pose proof (find_first_none _ _ _ Hres n r1
                  ltac:(apply Hl; by eexists) Hk1) as Hn.
    unfold prop in Hn. rewrite (Hst _ _ Hk1) in Hn. simpl in Hn.
    by rewrite Z.eqb_refl in Hn.
Qed.

Lemma find_by_id_string (m : gmap Z row) (l : list Z) t :
  (∀ k r, m !! k = Some r → r !! "id" = Some (VNumber (Int k))) →
  List.find (λ r, strict_eq (prop r "id") (VString t)) (omap (λ k, m !! k) l)
  = None.
Proof.
  intros Hst. destruct (List.find _ _) as [r1|] eqn:Hres; [|done].
  apply find_first_some in Hres as (_ & k1 & _ & _ & Hk1 & Hf1 & _).
  unfold prop in Hf1. by rewrite (Hst _ _ Hk1) in Hf1.
Qed.

Lemma strict_eq_NaN x : strict_eq x (VNumber NaN) = false.
Proof. destruct x as [| | |[]|]; done. Qed.

Lemma strict_eq_refl_int z : strict_eq (VNumber (Int z)) (VNumber (Int z)) = true.
Proof. simpl. apply Z.eqb_refl. Qed.

End Listed.

(** X11.  In a store that satisfies its invariant and lists every stored
    row in [order], each of [setData], [removeRow], [updateRow],
    [filterTable] and [resetFilter] leaves every stored row listed: the ids
    of [order] are exactly the keys of the row map, each once. *)
Theorem order_lists_the_keys (s : MyTableJs) (rows : list row) (keep : bool)
    (v : jsval) (newData : row) (u : bool) (filters : list FilterEntry) :
  invariant s → listed s →
  iterates (order s) s
  ∧ iterates (order (state_of (setData rows keep s)))
      (state_of (setData rows keep s))
  ∧ iterates (order (state_of (removeRow v s))) (state_of (removeRow v s))
  ∧ iterates (order (state_of (updateRow v newData u s)))
      (state_of (updateRow v newData u s))
  ∧ iterates (order (state_of (filterTable filters s)))
      (state_of (filterTable filters s))
  ∧ iterates (order (state_of (resetFilter s))) (state_of (resetFilter s)).
Proof.
  intros Hinv Hl. split; [by apply listed_iterates|].
  split; [apply listed_iterates;
          [by apply setData_invariant | by apply setData_listed]|].
  split; [apply listed_iterates;
          [by apply removeRow_invariant | by apply removeRow_listed]|].
  split; [apply listed_iterates;
          [by apply updateRow_invariant | by apply updateRow_listed]|].
  split; apply listed_iterates;
    [by apply filterTable_invariant | by apply filterTable_listed
    | by apply resetFilter_invariant | by apply resetFilter_listed].
Qed.

Lemma order_lists_the_keys_witness :
  let s := constructor unmarked None None false in
  let alice : row := {[ "id" := VNumber (Int 1); "name" := VString "Alice" ]} in
  iterates (order (state_of (setData [alice] false s)))
    (state_of (setData [alice] false s)).
Proof.
  intros s alice.
  destruct (order_lists_the_keys s [alice] false VNull ∅ false []
              (invariant_new unmarked None None false) (listed_new unmarked None None false))
    as (_ & H & _).
  exact H.
Defined.

(** X12.  [findRowByKey] returns the first row, in the order the map is
    iterated, whose property is strictly equal to the value, and [null]
    exactly when no stored row has it; it changes nothing.  Strict equality
    makes it blind to [NaN], and to an id given as a string: searching
    [id] for the number of a stored row finds the row [getRow] returns,
    searching it for the decimal string finds nothing.  The key is a name
    no row inherits a member under. *)
Theorem findRowByKey_first_match (iteration : list Z) (key : string)
    (v : jsval) (s : MyTableJs) :
  own_name key → iterates iteration s →
  ∃ result,
    findRowByKey iteration key v s = Return result s
    ∧ (∀ r, result = Some r →
            ∃ before k after,
              iteration = before ++ k :: after
              ∧ rowMap s !! k = Some r
              ∧ strict_eq (prop r key) v = true
              ∧ ∀ j r', j ∈ before → rowMap s !! j = Some r' →
                        strict_eq (prop r' key) v = false)
    ∧ (result = None
       ↔ ∀ k r, rowMap s !! k = Some r → strict_eq (prop r key) v = false)
    ∧ (v = VNumber NaN → result = None)
    ∧ (ids_stamped s →
       ∀ n, findRowByKey iteration "id" (VNumber (Int n)) s
            = getRow (VNumber (Int n)) s)
    ∧ (ids_stamped s →
       ∀ n, findRowByKey iteration "id" (VString (Str.ofZ n)) s
            = Return None s).
Proof.
  intros _ [_ Hit]. unfold findRowByKey. run_M.
  eexists. split; [reflexivity|].
  split; [|split; [|split; [|split]]].
  - intros r Hres. by apply find_first_some in Hres.
  - split.
    + intros Hres k r Hk.
      apply (find_first_none (λ r, strict_eq (prop r key) v) (rowMap s)
               iteration Hres k r); [|exact Hk].
      apply Hit. by eexists.
    + intros Hall. destruct (List.find _ _) as [r|] eqn:Hres; [|done].
      apply find_first_some in Hres as (_ & k & _ & _ & Hk & Hf & _).
      by rewrite (Hall k r Hk) in Hf.
  - intros ->. destruct (List.find _ _) as [r|] eqn:Hres; [|done].
    apply find_first_some in Hres as (_ & k & _ & _ & Hk & Hf & _).
    by rewrite strict_eq_NaN in Hf.
  - intros Hst n. rewrite getRow_run. simpl. f_equal.
    apply find_by_id_number; [exact Hst|]. intros k. apply Hit.
  - intros Hst n. f_equal. by apply find_by_id_string.
Qed.

Lemma findRowByKey_first_match_witness :
  let alice : row := {[ "id" := VNumber (Int 1); "name" := VString "Alice" ]} in
  let bob : row := {[ "id" := VNumber (Int 2); "name" := VString "Bob" ]} in
  let s := state_of (setData [alice; bob] false (constructor unmarked None None false)) in
  findRowByKey [1; 2] "id" (VNumber (Int 2)) s = getRow (VString "2") s
  ∧ findRowByKey [1; 2] "id" (VString "2") s = Return None s.
Proof.
  intros alice bob s.
  assert (iterates [1; 2] s) as Hit.
  { apply (listed_iterates s).
    - apply setData_invariant, invariant_new.
    - apply setData_listed, listed_new. }
  assert (ids_stamped s) as Hst by apply setData_stamped, ids_stamped_new.
  destruct (findRowByKey_first_match [1; 2] "id" VNull s
              ltac:(own_name_tac) Hit)
    as (result & _ & _ & _ & _ & Hnum & Hstr).
  split.
  - rewrite (Hnum Hst 2). reflexivity.
  - exact (Hstr Hst 2).
Defined.

(** ** What is drawn *)

Section Drawing.

Lemma renderTable_draws s :
  ∃ s', renderTable s = Return (drawn s) s' ∧ tbody s' = drawn s
        ∧ same_store s s'.
Proof.
  unfold renderTable, drawn, visible. run_M. simpl.
  destruct (pagination s) as [pg|] eqn:Hpg.
  - unfold getPaginatedOrder. run_M. simpl. rewrite Hpg.
    unfold addEventListeners. run_M. simpl.
    replace (match page pg with Some p => p | None => 1 end)
      with (default 1 (page pg)) by (by destruct (page pg)).
    destruct (eventListenersAdded s); simpl;
      eexists; (split; [reflexivity|]); (split; [done|]); by repeat split.
  - unfold addEventListeners. run_M. simpl.
    destruct (eventListenersAdded s); simpl;
      eexists; (split; [reflexivity|]); (split; [done|]); by repeat split.
Qed.

Lemma visible_same s s' :
  pagination s' = pagination s → filteredOrder s' = filteredOrder s →
  visible s' = visible s.
Proof. unfold visible. by intros -> ->. Qed.

Lemma drawn_same s s' :
  pagination s' = pagination s → filteredOrder s' = filteredOrder s →
  rowMap s' = rowMap s → template s' = template s → drawn s' = drawn s.
Proof.
  intros Hp Hf Hm Ht. unfold drawn, renderRow.
  by rewrite (visible_same _ _ Hp Hf), Hm, Ht.
Qed.

Lemma visible_sublist s : visible s `sublist_of` filteredOrder s.
Proof.
  unfold visible. destruct (pagination s); [apply slice_sublist | done].
Qed.

Lemma unmarked_same s s' :
  template s' = template s → unmarked_rows s → unmarked_rows s'.
Proof. unfold unmarked_rows. by intros ->. Qed.

Lemma ingest_template r s : template (ingest r s) = template s.
Proof.
  unfold ingest, resolveId, nextId.
  destruct (Number _) as [z|]; [destruct (z =? 0)|]; simpl;
    repeat (match goal with
            | |- context [match ?x with _ => _ end] => destruct x
            end; simpl); done.
Qed.

Lemma loaded_template rows keep s : template (loaded rows keep s) = template s.
Proof.
  assert (template (ingestAll rows s) = template s) as H.
  { unfold ingestAll. revert s.
    induction rows as [|r rows IH]; intros s; simpl; [done|].
    by rewrite IH, ingest_template. }
  unfold loaded. by destruct keep.
Qed.

Lemma omap_render s (m : gmap Z row) (l : list Z) :
  unmarked_rows s →
  (∀ k r, m !! k = Some r → r !! "id" = Some (VNumber (Int k))) →
  Forall (λ id, is_Some (m !! id)) l →
  omap (λ id, renderRow s <$> m !! id) l = map Str.ofZ l.
Proof.
  intros Hu Hst. induction 1 as [|k l [r Hk] _ IH]; [done|].
  simpl. rewrite Hk. simpl. rewrite (renderRow_unmarked _ _ Hu).
  unfold prop at 1.
  rewrite (Hst _ _ Hk). simpl. f_equal. exact IH.
Qed.

(** In a sound store a redraw puts the visible ids in the body, the
    template leaving the [data-id] to the widget. *)
Lemma drawn_visible s :
  sound s → unmarked_rows s → drawn s = map Str.ofZ (visible s).
Proof.
  intros [[_ _ Hkf _ _] Hst] Hu. unfold drawn. apply omap_render; [done..|].
  rewrite Forall_forall in *. intros k Hk. apply Hkf.
  eapply elem_of_sublist; [exact Hk | apply visible_sublist].
Qed.

Lemma sound_same s s' :
  rowMap s' = rowMap s → order s' = order s →
  filteredOrder s' = filteredOrder s → sound s → sound s'.
Proof.
  intros Hm Ho Hf [Hi Hs]. split.
  - by apply (invariant_same s).
  - by apply (ids_stamped_same s).
Qed.

(** The state a method is in before its last redraw decides what the body
    shows afterwards. *)
Lemma redraw_in_sync s0 s' :
  sound s0 → unmarked_rows s0 → tbody s' = drawn s0 →
  pagination s' = pagination s0 → filteredOrder s' = filteredOrder s0 →
  in_sync s'.
Proof.
  intros Hs Hu Ht Hp Hf. unfold in_sync.
  by rewrite Ht, (drawn_visible s0 Hs Hu), (visible_same _ _ Hp Hf).
Qed.

Lemma loaded_sound rows keep s : sound s → sound (loaded rows keep s).
Proof.
  intros [Hi Hs]. split; [by apply loaded_invariant|].
  apply (ids_stamped_same (ingestAll rows s)); [apply loaded_rowMap|].
  by apply ingestAll_stamped.
Qed.

Lemma setData_in_sync rows keep s :
  sound s → unmarked_rows s → in_sync (state_of (setData rows keep s)).
Proof.
  intros Hs Hu. unfold setData. unfold bind at 1. rewrite forEach_modify.
  fold (ingestAll rows s). unfold bind at 1.
  assert ((if keep then ret ()
           else modify (λ s, set_filteredOrder (order s) s)) (ingestAll rows s)
          = Return tt (loaded rows keep s)) as ->.
  { unfold loaded. by destruct keep. }
  unfold bind at 1.
  destruct (renderTable_draws (loaded rows keep s)) as (s3 & -> & Ht & Hsame).
  run_M. simpl.
  destruct (recount_store s3) as ((_ & _ & _ & Hf & _) & Hp & Ht').
  destruct Hsame as (_ & Hp3 & _ & _ & Hf3 & _). simpl in Hf.
  apply (redraw_in_sync (loaded rows keep s)).
  - by apply loaded_sound.
  - apply (unmarked_same s); [apply loaded_template | done].
  - by rewrite Ht'.
  - by rewrite Hp.
  - by rewrite Hf.
Qed.

Lemma setPage_in_sync n s :
  sound s → unmarked_rows s → is_Some (pagination s) →
  in_sync (state_of (setPage n s)).
Proof.
  intros Hs Hu [pg Hpg]. unfold setPage. run_M.
  rewrite (getTotalPages_run _ _ Hpg), Hpg.
  match goal with |- context [renderTable ?t] =>
    destruct (renderTable_draws t) as (s' & -> & Ht & Hsame);
    apply (redraw_in_sync t)
  end; simpl.
  - destruct Hs as [[? ? ? ? ?] ?]. by repeat split.
  - exact Hu.
  - done.
  - by destruct Hsame as (_ & -> & _).
  - by destruct Hsame as (_ & _ & _ & _ & -> & _).
Qed.

Lemma filtered_sound p s :
  sound s → sound (set_filteredOrder (List.filter p (order s)) s).
Proof. intros [Hi Hs]. split; [by apply filtered_invariant | done]. Qed.

Lemma filterTable_in_sync filters s :
  sound s → unmarked_rows s → in_sync (state_of (filterTable filters s)).
Proof.
  intros Hs Hu. unfold filterTable. run_M. simpl.
  set (s1 := set_filteredOrder _ s).
  assert (sound s1) as Hs1 by (by apply filtered_sound).
  destruct (pagination s) as [pg|] eqn:Hpg.
  - destruct (setPage_run 1 s1 pg Hpg) as (s2 & -> & _ & Hrows).
    destruct Hrows as (_ & Hm & Ho & Hf & _ & _ & _ & Htpl).
    destruct (renderTable_draws s2) as (s3 & -> & Ht & Hsame). simpl.
    destruct Hsame as (_ & Hp3 & _ & _ & Hf3 & _).
    apply (redraw_in_sync s2); try done.
    + by apply (sound_same s1).
    + by apply (unmarked_same s).
  - destruct (renderTable_draws s1) as (s3 & -> & Ht & Hsame). simpl.
    destruct Hsame as (_ & Hp3 & _ & _ & Hf3 & _).
    by apply (redraw_in_sync s1).
Qed.

Lemma resetFilter_in_sync s :
  sound s → unmarked_rows s → is_Some (thead s) →
  in_sync (state_of (resetFilter s)).
Proof.
  intros Hs Hu [h Hh]. unfold resetFilter. run_M. simpl. rewrite Hh.
  match goal with |- context [renderTable ?t] =>
    destruct (renderTable_draws t) as (s' & -> & Ht & Hsame);
    apply (redraw_in_sync t)
  end; simpl.
  - destruct Hs as [Hi Hst]. split; [|done].
    by apply (invariant_same (set_filteredOrder (order s) s));
      [..|apply reset_invariant].
  - exact Hu.
  - done.
  - by destruct Hsame as (_ & -> & _).
  - by destruct Hsame as (_ & _ & _ & _ & -> & _).
Qed.

End Drawing.

(** X13.  In a store that satisfies its invariant and stamps its rows,
    with a template that leaves the [data-id] to the widget and with keys
    up to [2^53], every method that redraws leaves in the body exactly the
    [data-id]s of the ids to show, in order: the current page when
    pagination is configured, all of [filteredOrder] otherwise.  This
    holds after [setData] (when the keys it adds are up to [2^53] as
    well), [filterTable], [setPage] (with pagination) and [resetFilter]
    (with a header bound). *)
Theorem redraw_shows_current_page (s : MyTableJs) (rows : list row)
    (keep : bool) (filters : list FilterEntry) (n : Z) :
  sound s → unmarked_rows s → safe_keys s →
  (safe_keys (state_of (setData rows keep s)) →
   in_sync (state_of (setData rows keep s)))
  ∧ in_sync (state_of (filterTable filters s))
  ∧ (is_Some (pagination s) → in_sync (state_of (setPage n s)))
  ∧ (is_Some (thead s) → in_sync (state_of (resetFilter s))).
Proof.
  intros Hs Hu _. split; [intros _; by apply setData_in_sync|].
  split; [by apply filterTable_in_sync|].
  split; [by apply setPage_in_sync | by apply resetFilter_in_sync].
Qed.

Lemma redraw_shows_current_page_witness :
  let alice : row := {[ "id" := VNumber (Int 1); "name" := VString "Alice" ]} in
  let bob : row := {[ "id" := VNumber (Int 2); "name" := VString "Bob" ]} in
  let s := constructor unmarked None (Some {| page := None; perPage := 1 |}) false in
  tbody (state_of (setData [alice; bob] false s)) = ["1"]
  ∧ tbody (state_of (setPage 2 (state_of (setData [alice; bob] false s))))
    = ["2"].
Proof.
  intros alice bob s.
  assert (sound s) as Hs
    by (split; [apply invariant_new | apply ids_stamped_new]).
  assert (sound (state_of (setData [alice; bob] false s))) as Hs'
    by (split; [by apply setData_invariant, Hs | by apply setData_stamped, Hs]).
  assert (unmarked_rows s) as Hu by (intros r; by left).
  assert (unmarked_rows (state_of (setData [alice; bob] false s))) as Hu'
    by (intros r; by left).
  assert (safe_keys s) as Hk.
  { intros k [x Hx]. simpl in Hx. by rewrite lookup_empty in Hx. }
  assert (safe_keys (state_of (setData [alice; bob] false s))) as Hk'.
  { intros k Hx.
    assert (k ∈ [1; 2]) as Hin.
    { pose proof (setData_listed [alice; bob] false s
                    (listed_new _ _ _ _) k Hx) as H.
      exact H. }
    apply elem_of_cons in Hin as [->|Hin]; [done|].
    apply elem_of_cons in Hin as [->|Hin]; [done|].
    by apply elem_of_nil in Hin. }
  split.
  - rewrite (proj1 (redraw_shows_current_page s [alice; bob] false [] 1 Hs Hu
                      Hk) Hk').
    reflexivity.
  - rewrite (proj1 (proj2 (proj2 (redraw_shows_current_page
               (state_of (setData [alice; bob] false s)) [] false [] 2 Hs'
               Hu' Hk')))
               ltac:(by eexists)).
    reflexivity.
Defined.

(** ** Removing and editing through the body *)

Section BodyEvents.

Lemma without_not_in n l : n ∉ l → without n l = l.
Proof.
  intros Hn. unfold without. apply list_filter_all.
  apply Forall_forall. intros x Hx. apply negb_true_iff, Z.eqb_neq.
  intros ->. done.
Qed.

Lemma remove_first_map l n :
  NoDup l → remove_first (Str.ofZ n) (map Str.ofZ l) = map Str.ofZ (without n l).
Proof.
  induction 1 as [|x l Hx Hnd IH]; [done|]. simpl.
  destruct (String.eqb_spec (Str.ofZ x) (Str.ofZ n)) as [Heq|Hne].
  - apply ofZ_inj in Heq as ->. rewrite Z.eqb_refl. simpl.
    by rewrite without_not_in.
  - destruct (Z.eqb_spec x n) as [->|_]; [done|]. simpl. by rewrite IH.
Qed.

Lemma visible_NoDup s : invariant s → NoDup (visible s).
Proof.
  intros [_ _ _ _ Hnd]. eapply sublist_NoDup; [exact Hnd|].
  apply visible_sublist.
Qed.

Lemma removeRow_sound v s : sound s → sound (state_of (removeRow v s)).
Proof.
  intros [Hi Hs]. split; [by apply removeRow_invariant|].
  by apply removeRow_stamped.
Qed.

(** A fold of assignments [newData[k] = v]: the last one to a key wins. *)
Lemma assign_other (els : list RowInput) (m : row) c :
  (∀ el, el ∈ els → column_key el ≠ c) →
  fold_left (λ newData el,
               assign (column_key el) (VString (elementValue el)) newData)
    els m
    !! c = m !! c.
Proof.
  revert m. induction els as [|el els IH]; intros m Hc; simpl; [done|].
  rewrite IH.
  - unfold assign. destruct (String.eqb _ "__proto__"); [done|].
    apply lookup_insert_ne, Hc. by left.
  - intros el' Hel'. apply Hc. by right.
Qed.

Lemma assign_last (before after : list RowInput) (el : RowInput) (m : row) :
  column_key el ≠ "__proto__" →
  (∀ el', el' ∈ after → column_key el' ≠ column_key el) →
  fold_left (λ newData el,
               assign (column_key el) (VString (elementValue el)) newData)
    (before ++ el :: after) m
    !! column_key el = Some (VString (elementValue el)).
Proof.
  intros Hp Hafter. rewrite fold_left_app. simpl.
  rewrite (assign_other after _ _ Hafter). unfold assign.
  apply String.eqb_neq in Hp. rewrite Hp. apply lookup_insert_eq.
Qed.

(** No assignment creates a property [__proto__]. *)
Lemma assign_proto (els : list RowInput) (m : row) :
  fold_left (λ newData el,
               assign (column_key el) (VString (elementValue el)) newData)
    els m
    !! "__proto__" = m !! "__proto__".
Proof.
  revert m. induction els as [|el els IH]; intros m; simpl; [done|].
  rewrite IH. unfold assign.
  destruct (String.eqb_spec (column_key el) "__proto__") as [|Hne]; [done|].
  by apply lookup_insert_ne.
Qed.

End BodyEvents.

(** X14.  [removeRow] takes the element out of the body itself instead of
    redrawing.  Where the body showed the visible ids, it shows them
    without the removed one afterwards; without pagination that is what a
    redraw would show, with pagination the page is left one row short
    rather than refilled. *)
Theorem removeRow_updates_body (v : jsval) (n : Z) (s : MyTableJs) :
  sound s → in_sync s → Number v = Int n → is_Some (rowMap s !! n) →
  ∃ s', removeRow v s = Return true s'
        ∧ sound s'
        ∧ tbody s' = map Str.ofZ (without n (visible s))
        ∧ (pagination s = None → in_sync s')
        ∧ (n ∈ visible s → length (tbody s') = (length (tbody s) - 1)%nat).
Proof.
  intros Hs Hsync Hn Hkey.
  destruct (removeRow_known v n s Hn Hkey)
    as (s' & Hrun & Hm & Ho & Hf & Hc & Hi & Hp & Hh & Ht).
  pose proof (removeRow_sound v s Hs) as Hs'. rewrite Hrun in Hs'.
  simpl in Hs'. unfold in_sync in Hsync.
  assert (tbody s' = map Str.ofZ (without n (visible s))) as Ht'.
  { rewrite Ht, Hsync. apply remove_first_map, visible_NoDup, Hs. }
  exists s'. split; [done|]. split; [done|]. split; [done|]. split.
  - intros Hnone. unfold in_sync. rewrite Ht'. unfold visible.
    by rewrite Hp, Hnone, Hf.
  - intros Hin. rewrite Ht', Hsync, !length_map.
    pose proof (visible_NoDup s (proj1 Hs)) as Hnd.
    clear -Hin Hnd. induction Hnd as [|x l Hx Hnd IH].
    { by apply elem_of_nil in Hin. }
    simpl. destruct (Z.eqb_spec x n) as [->|Hne]; simpl.
    + rewrite without_not_in by done. lia.
    + apply elem_of_cons in Hin as [->|Hin]; [done|].
      rewrite IH by done. destruct l; [by apply elem_of_nil in Hin|].
      simpl. lia.
Qed.

Lemma removeRow_updates_body_witness :
  let alice : row := {[ "id" := VNumber (Int 1); "name" := VString "Alice" ]} in
  let bob : row := {[ "id" := VNumber (Int 2); "name" := VString "Bob" ]} in
  let s := state_of (setData [alice; bob] false (constructor unmarked None None false)) in
  ∃ s', removeRow (VString "1") s = Return true s' ∧ tbody s' = ["2"]
        ∧ in_sync s'.
Proof.
  intros alice bob s.
  assert (sound (constructor unmarked None None false)) as Hs0
    by (split; [apply invariant_new | apply ids_stamped_new]).
  destruct (removeRow_updates_body (VString "1") 1 s)
    as (s' & Hrun & _ & Ht & Hsync & _).
  - split; [by apply setData_invariant, Hs0 | by apply setData_stamped, Hs0].
  - apply setData_in_sync; [exact Hs0 | intros r; by left].
  - reflexivity.
  - exists (stamp 1 alice). reflexivity.
  - exists s'. split; [exact Hrun|]. split; [rewrite Ht; reflexivity|].
    by apply Hsync.
Defined.

(** X15.  The [data-id] of a drawn row leads back to its row: a click on a
    remove control inside any row of the body removes the row with that
    id from the map, from both arrays and from the body, and no other. *)
Theorem click_removes_drawn_row (d : string) (s : MyTableJs) :
  sound s → in_sync s → d ∈ tbody s →
  ∃ k s', d = Str.ofZ k ∧ k ∈ visible s
          ∧ onBodyClick (RemoveControl (Some d)) s = Return tt s'
          ∧ rowMap s' = delete k (rowMap s)
          ∧ (∀ j, j ≠ k → rowMap s' !! j = rowMap s !! j)
          ∧ (k ∉ order s') ∧ (k ∉ filteredOrder s')
          ∧ (d ∉ tbody s').
Proof.
  intros Hs Hsync Hd. unfold in_sync in Hsync. rewrite Hsync in Hd.
  apply list_elem_of_fmap in Hd as (k & -> & Hk).
  assert (is_Some (rowMap s !! k)) as Hkey.
  { destruct Hs as [[_ _ Hkf _ _] _]. rewrite Forall_forall in Hkf.
    apply Hkf. eapply elem_of_sublist; [exact Hk | apply visible_sublist]. }
  assert (Number (VString (Str.ofZ k)) = Int k) as Hn
    by apply toNumber_ofZ.
  destruct (removeRow_known _ k s Hn Hkey)
    as (s' & Hrun & Hm & Ho & Hf & _ & _ & _ & _ & Ht).
  exists k, s'. split; [done|]. split; [done|]. split.
  { unfold onBodyClick. run_M. by rewrite Hrun. }
  split; [done|]. split.
  { intros j Hj. rewrite Hm. by apply lookup_delete_ne. }
  split; [rewrite Ho; by intros [_ ?]%without_elem_of|].
  split; [rewrite Hf; by intros [_ ?]%without_elem_of|].
  rewrite Ht, Hsync, remove_first_map by apply visible_NoDup, Hs.
  intros (j & Hj & [_ Hne]%without_elem_of)%list_elem_of_fmap.
  apply ofZ_inj in Hj. congruence.
Qed.

Lemma click_removes_drawn_row_witness :
  let alice : row := {[ "id" := VNumber (Int 1); "name" := VString "Alice" ]} in
  let bob : row := {[ "id" := VNumber (Int 2); "name" := VString "Bob" ]} in
  let s := state_of (setData [alice; bob] false (constructor unmarked None None false)) in
  ∃ k s', "2" = Str.ofZ k
          ∧ onBodyClick (RemoveControl (Some "2")) s = Return tt s'
          ∧ rowMap s' = delete k (rowMap s).
Proof.
  intros alice bob s.
  assert (sound (constructor unmarked None None false)) as Hs0
    by (split; [apply invariant_new | apply ids_stamped_new]).
  destruct (click_removes_drawn_row "2" s)
    as (k & s' & Hd & _ & Hrun & Hm & _).
  - split; [by apply setData_invariant, Hs0 | by apply setData_stamped, Hs0].
  - apply setData_in_sync; [exact Hs0 | intros r; by left].
  - vm_compute. right. left.
  - by exists k, s'.
Defined.

(** X16.  An input event inside a drawn row writes the row's controls into
    the store and nowhere else: the value of a control is stored as a
    string under its [data-column] (the last control of a column wins,
    and a column named [id], [rowType] or [__proto__] apart), the row is
    tagged [rowType: 'updatedRow'], its [id] and the properties no control
    names stay, a control whose column is [__proto__] stores nothing, and
    neither the arrays nor the body change.  An input event outside any
    row element throws.  The [data-id] of the row is a string that
    [Number] reads exactly. *)
Theorem edit_updates_store_only (d : string) (n : Z)
    (before after : list RowInput) (el : RowInput) (old : row)
    (s : MyTableJs) :
  Str.exact d = true →
  Number (VString d) = Int n → rowMap s !! n = Some old →
  (∀ el', el' ∈ after → column_key el' ≠ column_key el) →
  column_key el ≠ "id" → column_key el ≠ "rowType" →
  column_key el ≠ "__proto__" →
  (∃ s' updated,
     onBodyInput (Some (d, before ++ el :: after)) s = Return tt s'
     ∧ rowMap s' = <[n := updated]> (rowMap s)
     ∧ updated !! column_key el = Some (VString (elementValue el))
     ∧ updated !! "rowType" = Some (VString "updatedRow")
     ∧ updated !! "id" = Some (VNumber (Int n))
     ∧ (∀ c, c ≠ "id" → c ≠ "rowType" →
             (∀ e, e ∈ before ++ el :: after → column_key e ≠ c) →
             updated !! c = old !! c)
     ∧ updated !! "__proto__" = old !! "__proto__"
     ∧ order s' = order s ∧ filteredOrder s' = filteredOrder s
     ∧ tbody s' = tbody s)
  ∧ onBodyInput None s = Throw s.
Proof.
  intros _ Hn Hold Hafter Hid Htype Hproto. split; [|done].
  set (els := before ++ el :: after).
  destruct (updateRow_known (VString d) n (collect els) false s old Hn Hold)
    as (s' & Hrun & Hm & Ho & Hf & _ & Ht).
  exists s', (<["id" := VNumber (Int n)]> (spread2 old (collect els))).
  split. { unfold onBodyInput. run_M. fold els. by rewrite Hrun. }
  split; [done|]. unfold spread2, collect.
  split; [|split; [|split; [|split; [|split]]]].
  - rewrite lookup_insert_ne by done. apply lookup_union_Some_l.
    rewrite lookup_insert_ne by done. by apply assign_last.
  - rewrite lookup_insert_ne by done. apply lookup_union_Some_l.
    apply lookup_insert_eq.
  - apply lookup_insert_eq.
  - intros c Hc1 Hc2 Hc. rewrite lookup_insert_ne by done.
    apply lookup_union_r. rewrite lookup_insert_ne by done.
    rewrite assign_other by done. apply lookup_empty.
  - rewrite lookup_insert_ne by done.
    apply lookup_union_r. rewrite lookup_insert_ne by done.
    rewrite assign_proto. apply lookup_empty.
  - split; [done|]. split; [done|]. by apply Ht.
Qed.

Lemma edit_updates_store_only_witness :
  let alice : row :=
    {[ "id" := VNumber (Int 1); "name" := VString "Alice";
       "age" := VNumber (Int 30) ]} in
  let s := state_of (setData [alice] false (constructor unmarked None None false)) in
  let name_input := {| dataColumn := Some "name"; elementValue := "Alicia" |} in
  ∃ s' updated,
    onBodyInput (Some ("1", [name_input])) s = Return tt s'
    ∧ rowMap s' = <[1 := updated]> (rowMap s)
    ∧ updated !! "name" = Some (VString "Alicia")
    ∧ updated !! "age" = Some (VNumber (Int 30))
    ∧ tbody s' = ["1"].
Proof.
  intros alice s name_input.
  destruct (proj1 (edit_updates_store_only "1" 1 [] [] name_input
                     (stamp 1 alice) s eq_refl eq_refl eq_refl
                     ltac:(intros ? H; by apply elem_of_nil in H)
                     ltac:(discriminate) ltac:(discriminate)
                     ltac:(discriminate)))
    as (s' & updated & Hrun & Hm & Hname & _ & _ & Hkeep & _ & _ & _ & Ht).
  exists s', updated. split; [exact Hrun|]. split; [exact Hm|].
  split; [exact Hname|]. split; [|rewrite Ht; reflexivity].
  rewrite (Hkeep "age"); [reflexivity | discriminate | discriminate |].
  intros e [->|He]%elem_of_cons; [discriminate|]. by apply elem_of_nil in He.
Defined.

(** ** Pages *)

Section Pages.

(** Cutting a list into runs of [n] and gluing them gives the list. *)
Lemma chunks_concat {A} (n k : nat) (l : list A) :
  (length l ≤ k * n)%nat →
  concat (map (λ i, take n (drop (i * n) l)) (seq 0 k)) = l.
Proof.
  revert l. induction k as [|k IH]; intros l Hlen.
  - simpl in *. by destruct l; [|simpl in Hlen; lia].
  - rewrite <- cons_seq, <- seq_shift. simpl. rewrite map_map.
    transitivity (take n l ++ drop n l); [|apply take_drop].
    f_equal. rewrite <- (IH (drop n l)) by (rewrite length_drop; lia).
    f_equal. apply map_ext. intros i. rewrite drop_drop. done.
Qed.

Lemma page_slice_take_drop (l : list Z) (n : Z) (i : nat) :
  0 < n →
  page_slice l n (Z.of_nat i + 1)
  = take (Z.to_nat n) (drop (i * Z.to_nat n) l).
Proof.
  intros Hn. unfold page_slice.
  rewrite slice_take_drop by nia. do 2 f_equal. nia.
Qed.

Lemma pages_concat (l : list Z) (n t : Z) :
  0 < n → Z.of_nat (length l) ≤ n * t →
  concat (map (page_slice l n) (seqZ 1 t)) = l.
Proof.
  intros Hn Hlen. unfold seqZ. rewrite <- list_fmap_compose.
  rewrite <- (chunks_concat (Z.to_nat n) (Z.to_nat t) l) at 2 by nia.
  f_equal. apply map_ext. intros i. simpl.
  by apply page_slice_take_drop.
Qed.

Lemma page_slice_length (l : list Z) (n p : Z) :
  0 < n → 1 ≤ p → n * p ≤ Z.of_nat (length l) →
  length (page_slice l n p) = Z.to_nat n.
Proof.
  intros Hn Hp Hlen. unfold page_slice.
  rewrite slice_take_drop by nia. rewrite length_take, length_drop. nia.
Qed.

Lemma page_slice_nonempty (l : list Z) (n p : Z) :
  0 < n → 1 ≤ p → n * (p - 1) < Z.of_nat (length l) →
  page_slice l n p ≠ [].
Proof.
  intros Hn Hp Hlen H. apply (f_equal length) in H. unfold page_slice in H.
  rewrite slice_take_drop in H by nia.
  rewrite length_take, length_drop in H. simpl in H. nia.
Qed.

Lemma clamp_page_range n t :
  1 ≤ t → 1 ≤ clamp_page n (Pages t) ≤ t.
Proof. unfold clamp_page. lia. Qed.

Lemma clamp_page_in_range n t :
  1 ≤ n ≤ t → clamp_page n (Pages t) = n.
Proof. unfold clamp_page. lia. Qed.

Lemma clamp_page_one total : clamp_page 1 total = 1.
Proof. unfold clamp_page. destruct total; lia. Qed.

End Pages.

(** X17.  With a positive [perPage] the pages [1 .. getTotalPages()] cut
    [filteredOrder] into consecutive runs: glued together in order they
    give [filteredOrder] back, every page before the last holds exactly
    [perPage] ids, and no page is empty unless [filteredOrder] is.
    [getPaginatedOrder] returns the run of the stored page. *)
Theorem pages_partition (s : MyTableJs) (pg : Pagination) :
  pagination s = Some pg → 0 < perPage pg →
  ∃ total,
    getTotalPages s = Return (Pages total) s
    ∧ concat (map (page_slice (filteredOrder s) (perPage pg)) (seqZ 1 total))
      = filteredOrder s
    ∧ (∀ p, 1 ≤ p < total →
            length (page_slice (filteredOrder s) (perPage pg) p)
            = Z.to_nat (perPage pg))
    ∧ (filteredOrder s ≠ [] →
       ∀ p, 1 ≤ p ≤ total →
            page_slice (filteredOrder s) (perPage pg) p ≠ [])
    ∧ (∀ p, page pg = Some p →
            getPaginatedOrder s
            = Return (page_slice (filteredOrder s) (perPage pg) p) s).
Proof.
  intros Hpg Hpos.
  destruct (getTotalPages_positive s pg Hpg Hpos) as (c & Hc & Hc0 & Hrun).
  exists (Z.max 1 c). split; [done|]. split; [|split; [|split]].
  - apply pages_concat; [done | nia].
  - intros p Hp. apply page_slice_length; [done | lia | nia].
  - intros Hne p Hp. apply page_slice_nonempty; [done | lia |].
    destruct (filteredOrder s); [done|]. simpl in *. nia.
  - intros p Hp. rewrite (getPaginatedOrder_run s pg Hpg), Hp. done.
Qed.

Lemma pages_partition_witness :
  let pg := {| page := Some 2; perPage := 2 |} in
  let s := set_filteredOrder [1; 2; 3; 4; 5] (constructor unmarked None (Some pg) false) in
  ∃ total,
    getTotalPages s = Return (Pages total) s
    ∧ concat (map (page_slice [1; 2; 3; 4; 5] 2) (seqZ 1 total))
      = [1; 2; 3; 4; 5]
    ∧ getPaginatedOrder s = Return (page_slice [1; 2; 3; 4; 5] 2 2) s.
Proof.
  intros pg s.
  destruct (pages_partition s pg eq_refl ltac:(simpl; lia))
    as (total & Hrun & Hcat & _ & _ & Hshown).
  exists total. split; [exact Hrun|]. split; [exact Hcat|].
  by apply Hshown.
Defined.

(** X18.  With a positive [perPage] and a non-empty [filteredOrder],
    [setPage] never lands on an empty page: whatever integer it is given,
    the page it stores lies in [1 .. getTotalPages()] and
    [getPaginatedOrder] then returns at least one id; in a sound store
    with keys up to [2^53] whose template leaves the [data-id] to the
    widget the body is redrawn with those ids. *)
Theorem setPage_lands_on_rows (n : Z) (s : MyTableJs) (pg : Pagination) :
  pagination s = Some pg → 0 < perPage pg → filteredOrder s ≠ [] →
  ∃ s' p total,
    setPage n s = Return tt s'
    ∧ pagination s' = Some {| page := Some p; perPage := perPage pg |}
    ∧ getTotalPages s' = Return (Pages total) s'
    ∧ 1 ≤ p ≤ total
    ∧ getPaginatedOrder s'
      = Return (page_slice (filteredOrder s) (perPage pg) p) s'
    ∧ page_slice (filteredOrder s) (perPage pg) p ≠ []
    ∧ (sound s → unmarked_rows s → safe_keys s →
       tbody s' = map Str.ofZ (page_slice (filteredOrder s) (perPage pg) p)).
Proof.
  intros Hpg Hpos Hne.
  destruct (getTotalPages_positive s pg Hpg Hpos) as (c & Hc & Hc0 & Htot).
  destruct (setPage_run n s pg Hpg) as (s' & Hrun & Hpage & Hsame).
  rewrite (getTotalPages_run _ _ Hpg) in Htot. injection Htot as Htot.
  rewrite Htot in Hpage.
  destruct Hsame as (_ & Hm & Ho & Hf & _).
  set (p := clamp_page n (Pages (Z.max 1 c))) in *.
  assert (1 ≤ p ≤ Z.max 1 c) as Hp by (apply clamp_page_range; lia).
  exists s', p, (Z.max 1 c). split; [done|]. split; [done|].
  split.
  { rewrite (getTotalPages_run _ _ Hpage). simpl. by rewrite Hf, Htot. }
  split; [done|]. split.
  { rewrite (getPaginatedOrder_run _ _ Hpage). simpl. by rewrite Hf. }
  split.
  { apply page_slice_nonempty; [done | lia |].
    destruct (filteredOrder s); [done|]. simpl in *. nia. }
  intros Hs Hu _.
  pose proof (setPage_in_sync n s Hs Hu ltac:(by eexists)) as Hsync.
  rewrite Hrun in Hsync. simpl in Hsync. unfold in_sync, visible in Hsync.
  rewrite Hpage in Hsync. simpl in Hsync. by rewrite Hf in Hsync.
Qed.

Lemma setPage_lands_on_rows_witness :
  let pg := {| page := None; perPage := 2 |} in
  let s := set_filteredOrder [1; 2; 3] (constructor unmarked None (Some pg) false) in
  ∃ s' p, setPage 99 s = Return tt s'
          ∧ getPaginatedOrder s' = Return (page_slice [1; 2; 3] 2 p) s'
          ∧ page_slice [1; 2; 3] 2 p ≠ [].
Proof.
  intros pg s.
  destruct (setPage_lands_on_rows 99 s pg eq_refl ltac:(simpl; lia)
              ltac:(discriminate))
    as (s' & p & total & Hrun & _ & _ & _ & Hshown & Hne & _).
  by exists s', p.
Defined.

(** X19.  With a page stored inside [1 .. getTotalPages()] and a positive
    [perPage], [nextPage] moves one page on and stays on the last page,
    [prevPage] moves one page back and stays on the first; going on from a
    page that is not the last and back again returns to it. *)
Theorem next_and_prev_page (s : MyTableJs) (p n : Z) :
  pagination s = Some {| page := Some p; perPage := n |} → 0 < n →
  ∃ total s1 s2,
    getTotalPages s = Return (Pages total) s
    ∧ (1 ≤ p ≤ total →
       nextPage s = Navigated (Return tt s1)
       ∧ pagination s1
         = Some {| page := Some (if p <? total then p + 1 else total);
                   perPage := n |}
       ∧ prevPage s = Navigated (Return tt s2)
       ∧ pagination s2
         = Some {| page := Some (if 1 <? p then p - 1 else 1); perPage := n |}
       ∧ (p < total →
          ∃ s3, prevPage s1 = Navigated (Return tt s3)
                ∧ pagination s3 = pagination s
                ∧ filteredOrder s3 = filteredOrder s)).
Proof.
  intros Hpg Hn.
  set (pg := {| page := Some p; perPage := n |}) in *.
  destruct (getTotalPages_positive s pg Hpg Hn) as (c & Hc & Hc0 & Htot).
  destruct (setPage_run (p + 1) s pg Hpg) as (s1 & Hrun1 & Hp1 & Hsame1).
  destruct (setPage_run (p + -1) s pg Hpg) as (s2 & Hrun2 & Hp2 & Hsame2).
  pose proof Htot as Htot'.
  rewrite (getTotalPages_run _ _ Hpg) in Htot'. injection Htot' as Htot'.
  subst pg. simpl in *. rewrite Htot' in Hp1, Hp2.
  exists (Z.max 1 c), s1, s2. split; [done|]. intros Hp.
  unfold nextPage, prevPage, navigate. rewrite Hpg. simpl.
  rewrite Hrun1, Hrun2. split; [done|]. split.
  { rewrite Hp1. do 3 f_equal. unfold clamp_page.
    destruct (Z.ltb_spec p (Z.max 1 c)); lia. }
  split; [done|]. split.
  { rewrite Hp2. do 3 f_equal. unfold clamp_page.
    destruct (Z.ltb_spec 1 p); lia. }
  intros Hlt. rewrite Hp1.
  assert (clamp_page (p + 1) (Pages (Z.max 1 c)) = p + 1) as ->
    by (apply clamp_page_in_range; lia).
  simpl.
  match goal with |- context [setPage ?a s1] =>
    destruct (setPage_run a s1 _ Hp1) as (s3 & Hrun3 & Hp3 & Hsame3) end.
  destruct Hsame1 as (_ & _ & _ & Hf1 & _).
  destruct Hsame3 as (_ & _ & _ & Hf3 & _).
  exists s3. split; [by rewrite Hrun3|]. split; [|congruence].
  rewrite Hp3. simpl. rewrite Hf1, Htot'. do 3 f_equal.
  unfold clamp_page. lia.
Qed.

Lemma next_and_prev_page_witness :
  let s := set_filteredOrder [1; 2; 3]
             (constructor unmarked None (Some {| page := Some 1; perPage := 1 |}) false) in
  ∃ s1 s3, nextPage s = Navigated (Return tt s1)
           ∧ pagination s1 = Some {| page := Some 2; perPage := 1 |}
           ∧ prevPage s1 = Navigated (Return tt s3)
           ∧ pagination s3 = pagination s.
Proof.
  intros s.
  destruct (next_and_prev_page s 1 1 eq_refl ltac:(lia))
    as (total & s1 & s2 & Htot & H).
  vm_compute in Htot. injection Htot as <-.
  destruct (H ltac:(lia)) as (Hnext & Hp1 & _ & _ & Hback).
  destruct (Hback ltac:(lia)) as (s3 & Hprev & Hp3 & _).
  by exists s1, s3.
Defined.

(** ** The pagination controls *)

Section Controls.

Lemma seqZ_sorted m n : StronglySorted Z.lt (seqZ m n).
Proof.
  destruct (Z.le_gt_cases n 0) as [Hn|Hn].
  { rewrite seqZ_nil by done. constructor. }
  rewrite <- (Z2Nat.id n) by lia. generalize (Z.to_nat n) as k. clear.
  intros k. revert m. induction k as [|k IH]; intros m.
  - rewrite seqZ_nil by done. constructor.
  - rewrite seqZ_cons by lia. constructor.
    + replace (Z.pred (Z.of_nat (S k))) with (Z.of_nat k) by lia. apply IH.
    + apply Forall_seqZ. intros. lia.
Qed.

Lemma shown_pages_sorted c t : StronglySorted Z.lt (shown_pages c t).
Proof.
  unfold shown_pages. apply StronglySorted_app_2.
  - intros x1 x2 ->%list_elem_of_singleton Hx2.
    apply elem_of_app in Hx2 as [Hx2|Hx2].
    + apply elem_of_seqZ in Hx2. lia.
    + destruct (Z.ltb_spec 1 t); [|by apply elem_of_nil in Hx2].
      apply list_elem_of_singleton in Hx2. lia.
  - repeat constructor.
  - apply StronglySorted_app_2.
    + intros x1 x2 Hx1 Hx2. apply elem_of_seqZ in Hx1.
      destruct (Z.ltb_spec 1 t); [|by apply elem_of_nil in Hx2].
      apply list_elem_of_singleton in Hx2. lia.
    + apply seqZ_sorted.
    + destruct (1 <? t); repeat constructor.
Qed.

Lemma shown_pages_elem_of c t p :
  1 ≤ c ≤ t →
  p ∈ shown_pages c t ↔ 1 ≤ p ≤ t ∧ (p = 1 ∨ p = t ∨ c - 2 ≤ p ≤ c + 2).
Proof.
  intros Hc. unfold shown_pages.
  rewrite !elem_of_app, list_elem_of_singleton, elem_of_seqZ.
  destruct (Z.ltb_spec 1 t).
  - rewrite list_elem_of_singleton. lia.
  - rewrite elem_of_nil. lia.
Qed.

Lemma button_pages_app l1 l2 :
  button_pages (l1 ++ l2) = button_pages l1 ++ button_pages l2.
Proof. apply omap_app. Qed.

Lemma disabled_pages_app l1 l2 :
  disabled_pages (l1 ++ l2) = disabled_pages l1 ++ disabled_pages l2.
Proof. apply omap_app. Qed.

Lemma ellipses_app l1 l2 : ellipses (l1 ++ l2) = (ellipses l1 + ellipses l2)%nat.
Proof. unfold ellipses. by rewrite List.filter_app, length_app. Qed.

Lemma buttons_of_pages c (l : list Z) :
  button_pages (map (λ p, addPageButton c (Pages p)) l) = map Pages l
  ∧ disabled_pages (map (λ p, addPageButton c (Pages p)) l)
    = map Pages (List.filter (λ p, p =? c) l)
  ∧ ellipses (map (λ p, addPageButton c (Pages p)) l) = 0%nat.
Proof.
  induction l as [|p l (IH1 & IH2 & IH3)]; [done|].
  split; [|split].
  - simpl. by rewrite <- IH1.
  - simpl. destruct (p =? c); simpl; by rewrite <- IH2.
  - exact IH3.
Qed.

Lemma filter_the_one (c : Z) (l : list Z) :
  StronglySorted Z.lt l → c ∈ l → List.filter (λ p, p =? c) l = [c].
Proof.
  induction 1 as [|x l Hs IH Hall]; intros Hc.
  { by apply elem_of_nil in Hc. }
  simpl. destruct (Z.eqb_spec x c) as [->|Hne].
  - f_equal. apply list_filter_none. intros y Hy.
    rewrite Forall_forall in Hall. apply Hall in Hy. apply Z.eqb_neq. lia.
  - apply IH. by apply elem_of_cons in Hc as [->|Hc].
Qed.

(** The control list for a page total that is a number. *)
Lemma renderPagination_run s pg t :
  pagination s = Some pg →
  getTotalPages s = Return (Pages t) s →
  ∃ ctrls,
    renderPagination s = Return ctrls s
    ∧ button_pages ctrls = map Pages (shown_pages (currentPage pg) t)
    ∧ disabled_pages ctrls
      = map Pages (List.filter (λ p, p =? currentPage pg)
                     (shown_pages (currentPage pg) t))
    ∧ ellipses ctrls
      = Nat.add (one_if (2 <? Z.max 2 (currentPage pg - 2)))
          (one_if (Z.min (t - 1) (currentPage pg + 2) <? t - 1))
    ∧ head ctrls = Some (PrevButton (currentPage pg =? 1))
    ∧ last ctrls = Some (NextButton (t =? currentPage pg)).
Proof.
  intros Hpg Htot. unfold renderPagination. run_M. rewrite Htot, Hpg.
  set (c := currentPage pg).
  destruct (buttons_of_pages c
              (seqZ (Z.max 2 (c - 2)) (Z.min (t - 1) (c + 2) - Z.max 2 (c - 2) + 1)))
    as (Hb & Hd & He).
  eexists. split; [reflexivity|].
  unfold shown_pages, window_end, before_last, more_than_one.
  unfold is_page at 2.
  split; [|split; [|split; [|split]]].
  - rewrite !button_pages_app, Hb, !map_app.
    destruct (2 <? Z.max 2 (c - 2)), (Z.min (t - 1) (c + 2) <? t - 1),
      (1 <? t); reflexivity.
  - rewrite !disabled_pages_app, Hd, !List.filter_app, !map_app.
    destruct (2 <? Z.max 2 (c - 2)), (Z.min (t - 1) (c + 2) <? t - 1),
      (1 <? t);
      cbn [List.filter disabled_pages omap list_omap addPageButton is_page];
      destruct (1 =? c); try destruct (t =? c); reflexivity.
  - rewrite !ellipses_app, He.
    destruct (2 <? Z.max 2 (c - 2)), (Z.min (t - 1) (c + 2) <? t - 1),
      (1 <? t); reflexivity.
  - reflexivity.
  - rewrite !app_assoc. apply last_snoc.
Qed.

End Controls.

(** X20.  For a current page [c] inside [1 .. t], [t] being the page total
    for a positive [perPage], the footer shows page buttons in strictly
    increasing order, for exactly the pages 1, [t] and those within two of
    [c]; only the button of [c] is disabled; an ellipsis stands on each
    side where pages are left out ([c > 4], [c < t - 3]); the previous and
    next buttons are disabled on the first and on the last page; and
    [setPage] of any page shown stores that page. *)
Theorem pagination_controls (s : MyTableJs) (pg : Pagination) :
  pagination s = Some pg → 0 < perPage pg →
  ∃ t ctrls,
    getTotalPages s = Return (Pages t) s
    ∧ renderPagination s = Return ctrls s
    ∧ (1 ≤ currentPage pg ≤ t →
       button_pages ctrls = map Pages (shown_pages (currentPage pg) t)
       ∧ StronglySorted Z.lt (shown_pages (currentPage pg) t)
       ∧ (∀ p, p ∈ shown_pages (currentPage pg) t
               ↔ 1 ≤ p ≤ t
                 ∧ (p = 1 ∨ p = t
                    ∨ currentPage pg - 2 ≤ p ≤ currentPage pg + 2))
       ∧ disabled_pages ctrls = [Pages (currentPage pg)]
       ∧ ellipses ctrls
         = Nat.add (one_if (4 <? currentPage pg))
             (one_if (currentPage pg <? t - 3))
       ∧ head ctrls = Some (PrevButton (currentPage pg =? 1))
       ∧ last ctrls = Some (NextButton (t =? currentPage pg))
       ∧ ∀ p, p ∈ shown_pages (currentPage pg) t →
              ∃ s', setPage p s = Return tt s'
                    ∧ pagination s'
                      = Some {| page := Some p; perPage := perPage pg |}).
Proof.
  intros Hpg Hpos.
  destruct (getTotalPages_positive s pg Hpg Hpos) as (c0 & _ & Hc0 & Htot).
  set (t := Z.max 1 c0) in *.
  destruct (renderPagination_run s pg t Hpg Htot)
    as (ctrls & Hrun & Hb & Hd & He & Hh & Hl).
  exists t, ctrls. split; [done|]. split; [done|]. intros Hc.
  pose proof (shown_pages_sorted (currentPage pg) t) as Hsorted.
  pose proof (shown_pages_elem_of (currentPage pg) t) as Hin.
  split; [done|]. split; [done|]. split; [intros p; by apply Hin|].
  split.
  { rewrite Hd, (filter_the_one _ _ Hsorted); [done|]. apply Hin; lia. }
  split.
  { rewrite He. f_equal.
    - destruct (Z.ltb_spec 2 (Z.max 2 (currentPage pg - 2))),
        (Z.ltb_spec 4 (currentPage pg)); lia.
    - destruct (Z.ltb_spec (Z.min (t - 1) (currentPage pg + 2)) (t - 1)),
        (Z.ltb_spec (currentPage pg) (t - 3)); lia. }
  split; [done|]. split; [done|].
  intros p Hp. apply Hin in Hp as [Hp _]; [|done].
  destruct (setPage_run p s pg Hpg) as (s' & Hrun' & Hpage & _).
  exists s'. split; [done|]. rewrite Hpage. do 3 f_equal.
  rewrite (getTotalPages_run _ _ Hpg) in Htot. injection Htot as ->.
  by apply clamp_page_in_range.
Qed.

Lemma pagination_controls_witness :
  let pg := {| page := Some 5; perPage := 1 |} in
  let s := set_filteredOrder (seqZ 1 9) (constructor unmarked None (Some pg) false) in
  ∃ ctrls,
    renderPagination s = Return ctrls s
    ∧ button_pages ctrls = map Pages [1; 3; 4; 5; 6; 7; 9]
    ∧ disabled_pages ctrls = [Pages 5]
    ∧ ellipses ctrls = 2%nat.
Proof.
  intros pg s.
  destruct (pagination_controls s pg eq_refl ltac:(simpl; lia))
    as (t & ctrls & Htot & Hrun & H).
  assert (t = 9) as -> by (vm_compute in Htot; congruence).
  destruct (H ltac:(unfold pg, currentPage; simpl; lia))
    as (Hb & _ & _ & Hd & He & _).
  exists ctrls. split; [exact Hrun|]. split; [exact Hb|].
  split; [exact Hd | exact He].
Defined.

(** ** Filtering, the header and the page *)

Section HeaderAndPage.

Lemma keep_id_idle rows filters k :
  Forall idle filters →
  keep_id rows filters k = bool_decide (is_Some (rows !! k)).
Proof.
  intros Hidle. rewrite keep_id_groups, !group_idle by auto.
  by destruct (rows !! k).
Qed.

Lemma filter_idle_order filters s :
  Forall idle filters → invariant s →
  List.filter (keep_id (rowMap s) filters) (order s) = order s.
Proof.
  intros Hidle [_ Hkeys _ _ _]. apply list_filter_all.
  eapply Forall_impl; [exact Hkeys|]. intros k Hk. simpl.
  rewrite keep_id_idle by done. by apply bool_decide_eq_true.
Qed.

Lemma headerFilters_cleared h :
  Forall idle
    (headerFilters {| inputs := map clear_input (inputs h);
                      modeSwitch := modeSwitch h;
                      isThead := isThead h;
                      parentNode := parentNode h |}).
Proof.
  unfold headerFilters. simpl. apply Forall_forall.
  intros f (e & -> & He)%list_elem_of_fmap.
  apply list_elem_of_fmap in He as (e0 & -> & _). by left.
Qed.

(** [filterTable] with pagination: the page and the rest of the state. *)
Lemma filterTable_page filters s pg :
  pagination s = Some pg →
  ∃ s', filterTable filters s = Return (filteredOrder s') s'
        ∧ pagination s' = Some {| page := Some 1; perPage := perPage pg |}
        ∧ filteredOrder s'
          = List.filter (keep_id (rowMap s) filters) (order s).
Proof.
  intros Hpg. unfold filterTable. run_M. simpl. rewrite Hpg.
  set (s1 := set_filteredOrder _ s).
  destruct (setPage_run 1 s1 pg Hpg) as (s2 & -> & Hp2 & Hrows).
  rewrite clamp_page_one in Hp2.
  destruct Hrows as (_ & _ & _ & Hf2 & _).
  destruct (renderTable_draws s2) as (s3 & -> & _ & Hsame).
  destruct Hsame as (_ & Hp3 & _ & _ & Hf3 & _).
  exists s3. rewrite Hf3, Hf2, Hp3, Hp2. done.
Qed.

End HeaderAndPage.

(** X21.  With pagination configured every filter pass goes back to the
    first page, whatever page was stored before and whatever [perPage] is:
    the page stored is 1, and the ids to show are the first [perPage] ids
    of the new [filteredOrder]; in a sound store with keys up to [2^53]
    whose template leaves the [data-id] to the widget the body is redrawn
    with them. *)
Theorem filterTable_first_page (filters : list FilterEntry) (s : MyTableJs)
    (pg : Pagination) :
  pagination s = Some pg →
  ∃ s', filterTable filters s = Return (filteredOrder s') s'
        ∧ pagination s' = Some {| page := Some 1; perPage := perPage pg |}
        ∧ (0 ≤ perPage pg →
           visible s' = take (Z.to_nat (perPage pg)) (filteredOrder s'))
        ∧ (sound s → unmarked_rows s → safe_keys s → 0 ≤ perPage pg →
           tbody s'
           = map Str.ofZ (take (Z.to_nat (perPage pg)) (filteredOrder s'))).
Proof.
  intros Hpg.
  destruct (filterTable_page filters s pg Hpg) as (s' & Hrun & Hp & Hf).
  assert (0 ≤ perPage pg →
          visible s' = take (Z.to_nat (perPage pg)) (filteredOrder s')) as Hv.
  { intros Hn. unfold visible. rewrite Hp. simpl.
    change (slice (filteredOrder s') 0 (perPage pg))
      with (slice (filteredOrder s') 0 (0 + perPage pg)).
    by rewrite slice_take_drop by lia. }
  exists s'. split; [done|]. split; [done|]. split; [done|].
  intros Hs Hu _ Hn.
  pose proof (filterTable_in_sync filters s Hs Hu) as Hsync.
  rewrite Hrun in Hsync. simpl in Hsync. unfold in_sync in Hsync.
  by rewrite Hsync, Hv.
Qed.

Lemma filterTable_first_page_witness :
  let alice : row := {[ "id" := VNumber (Int 1); "name" := VString "Alice" ]} in
  let bob : row := {[ "id" := VNumber (Int 2); "name" := VString "Bob" ]} in
  let s0 := constructor unmarked None (Some {| page := None; perPage := 1 |}) false in
  let s := state_of (setPage 2 (state_of (setData [alice; bob] false s0))) in
  pagination s = Some {| page := Some 2; perPage := 1 |}
  ∧ ∃ s', filterTable [] s = Return (filteredOrder s') s'
          ∧ pagination s' = Some {| page := Some 1; perPage := 1 |}.
Proof.
  intros alice bob s0 s. split; [reflexivity|].
  destruct (filterTable_first_page [] s {| page := Some 2; perPage := 1 |}
              eq_refl)
    as (s' & Hrun & Hp & _).
  by exists s'.
Defined.

(** X22.  With a header bound [resetFilter] returns, empties the value of
    every search input, keeps their columns and the mode switch, and makes
    [filteredOrder] a copy of [order]; the stored page is left as it was.
    The filter the header then describes filters nothing: an input event on
    the cleared header leaves [filteredOrder] equal to [order]. *)
Theorem resetFilter_clears_header (s : MyTableJs) (h : Header)
    (target : SearchInput) :
  thead s = Some h →
  ∃ s' h',
    resetFilter s = Return tt s'
    ∧ thead s' = Some h'
    ∧ map searchColumn (inputs h') = map searchColumn (inputs h)
    ∧ Forall (λ e, inputValue e = "") (inputs h')
    ∧ modeSwitch h' = modeSwitch h
    ∧ filteredOrder s' = order s ∧ order s' = order s
    ∧ rowMap s' = rowMap s ∧ pagination s' = pagination s
    ∧ ∃ s'', onHeaderInput target s' = Return tt s''
             ∧ (invariant s → filteredOrder s'' = order s).
Proof.
  intros Hh. unfold resetFilter. run_M. simpl. rewrite Hh.
  match goal with |- context [renderTable ?t] =>
    destruct (renderTable_draws t) as (s' & -> & _ & Hsame) end.
  destruct Hsame as (_ & Hp & Hm & Ho & Hf & _ & Ht & _). simpl in *.
  eexists s', _. split; [reflexivity|]. split; [exact Ht|].
  split. { simpl. rewrite map_map. by apply map_ext. }
  split. { simpl. apply Forall_forall.
           by intros e (e0 & -> & _)%list_elem_of_fmap. }
  split; [done|]. split; [done|]. split; [done|]. split; [done|].
  split; [done|].
  unfold onHeaderInput. run_M. rewrite Ht.
  destruct (Str.is_empty (searchColumn target)).
  - exists s'. split; [done|]. by intros _.
  - match goal with |- context [filterTable ?f s'] =>
      destruct (filterTable_run f s') as (s'' & -> & Hsame) end.
    exists s''. split; [done|]. intros Hinv.
    destruct Hsame as (_ & _ & _ & -> & _). simpl. rewrite Hm, Ho.
    apply filter_idle_order; [apply headerFilters_cleared | done].
Qed.

Lemma resetFilter_clears_header_witness :
  let h := {| inputs := [ {| searchColumn := "name"; inputValue := "bob" |} ];
              modeSwitch := None; isThead := true;
              parentNode := false |} in
  let alice : row := {[ "id" := VNumber (Int 1); "name" := VString "Alice" ]} in
  let s0 := state_of (renderHeader (Some h) (constructor unmarked None None false)) in
  let s := state_of (filterTable (headerFilters h)
                       (state_of (setData [alice] false s0))) in
  filteredOrder s = []
  ∧ ∃ s' h', resetFilter s = Return tt s' ∧ thead s' = Some h'
             ∧ Forall (λ e, inputValue e = "") (inputs h')
             ∧ filteredOrder s' = [1].
Proof.
  intros h alice s0 s. split; [reflexivity|].
  destruct (resetFilter_clears_header s h
              {| searchColumn := "name"; inputValue := "" |} eq_refl)
    as (s' & h' & Hrun & Ht & _ & Hclear & _ & Hf & _).
  exists s', h'. split; [exact Hrun|]. split; [exact Ht|].
  split; [exact Hclear|]. rewrite Hf. reflexivity.
Defined.

(** X23.  On a table without a [thead], [renderHeader] binds the element
    and returns it, after which [resetFilter] returns instead of
    throwing.  The guard against a second header is the [thead] of the
    table: after a [thead] element without a parent was bound, and on a
    table that already has a [thead], any [renderHeader] returns [null]
    and binds nothing; after an element that is no [thead], or one that
    was left where it was, a further [renderHeader] binds again and
    replaces the header. *)
Theorem renderHeader_binds_once (h h2 : Header) (s : MyTableJs) :
  (tableHasThead s = false →
   ∃ s1, renderHeader (Some h) s = Return (Some h) s1
         ∧ thead s1 = Some h
         ∧ rowMap s1 = rowMap s ∧ order s1 = order s
         ∧ filteredOrder s1 = filteredOrder s
         ∧ returns (resetFilter s1)
         ∧ (isThead h = true → parentNode h = false →
            renderHeader (Some h2) s1 = Return None s1)
         ∧ (isThead h = false ∨ parentNode h = true →
            ∃ s2, renderHeader (Some h2) s1 = Return (Some h2) s2
                  ∧ thead s2 = Some h2))
  ∧ (tableHasThead s = true → renderHeader (Some h) s = Return None s)
  ∧ renderHeader None s = Return None s.
Proof.
  split; [|split].
  - intros Hno. unfold renderHeader at 1. run_M. rewrite Hno.
    set (s0 := if parentNode h then s else set_tableHasThead (isThead h) s).
    assert (tableHasThead s0 = (negb (parentNode h) && isThead h)) as Hh.
    { unfold s0. destruct (parentNode h); simpl; [done|]. done. }
    exists (set_thead (Some h) s0).
    split; [unfold s0; by destruct (parentNode h)|].
    split; [done|].
    split; [unfold s0; by destruct (parentNode h)|].
    split; [unfold s0; by destruct (parentNode h)|].
    split; [unfold s0; by destruct (parentNode h)|].
    split; [|split].
    + match goal with |- returns (resetFilter ?t) =>
        destruct (resetFilter_bound t h eq_refl) as (s' & -> & _) end.
      done.
    + intros Ht Hp. unfold renderHeader. run_M. simpl.
      by rewrite Hh, Ht, Hp.
    + intros Hor. unfold renderHeader. run_M. simpl. rewrite Hh.
      assert (negb (parentNode h) && isThead h = false) as ->.
      { destruct Hor as [-> | ->]; [apply andb_false_r | done]. }
      destruct (parentNode h2); eexists; (split; [reflexivity|done]).
  - intros Hyes. unfold renderHeader. run_M. by rewrite Hyes.
  - reflexivity.
Qed.

Lemma renderHeader_binds_once_witness :
  let h := {| inputs := [ {| searchColumn := "name"; inputValue := "" |} ];
              modeSwitch := None; isThead := true;
              parentNode := false |} in
  let div := {| inputs := inputs h; modeSwitch := None; isThead := false;
                parentNode := false |} in
  (∃ s1, renderHeader (Some h) (constructor unmarked None None false)
         = Return (Some h) s1
         ∧ returns (resetFilter s1)
         ∧ renderHeader (Some div) s1 = Return None s1)
  ∧ (∃ s1 s2, renderHeader (Some div) (constructor unmarked None None false)
              = Return (Some div) s1
              ∧ renderHeader (Some h) s1 = Return (Some h) s2
              ∧ thead s2 = Some h)
  ∧ renderHeader (Some h) (constructor unmarked None None true)
    = Return None (constructor unmarked None None true).
Proof.
  intros h div.
  destruct (renderHeader_binds_once h div
              (constructor unmarked None None false)) as (Hbind & _ & _).
  destruct (renderHeader_binds_once div h
              (constructor unmarked None None false)) as (Hbind' & _ & _).
  destruct (renderHeader_binds_once h h (constructor unmarked None None true))
    as (_ & Hnull & _).
  split; [|split].
  - destruct (Hbind eq_refl) as (s1 & Hrun & _ & _ & _ & _ & Hret & Honce & _).
    exists s1. split; [exact Hrun|]. split; [exact Hret|].
    by apply Honce.
  - destruct (Hbind' eq_refl)
      as (s1 & Hrun & _ & _ & _ & _ & _ & _ & Hagain).
    destruct (Hagain ltac:(by left)) as (s2 & Hrun2 & Ht).
    by exists s1, s2.
  - by apply Hnull.
Defined.

(** ** The text of a cell as a filter value *)

Section CellText.

Import Str FilterSpec.

Lemma occurs_cons c t s : occurs t s → occurs t (String c s).
Proof.
  intros (pre & post & ->). exists (String c pre), post.
  by rewrite append_cons.
Qed.

Lemma occurs_trans a b c : occurs a b → occurs b c → occurs a c.
Proof.
  intros (p1 & q1 & ->) (p2 & q2 & ->). exists (p2 +:+ p1), (q1 +:+ q2).
  by rewrite !append_assoc.
Qed.

(** The pieces of [split]: the first is a prefix, all occur in the
    string. *)
Lemma split_pieces s :
  ∃ h t, split s = h :: t
         ∧ (∃ post, s = h +:+ post)
         ∧ ∀ piece, In piece t → occurs piece s.
Proof.
  induction s as [|c s (h & t & Hs & [post Hh] & Ht)]; simpl.
  - exists EmptyString, []. split; [done|]. split; [by exists EmptyString|].
    by intros piece [].
  - destruct (Ascii.eqb c comma).
    + exists EmptyString, (split s). split; [done|].
      split; [by exists (String c s)|].
      intros piece Hp. apply occurs_cons. rewrite Hs in Hp.
      destruct Hp as [<-|Hp]; [|by apply Ht].
      exists EmptyString, post. by rewrite append_nil_l.
    + rewrite Hs. exists (String c h), t. split; [done|]. split.
      * exists post. by rewrite append_cons, <- Hh.
      * intros piece Hp. by apply occurs_cons, Ht.
Qed.

Lemma split_occurs s piece : In piece (split s) → occurs piece s.
Proof.
  destruct (split_pieces s) as (h & t & -> & [post Hh] & Ht).
  intros [<-|Hp]; [|by apply Ht].
  exists EmptyString, post. by rewrite append_nil_l.
Qed.

Lemma trimStart_occurs s : occurs (trimStart s) s.
Proof.
  induction s as [|c s IH]; simpl.
  - exists EmptyString, EmptyString. done.
  - destruct (is_space c); [by apply occurs_cons|].
    exists EmptyString, EmptyString. by rewrite append_nil_l, append_nil_r.
Qed.

Lemma trimEnd_prefix s : ∃ post, s = trimEnd s +:+ post.
Proof.
  induction s as [|c s [post IH]]; simpl.
  - by exists EmptyString.
  - destruct (is_space c && is_empty (trimEnd s)).
    + by exists (String c s).
    + exists post. by rewrite append_cons, <- IH.
Qed.

Lemma trim_occurs s : occurs (trim s) s.
Proof.
  unfold trim. eapply occurs_trans; [|apply trimStart_occurs].
  destruct (trimEnd_prefix (trimStart s)) as [post H].
  exists EmptyString, post. by rewrite append_nil_l.
Qed.

(** Every token of a value occurs in the value. *)
Lemma token_occurs v t : In t (tokens v) → occurs t v.
Proof.
  unfold tokens. intros [Hin _]%filter_In.
  apply in_map_iff in Hin as (piece & <- & Hp).
  eapply occurs_trans; [apply trim_occurs | by apply split_occurs].
Qed.

Lemma occurs_ci t s : occurs t s → ci_substring t s.
Proof.
  intros (pre & post & ->). exists pre, t, post. split; [done|].
  by apply ci_equal_lower.
Qed.

End CellText.

(** X24.  The text of a cell finds its row: a filter entry whose value is
    the stringified content of a row's column keeps that row under the
    mode AND, provided the text holds at least one token (it is not made
    of commas and white space only).  The column is a name no row inherits
    a member under, and the cell holds ASCII text, an integer up to [2^53]
    or another primitive value. *)
Theorem cell_text_finds_row (id : Z) (r : row) (col : string)
    (s : MyTableJs) :
  own_name col → (∀ v, r !! col = Some v → plain_value v = true) →
  rowMap s !! id = Some r → id ∈ order s →
  FilterSpec.tokens (FilterSpec.column_text r col) ≠ [] →
  ∃ s',
    filterTable [ {| column := col; value := FilterSpec.column_text r col;
                     mode := "AND" |} ] s
    = Return (filteredOrder s') s'
    ∧ id ∈ filteredOrder s'.
Proof.
  intros _ _ Hr Hin Htok.
  set (f := {| column := col; value := FilterSpec.column_text r col;
               mode := "AND" |}).
  destruct (filterTable_run [f] s) as (s' & Hrun & Hsame).
  destruct Hsame as (_ & _ & _ & Hf & _). simpl in Hf.
  exists s'. rewrite Hf. split; [done|].
  apply list_filter_elem_of. split; [done|]. apply keep_id_spec.
  exists r. split; [done|].
  assert (FilterSpec.entry_matches r f) as Hm.
  { destruct (FilterSpec.tokens (FilterSpec.column_text r col)) as [|t ts] eqn:E;
      [done|].
    exists t. split; [apply tokens_spec; simpl; rewrite E; by left|].
    apply occurs_ci, token_occurs. simpl. rewrite E. by left. }
  assert (Str.is_empty (value f) = false) as Hv.
  { simpl. destruct (FilterSpec.column_text r col); [|done].
    by vm_compute in Htok. }
  unfold FilterSpec.included.
  rewrite (group_cons_same "AND") by done.
  rewrite (group_cons_other "OR"), (group_cons_other "NOT") by done.
  split; [right; by constructor|]. split; by left.
Qed.

Lemma cell_text_finds_row_witness :
  let alice : row :=
    {[ "id" := VNumber (Int 1); "name" := VString "Alice, Bob" ]} in
  let s := state_of (setData [alice] false (constructor unmarked None None false)) in
  ∃ s', filterTable [ {| column := "name"; value := "Alice, Bob";
                         mode := "AND" |} ] s
        = Return (filteredOrder s') s'
        ∧ 1 ∈ filteredOrder s'.
Proof.
  intros alice s.
  refine (cell_text_finds_row 1 (stamp 1 alice) "name" s _ _ eq_refl _ _).
  - own_name_tac.
  - intros v [= <-]. reflexivity.
  - vm_compute. left.
  - vm_compute. discriminate.
Defined.
